(** * go-aof: a shallow embedding of the append-only file and its fold engine

    The development follows [aof.go] and the fold handlers that go with it
    (the ones that size a frame with [bufRWEntrySize] and [bufRWEntryFlag]).
    The Go values are embedded as follows.

    - [int] and [int64] are 64-bit: they are integers of [Z], and the
      additions on [int64] offsets and sizes go through [wrap64].
    - A byte slice is a [list byte]; [len], [take], [drop], [copy] and [zeros]
      are Go's [len], [s[:n]], [s[n:]], [copy] and [make([]byte, n)].
    - [*os.File] is a regular file: its bytes, the offset of the open file
      description, whether it was opened for writing (then with [O_APPEND]),
      and a script that decides which of the coming write calls fail.
    - [*bufio.Reader] and [*bufio.Writer] are the buffers of Go's [bufio]
      package, of [bufsz] = 4096 bytes, with the package's rules for when the
      buffer is refilled or flushed.
    - The mutex is not modelled: every operation runs to its end alone.

    The first part takes the file system to be sound: the file opens, its
    offset moves to any position that is not negative, and a read of it
    returns bytes or [io.EOF].  The module [FS] lifts this: there
    [os.OpenFile], [f.Seek] and the read calls of the file can fail, and the
    functions on the read path are given again with these outcomes. *)

From Stdlib Require Import ZArith List Lia Bool.
From Stdlib.Strings Require Import Byte.
Import ListNotations.
Local Open Scope Z_scope.

Set Implicit Arguments.

(** ** Slices *)

Definition len {A : Type} (l : list A) : Z := Z.of_nat (length l).
Definition take {A : Type} (n : Z) (l : list A) : list A := firstn (Z.to_nat n) l.
Definition drop {A : Type} (n : Z) (l : list A) : list A := skipn (Z.to_nat n) l.
Definition zeros (n : Z) : list byte := repeat x00 (Z.to_nat n).

(** [copy dst src]: the contents of [dst] after Go's [copy(dst, src)]. *)
Definition copy (dst src : list byte) : list byte :=
  take (len dst) src ++ drop (len src) dst.

Definition byte_of_Z (z : Z) : byte :=
  match Byte.of_N (Z.to_N (z mod 256)) with
  | Some b => b
  | None => x00
  end.

Definition Z_of_byte (b : byte) : Z := Z.of_N (Byte.to_N b).

Definition wrap64 (z : Z) : Z := (z + 2 ^ 63) mod 2 ^ 64 - 2 ^ 63.

Definition is_some {A : Type} (o : option A) : bool :=
  match o with Some _ => true | None => false end.

Definition is_none {A : Type} (o : option A) : bool := negb (is_some o).

(** ** Errors *)

Inductive error : Type :=
| ErrUnexpectedReadError
| ErrCompletingLastEntry
| ErrLastEntryIncomplete
| ErrInvalidArguments
| ErrUnexpectedWriteErr
| ErrEntryExceedsMaxSize
| ErrAppenderClosed
| EOF              (* io.EOF *)
| ErrShortWrite    (* io.ErrShortWrite *)
| EBADF            (* write on a file opened O_RDONLY *)
| EIO              (* a read or write call that the file system fails *)
| ENOENT           (* opening, without O_CREATE, a file that is not there *)
| ErrUser (n : nat) (* an error raised by a reducer *).

Definition error_eqb (a b : error) : bool :=
  match a, b with
  | ErrUnexpectedReadError, ErrUnexpectedReadError
  | ErrCompletingLastEntry, ErrCompletingLastEntry
  | ErrLastEntryIncomplete, ErrLastEntryIncomplete
  | ErrInvalidArguments, ErrInvalidArguments
  | ErrUnexpectedWriteErr, ErrUnexpectedWriteErr
  | ErrEntryExceedsMaxSize, ErrEntryExceedsMaxSize
  | ErrAppenderClosed, ErrAppenderClosed
  | EOF, EOF
  | ErrShortWrite, ErrShortWrite
  | EBADF, EBADF
  | EIO, EIO
  | ENOENT, ENOENT => true
  | ErrUser n, ErrUser m => Nat.eqb n m
  | _, _ => false
  end.

(** [err != nil && err != io.EOF] *)
Definition unexpected (err : option error) : bool :=
  match err with
  | None => false
  | Some e => negb (error_eqb e EOF)
  end.

(** [err == io.EOF] *)
Definition is_EOF (err : option error) : bool :=
  match err with
  | Some e => error_eqb e EOF
  | None => false
  end.

(** ** The file *)

Module OS.

Record File : Type := mkFile {
  data : list byte;          (* the bytes of the file *)
  pos : Z;                   (* the file offset *)
  writable : bool;           (* false: O_RDONLY; true: O_CREATE|O_RDWR|O_APPEND *)
  faults : list (option Z);  (* next write calls: [Some k] fails after [k] bytes *)
  nfail : nat                (* ghost: write calls that have failed *)
}.

(** [f.Seek(p, io.SeekStart)] for [0 <= p]. *)
Definition Seek (f : File) (p : Z) : File :=
  mkFile (data f) p (writable f) (faults f) (nfail f).

(** [f.Read(b)] with [len(b) = n]: what is there up to [n] bytes, [io.EOF]
    when nothing is. *)
Definition Read (f : File) (n : Z) : File * list byte * option error :=
  if n <=? 0 then (f, [], None)
  else
    match take n (drop (pos f) (data f)) with
    | [] => (f, [], Some EOF)
    | c => (mkFile (data f) (pos f + len c) (writable f) (faults f) (nfail f),
            c, None)
    end.

(** [f.Write(b)]: with [O_APPEND] the bytes go to the end of the file and the
    offset ends there. *)
Definition Write (f : File) (b : list byte) : File * Z * option error :=
  if negb (writable f) then
    (mkFile (data f) (pos f) (writable f) (faults f) (S (nfail f)), 0, Some EBADF)
  else
    match faults f with
    | Some k :: rest =>
        let d := data f ++ take k b in
        (mkFile d (len d) true rest (S (nfail f)), len (take k b), Some EIO)
    | None :: rest =>
        let d := data f ++ b in
        (mkFile d (len d) true rest (nfail f), len b, None)
    | [] =>
        let d := data f ++ b in
        (mkFile d (len d) true [] (nfail f), len b, None)
    end.

End OS.

(** ** bufio *)

Module Bufio.

Definition bufsz : Z := 4096.

(** [b.Read(p)] with [len(p) = n], on a reader holding the unread bytes [rb]:
    the bytes come from the buffer when it has some, and otherwise from one
    [Read] of the file, into [p] itself when [p] is at least as large as the
    buffer.  No error stays pending: the file returns bytes or [io.EOF],
    never both. *)
Definition Read (f : OS.File) (rb : list byte) (n : Z)
  : OS.File * list byte * list byte * option error :=
  if n =? 0 then (f, rb, [], None)
  else
    match rb with
    | [] =>
        if bufsz <=? n then
          let '(f', c, e) := OS.Read f n in (f', [], c, e)
        else
          let '(f', c, e) := OS.Read f bufsz in
          match c with
          | [] => (f', [], [], e)
          | _ => (f', drop n c, take n c, None)
          end
    | _ => (f, drop n rb, take n rb, None)
    end.

Record Writer : Type := mkWriter {
  wbuf : list byte;      (* b.buf[0:b.n] *)
  werr : option error    (* b.err *)
}.

Definition Flush (f : OS.File) (w : Writer) : OS.File * Writer * option error :=
  match werr w with
  | Some e => (f, w, Some e)
  | None =>
      match wbuf w with
      | [] => (f, w, None)
      | _ =>
          let '(f', n, e) := OS.Write f (wbuf w) in
          let e' := if (n <? len (wbuf w)) && is_none e
                    then Some ErrShortWrite else e in
          match e' with
          | Some x => (f', mkWriter (drop n (wbuf w)) (Some x), Some x)
          | None => (f', mkWriter [] None, None)
          end
      end
  end.

(** The loop of [b.Write(p)]: while [p] does not fit in what is left of the
    buffer and no error is recorded. *)
Fixpoint Write_loop (fuel : nat) (f : OS.File) (w : Writer) (p : list byte)
                    (nn : Z) : OS.File * Writer * list byte * Z :=
  match fuel with
  | O => (f, w, p, nn)
  | S fuel' =>
      if (bufsz - len (wbuf w) <? len p) && is_none (werr w) then
        match wbuf w with
        | [] =>
            let '(f', n, e) := OS.Write f p in
            Write_loop fuel' f' (mkWriter [] e) (drop n p) (nn + n)
        | _ =>
            let n := Z.min (bufsz - len (wbuf w)) (len p) in
            let '(f', w', _) :=
              Flush f (mkWriter (wbuf w ++ take n p) (werr w)) in
            Write_loop fuel' f' w' (drop n p) (nn + n)
        end
      else (f, w, p, nn)
  end.

(** Two turns of the loop are the most there can be (see
    [Write_loop_fuel]): a turn that does not record an error leaves the
    buffer empty, and with an empty buffer the next turn writes all of [p]. *)
Definition Write (f : OS.File) (w : Writer) (p : list byte)
  : OS.File * Writer * Z * option error :=
  let '(f', w', p', nn) := Write_loop 3 f w p 0 in
  match werr w' with
  | Some e => (f', w', nn, Some e)
  | None => (f', mkWriter (wbuf w' ++ p') None, nn + len p', None)
  end.

Definition WriteByte (f : OS.File) (w : Writer) (c : byte)
  : OS.File * Writer * option error :=
  match werr w with
  | Some e => (f, w, Some e)
  | None =>
      if bufsz - len (wbuf w) <=? 0 then
        let '(f', w', e) := Flush f w in
        match e with
        | Some _ => (f', w', werr w')
        | None => (f', mkWriter (wbuf w' ++ [c]) (werr w'), None)
        end
      else (f, mkWriter (wbuf w ++ [c]) None, None)
  end.

End Bufio.

(** ** Entries, the shared memory and the appender *)

Record Entry : Type := mkEntry {
  off : Z;
  size : Z;
  bytes : list byte;
  incomplete : bool
}.

Record sharedMem : Type := mkSharedMem {
  sharedEntry : Entry;
  bufRWEntrySize : list byte;
  bufRWEntryFlag : list byte
}.

(** The fields [f], [r], [w], [size] and [err] of the Go struct are [file],
    [rd] (the unread bytes of the reader's buffer), [wr], [asize] and [aerr]. *)
Record Appender : Type := mkAppender {
  file : OS.File;
  rd : list byte;
  wr : Bufio.Writer;
  maxEntrySize : Z;
  baseOffset : Z;
  asize : Z;
  shm : sharedMem;
  closed : bool;
  aerr : option error
}.

Record Config : Type := mkConfig {
  MaxEntrySize : Z;
  BaseOffset : Z;
  ReadOnly : bool
}.

Definition DefaultMaxEntrySize : Z := 65535.
Definition DefaultBaseOffset : Z := 0.
Definition DefaultReadOnly : bool := false.

Definition fIncompleteEntry : byte := x01.
Definition fCompleteEntry : byte := x02.

Definition Offset (e : Entry) : Z := off e.
Definition Size (e : Entry) : Z := size e.
Definition Bytes (e : Entry) : list byte := take (size e) (bytes e).
Definition Incomplete (e : Entry) : bool := incomplete e.

Definition set_io (app : Appender) (f : OS.File) (rb : list byte)
                  (w : Bufio.Writer) : Appender :=
  mkAppender f rb w (maxEntrySize app) (baseOffset app) (asize app) (shm app)
             (closed app) (aerr app).

Definition set_shm (app : Appender) (sm : sharedMem) : Appender :=
  mkAppender (file app) (rd app) (wr app) (maxEntrySize app) (baseOffset app)
             (asize app) sm (closed app) (aerr app).

Definition set_asize (app : Appender) (s : Z) : Appender :=
  mkAppender (file app) (rd app) (wr app) (maxEntrySize app) (baseOffset app)
             s (shm app) (closed app) (aerr app).

Definition set_sizebuf (app : Appender) (b : list byte) : Appender :=
  set_shm app (mkSharedMem (sharedEntry (shm app)) b (bufRWEntryFlag (shm app))).

Definition set_flagbuf (app : Appender) (b : list byte) : Appender :=
  set_shm app (mkSharedMem (sharedEntry (shm app)) (bufRWEntrySize (shm app)) b).

Definition set_sharedEntry (app : Appender) (e : Entry) : Appender :=
  set_shm app (mkSharedMem e (bufRWEntrySize (shm app)) (bufRWEntryFlag (shm app))).

(** [app.close(err)]; the file is not used again once [closed] is set. *)
Definition close (app : Appender) (err : option error) : Appender :=
  mkAppender (file app) (rd app) (wr app) (maxEntrySize app) (baseOffset app)
             (asize app) (shm app) true err.

Definition Close (app : Appender) : Appender := close app None.

(** [app.seek(off)]: [f.Seek] refuses a negative position. *)
Definition seek (app : Appender) (o : Z) : Appender * option error :=
  let p := wrap64 (baseOffset app + o) in
  if p <? 0 then (app, Some ErrUnexpectedReadError)
  else (set_io app (OS.Seek (file app) p) [] (wr app), None).

(** [bits.Len] of an unsigned 64-bit value. *)
Definition bits_Len (x : Z) : Z := if x =? 0 then 0 else Z.log2 x + 1.

(** [None] is the panic ["Unreacheable point"]. *)
Definition entrySizeLen (maxEntrySize : Z) : option Z :=
  let l := bits_Len (maxEntrySize mod 2 ^ 64) in
  if l <=? 16 then Some 2
  else if l <=? 32 then Some 4
  else None.

(** [readInt] and [writeInt] panic on a buffer that has neither 2 nor 4 bytes;
    the only buffer they are given is [bufRWEntrySize], which has the length
    [entrySizeLen] chose ([hw_ok] below), and for every other length
    [readInt] is 0 here and [writeInt] leaves the buffer as it is. *)
Definition readInt (b : list byte) : Z :=
  match b with
  | [b0; b1] => Z_of_byte b0 + 256 * Z_of_byte b1
  | [b0; b1; b2; b3] =>
      Z_of_byte b0 + 256 * Z_of_byte b1 + 65536 * Z_of_byte b2
      + 16777216 * Z_of_byte b3
  | _ => 0
  end.

Definition writeInt (b : list byte) (n : Z) : list byte :=
  match b with
  | [_; _] => [byte_of_Z n; byte_of_Z (n / 256)]
  | [_; _; _; _] =>
      [byte_of_Z n; byte_of_Z (n / 256); byte_of_Z (n / 65536);
       byte_of_Z (n / 16777216)]
  | _ => b
  end.

(** [b[0] = 0] and [b[0]] on the flag buffer. *)
Definition clear0 (b : list byte) : list byte :=
  match b with
  | [] => []
  | _ :: t => x00 :: t
  end.

Definition byte0 (b : list byte) : byte := hd x00 b.

(** The loop [for rc < e.size && err == nil] of [read]: each turn reads into
    [e.bytes[:e.size]] from its start and replaces [rc].  The last component
    tells that the turn met an error other than [io.EOF]. *)
Fixpoint read_payload (fuel : nat) (f : OS.File) (rb bs : list byte)
                      (sz rc : Z) (err : option error)
  : OS.File * list byte * list byte * Z * option error * bool :=
  match fuel with
  | O => (f, rb, bs, rc, err, false)
  | S fuel' =>
      if (rc <? sz) && is_none err then
        let '(f', rb', c, err') := Bufio.Read f rb (len (take sz bs)) in
        let bs' := copy (take sz bs) c ++ drop sz bs in
        if unexpected err' then (f', rb', bs', len c, err', true)
        else read_payload fuel' f' rb' bs' sz (len c) err'
      else (f, rb, bs, rc, err, false)
  end.

(** A turn that does not end the loop takes at least one byte, so this many
    turns are enough ([read_payload_fuel]). *)
Definition payload_fuel (f : OS.File) (rb : list byte) : nat :=
  S (length rb + length (OS.data f)).

(** [e.read(app)]: the entry, the missing bytes and the error. *)
Definition Entry_read (e : Entry) (app : Appender)
  : Appender * Entry * Z * option error :=
  let hbuf0 := zeros (len (bufRWEntrySize (shm app))) in
  let '(f1, rb1, c, err) := Bufio.Read (file app) (rd app) (len hbuf0) in
  let hbuf := copy hbuf0 c in
  let n := len c in
  let app1 := set_sizebuf (set_io app f1 rb1 (wr app)) hbuf in
  if unexpected err then (app1, e, 0, Some ErrUnexpectedReadError)
  else if n =? 0 then
    (app1, mkEntry (off e) 0 (bytes e) (incomplete e), 0, err)
  else
    let sz := readInt hbuf in
    let bs0 := if len (bytes e) <? sz then zeros sz else bytes e in
    let '(f2, rb2, bs, rc, err2, bad) :=
      if n =? len hbuf
      then read_payload (payload_fuel f1 rb1) f1 rb1 bs0 sz 0 err
      else (f1, rb1, bs0, 0, err, false) in
    let app2 := set_io app1 f2 rb2 (wr app) in
    if bad then
      (app2, mkEntry (off e) sz bs (incomplete e), 0, Some ErrUnexpectedReadError)
    else
      let fbuf0 := clear0 (bufRWEntryFlag (shm app)) in
      let '(f3, rb3, fbuf, err3) :=
        if rc =? sz then
          let '(f', rb', c', e') := Bufio.Read f2 rb2 (len fbuf0) in
          (f', rb', copy fbuf0 c', e')
        else (f2, rb2, fbuf0, err2) in
      let app3 := set_flagbuf (set_io app2 f3 rb3 (wr app)) fbuf in
      if (rc =? sz) && unexpected err3 then
        (app3, mkEntry (off e) sz bs (incomplete e), 0, Some ErrUnexpectedReadError)
      else
        let e3 := mkEntry (off e) sz bs
                          (negb (Byte.eqb (byte0 fbuf) fCompleteEntry)) in
        let missingBytes :=
          (len hbuf - n) + (sz - rc)
          + (if Byte.eqb (byte0 fbuf) x00 then 1 else 0) in
        (app3, e3, missingBytes, err3).

(** ** Appending *)

Inductive result (A : Type) : Type :=
| Ok (a : A)
| Err (e : error).
Arguments Ok {A} a.
Arguments Err {A} e.

Definition set_wr (app : Appender) (f : OS.File) (w : Bufio.Writer) : Appender :=
  set_io app f (rd app) w.

(** The body of [for i, bs := range bss] in [AppendBulk], with [offs] the
    offsets assigned so far. *)
Fixpoint AppendBulk_loop (app : Appender) (bss : list (list byte))
                         (offs : list Z) (writtenBytes : Z)
  : Appender * result (list Z * Z) :=
  match bss with
  | [] => (app, Ok (offs, writtenBytes))
  | bs :: rest =>
      if len bs =? 0 then (app, Err ErrInvalidArguments)
      else if maxEntrySize app <? len bs then (app, Err ErrEntryExceedsMaxSize)
      else
        let hbuf := writeInt (bufRWEntrySize (shm app)) (len bs) in
        let app0 := set_sizebuf app hbuf in
        let '(f1, w1, n1, e1) := Bufio.Write (file app0) (wr app0) hbuf in
        if negb (n1 =? len hbuf) || is_some e1 then
          (close (set_wr app0 f1 w1) e1, Err ErrUnexpectedWriteErr)
        else
          let '(f2, w2, n2, e2) := Bufio.Write f1 w1 bs in
          if negb (n2 =? len bs) || is_some e2 then
            (close (set_wr app0 f2 w2) e2, Err ErrUnexpectedWriteErr)
          else
            let '(f3, w3, e3) := Bufio.WriteByte f2 w2 fCompleteEntry in
            if is_some e3 then
              (close (set_wr app0 f3 w3) e3, Err ErrUnexpectedWriteErr)
            else
              AppendBulk_loop (set_wr app0 f3 w3) rest
                (offs ++ [wrap64 (asize app + writtenBytes)])
                (wrap64 (writtenBytes
                         + (len hbuf + len bs + len (bufRWEntryFlag (shm app)))))
  end.

Definition AppendBulk (app : Appender) (bss : list (list byte))
  : Appender * result (list Z) :=
  if closed app then (app, Err ErrAppenderClosed)
  else
    match bss with
    | [] => (app, Err ErrInvalidArguments)
    | _ =>
        match AppendBulk_loop app bss [] 0 with
        | (app1, Err e) => (app1, Err e)
        | (app1, Ok (offs, writtenBytes)) =>
            let '(f2, w2, e) := Bufio.Flush (file app1) (wr app1) in
            if is_some e then
              (close (set_wr app1 f2 w2) e, Err ErrUnexpectedWriteErr)
            else
              (set_asize (set_wr app1 f2 w2) (wrap64 (asize app1 + writtenBytes)),
               Ok offs)
        end
    end.

Definition Append (app : Appender) (bs : list byte) : Appender * result Z :=
  match AppendBulk app [bs] with
  | (app1, Err e) => (app1, Err e)
  | (app1, Ok offs) => (app1, Ok (hd 0 offs))
  end.

(** ** Random read *)

Definition Read (app : Appender) (o : Z)
  : Appender * option Entry * option error :=
  if closed app then (app, None, Some ErrAppenderClosed)
  else if (o <? 0) || (asize app <? o) then (app, None, Some ErrInvalidArguments)
  else
    let '(app1, serr) := seek app o in
    if is_some serr then (app1, None, Some ErrUnexpectedReadError)
    else
      let '(app2, e, _, err) := Entry_read (mkEntry o 0 [] false) app1 in
      (app2, Some e, err).

(** ** The fold engine *)

(** The interface [FoldHandler]: the state of a handler is a value of [H],
    which [Fold] replaces. *)
Class FoldHandler (H : Type) : Type := {
  val : Type;
  Fold : H -> Entry -> H * bool * option error;
  Value : H -> option val;
  Values : H -> list val
}.

(** What a traversal did, in order: the decode steps, with the entry, the
    missing bytes and the error they returned, and the calls of [Fold], with
    the entry they were given and what they answered. *)
Inductive Event : Type :=
| EvRead (e : Entry) (mb : Z) (err : option error)
| EvFold (e : Entry) (cutoff : bool) (herr : option error).

Definition FoldOut (H : Type) : Type :=
  (Appender * H * option error * list Event)%type.

Definition emit {H : Type} (evs : list Event) (r : option (FoldOut H))
  : option (FoldOut H) :=
  match r with
  | Some (a, h, e, tr) => Some (a, h, e, evs ++ tr)
  | None => None
  end.

(** How a turn of the loop ends: with a [return], or at the bottom of the
    loop with the next offset. *)
Inductive LoopCtl : Type :=
| Return (err : option error)
| Continue (o : Z).

(** One turn of the loop [for { ... }] of [FoldWithHandler], at offset [o].
    The [err] of [n, err := app.w.Write(bs)] is a new variable of the
    [if mb > 0] block: the [err] tested after the block is the one [read]
    returned. *)
Definition FoldBody {H : Type} `{FoldHandler H} (app : Appender) (h : H) (o : Z)
  : Appender * H * list Event * LoopCtl :=
  let '(app1, e, mb, err) :=
    Entry_read (mkEntry o (size (sharedEntry (shm app)))
                        (bytes (sharedEntry (shm app)))
                        (incomplete (sharedEntry (shm app)))) app in
  let app1 := set_sharedEntry app1 e in
  let rest (app2 : Appender) : Appender * H * list Event * LoopCtl :=
    if is_EOF err then (app2, h, [EvRead e mb err], Return None)
    else
      let '(h', cutoff, herr) := Fold h e in
      let evs := [EvRead e mb err; EvFold e cutoff herr] in
      match herr with
      | Some x => (app2, h', evs, Return (Some x))
      | None =>
          if cutoff then (app2, h', evs, Return err)
          else
            (app2, h', evs,
             Continue (wrap64 (o + (len (bufRWEntrySize (shm app2)) + size e
                                   + len (bufRWEntryFlag (shm app2))))))
      end in
  if 0 <? mb then
    let bs := zeros (mb - 1) ++ [fIncompleteEntry] in
    let '(f2, w2, n, werr) := Bufio.Write (file app1) (wr app1) bs in
    if negb (n =? mb) || is_some werr then
      (close (set_wr app1 f2 w2) werr, h, [EvRead e mb err],
       Return (Some ErrCompletingLastEntry))
    else
      let '(f3, w3, ferr) := Bufio.Flush f2 w2 in
      if is_some ferr then
        (close (set_wr app1 f3 w3) ferr, h, [EvRead e mb err],
         Return (Some ErrCompletingLastEntry))
      else rest (set_wr app1 f3 w3)
  else rest app1.

(** The loop; [None] when [fuel] turns do not reach a [return]. *)
Fixpoint FoldLoop {H : Type} `{FoldHandler H} (fuel : nat) (app : Appender)
                  (h : H) (o : Z) : option (FoldOut H) :=
  match fuel with
  | O => None
  | S fuel' =>
      let '(app1, h1, evs, ctl) := FoldBody app h o in
      match ctl with
      | Return err => Some (app1, h1, err, evs)
      | Continue o' => emit evs (FoldLoop fuel' app1 h1 o')
      end
  end.

(** A turn that goes on to the next has taken at least one byte of what was
    left to read at the seek, so these turns are enough
    ([FoldWithHandler_returns]). *)
Definition fold_fuel (app : Appender) : nat := S (length (OS.data (file app))).

Definition FoldWithHandler {H : Type} `{FoldHandler H} (app : Appender) (h : H)
  : option (FoldOut H) :=
  if closed app then Some (app, h, Some ErrAppenderClosed, [])
  else
    let '(app1, serr) := seek app 0 in
    match serr with
    | Some x => Some (app1, h, Some x, [])
    | None => FoldLoop (fold_fuel app1) app1 h 0
    end.

(** ** Handlers

    A Go closure is a function together with the variables it captured: the
    callbacks take and return the value [S] of those variables. *)

Definition FoldFn (S V : Type) : Type := S -> Entry -> V -> S * V * bool * option error.
Definition ForEachFn (S : Type) : Type := S -> Entry -> S * bool * option error.
Definition MapFn (S V : Type) : Type := S -> Entry -> S * V * bool * option error.
Definition FilterFn (S : Type) : Type := S -> Entry -> S * bool * bool * option error.

Record gFoldHandler (S V : Type) : Type := mkGFold {
  gf_f : FoldFn S V;
  gf_env : S;
  gf_v : V
}.

#[export] Instance gFoldHandler_FoldHandler (S V : Type)
  : FoldHandler (gFoldHandler S V) := {
  val := V;
  Fold h e :=
    let '(s, nv, cutoff, err) := gf_f h (gf_env h) e (gf_v h) in
    (mkGFold (gf_f h) s (if is_none err then nv else gf_v h), cutoff, err);
  Value h := Some (gf_v h);
  Values _ := []
}.

Record forEachHandler (S : Type) : Type := mkForEach {
  fe_f : ForEachFn S;
  fe_env : S
}.

#[export] Instance forEachHandler_FoldHandler (S : Type)
  : FoldHandler (forEachHandler S) := {
  val := unit;
  Fold h e :=
    let '(s, cutoff, err) := fe_f h (fe_env h) e in
    (mkForEach (fe_f h) s, cutoff, err);
  Value _ := None;
  Values _ := []
}.

Record mapHandler (S V : Type) : Type := mkMap {
  mh_f : MapFn S V;
  mh_env : S;
  mh_ls : list V
}.

#[export] Instance mapHandler_FoldHandler (S V : Type)
  : FoldHandler (mapHandler S V) := {
  val := V;
  Fold h e :=
    let '(s, l, cutoff, err) := mh_f h (mh_env h) e in
    (mkMap (mh_f h) s (if is_none err then mh_ls h ++ [l] else mh_ls h),
     cutoff, err);
  Value _ := None;
  Values h := mh_ls h
}.

Record filteredMapHandler (S V : Type) : Type := mkFilteredMap {
  fm_f : FilterFn S;
  fm_m : MapFn S V;
  fm_env : S;
  fm_ls : list V
}.

#[export] Instance filteredMapHandler_FoldHandler (S V : Type)
  : FoldHandler (filteredMapHandler S V) := {
  val := V;
  Fold h e :=
    let '(s, v, fcutoff, err) := fm_f h (fm_env h) e in
    if is_none err && v then
      let '(s', l, mcutoff, err') := fm_m h s e in
      (mkFilteredMap (fm_f h) (fm_m h) s'
         (if is_none err' then fm_ls h ++ [l] else fm_ls h),
       fcutoff || mcutoff, err')
    else (mkFilteredMap (fm_f h) (fm_m h) s (fm_ls h), fcutoff, err);
  Value _ := None;
  Values h := fm_ls h
}.

(** [sizeFoldHandler]: the handler reads the lengths of the two buffers of its
    appender at every call; nothing changes these lengths after
    [OpenWithConfig] made the buffers, and the handler keeps them. *)
Record sizeFoldHandler : Type := mkSizeFold {
  sf_sizeLen : Z;
  sf_flagLen : Z;
  sf_size : Z
}.

#[export] Instance sizeFoldHandler_FoldHandler : FoldHandler sizeFoldHandler := {
  val := Z;
  Fold h e :=
    (mkSizeFold (sf_sizeLen h) (sf_flagLen h)
       (wrap64 (sf_size h + (sf_sizeLen h + size e + sf_flagLen h))),
     false, None);
  Value h := Some (sf_size h);
  Values _ := []
}.

Definition ForEach {S : Type} (app : Appender) (f : ForEachFn S) (s : S)
  : option (Appender * option error) :=
  match FoldWithHandler app (mkForEach f s) with
  | Some (app', _, err, _) => Some (app', err)
  | None => None
  end.

Definition Map {S V : Type} (app : Appender) (f : MapFn S V) (s : S)
  : option (Appender * list V * option error) :=
  match FoldWithHandler app (mkMap f s []) with
  | Some (app', h, err, _) => Some (app', Values h, err)
  | None => None
  end.

Definition FilteredMap {S V : Type} (app : Appender) (f : FilterFn S)
                       (m : MapFn S V) (s : S)
  : option (Appender * list V * option error) :=
  match FoldWithHandler app (mkFilteredMap f m s []) with
  | Some (app', h, err, _) => Some (app', Values h, err)
  | None => None
  end.

Definition Fold_ {S V : Type} (app : Appender) (f : FoldFn S V) (s : S) (v : V)
  : option (Appender * option V * option error) :=
  match FoldWithHandler app (mkGFold f s v) with
  | Some (app', h, err, _) => Some (app', Value h, err)
  | None => None
  end.

(** ** Opening *)

Inductive OpenResult : Type :=
| OpenPanic
| OpenFailed (e : error)
| Opened (app : Appender) (err : option error).

(** The appender [OpenWithConfig] builds before it folds over the file.
    [contents] is what the file holds ([O_CREATE] makes a missing file an empty
    one) and [script] the fate of the write calls to come. *)
Definition newAppender (contents : list byte) (script : list (option Z))
                       (cfg : Config) (hw : Z) : Appender :=
  mkAppender
    (OS.mkFile contents 0 (negb (ReadOnly cfg)) script 0)
    []
    (Bufio.mkWriter [] None)
    (MaxEntrySize cfg)
    (BaseOffset cfg)
    0
    (mkSharedMem (mkEntry 0 0 (zeros (MaxEntrySize cfg)) false)
                 (zeros hw) (zeros 1))
    false
    None.

Definition OpenWithConfig (contents : list byte) (script : list (option Z))
                          (cfg : Config) : option OpenResult :=
  if (MaxEntrySize cfg <? 1) || (BaseOffset cfg <? 0) then
    Some (OpenFailed ErrInvalidArguments)
  else
    match entrySizeLen (MaxEntrySize cfg) with
    | None => Some OpenPanic
    | Some hw =>
        let app := newAppender contents script cfg hw in
        let handler :=
          mkSizeFold (len (bufRWEntrySize (shm app)))
                     (len (bufRWEntryFlag (shm app))) 0 in
        match FoldWithHandler app handler with
        | Some (app', h, err, _) => Some (Opened (set_asize app' (sf_size h)) err)
        | None => None
        end
    end.

Definition Open (contents : list byte) : option OpenResult :=
  OpenWithConfig contents []
    (mkConfig DefaultMaxEntrySize DefaultBaseOffset DefaultReadOnly).

(** ** A file system that fails

    Above, opening the file, moving its offset to a position that is not
    negative, and reading it always succeed.  Here the file system decides:
    [os.OpenFile] can fail, [f.Seek] refuses the positions past a maximum,
    and a read call of the file can fail, for a time or for ever.  The
    functions on the read path are those above with the outcome of the file
    system threaded through them; on a file system whose reads do not fail
    they are the same functions ([FS_FoldWithHandler_sound]).  A traversal may
    then never return: [FoldLoop] and [FoldWithHandler] tell what it has
    done after a number of turns of its loop. *)

Module FS.

Record Env : Type := mkEnv {
  openErr : option error;  (* the error of [os.OpenFile], if any *)
  seekMax : Z;             (* the largest position [f.Seek] accepts *)
  readErrs : list bool;    (* the coming read calls of the file: [true] fails *)
  readDead : bool          (* the read calls after those: [true] fails *)
}.

(** The file system the functions above assume. *)
Definition sound : Env := mkEnv None (2 ^ 63 - 1) [] false.

(** No read call of the file fails. *)
Definition quiet (v : Env) : Prop := readErrs v = [] /\ readDead v = false.

(** Reads that fail: the first two, and every one. *)
Definition failsTwice : Env := mkEnv None (2 ^ 63 - 1) [true; true] false.
Definition broken : Env := mkEnv None (2 ^ 63 - 1) [] true.

(** A file that is not there, and a file system that holds files up to
    16 TiB. *)
Definition missing : Env := mkEnv (Some ENOENT) (2 ^ 63 - 1) [] false.
Definition small : Env := mkEnv None (2 ^ 44) [] false.

(** [f.Read(b)] with [len(b) = n]: a failed call returns no byte and leaves
    the offset where it was. *)
Definition fRead (v : Env) (f : OS.File) (n : Z)
  : Env * OS.File * list byte * option error :=
  if n <=? 0 then (v, f, [], None)
  else
    let '(fails, v') :=
      match readErrs v with
      | b :: r => (b, mkEnv (openErr v) (seekMax v) r (readDead v))
      | [] => (readDead v, v)
      end in
    if fails then (v', f, [], Some EIO)
    else let '(f', c, e) := OS.Read f n in (v', f', c, e).

(** [b.Read(p)] of the [bufio.Reader]: a read of the file that returns no
    byte hands its error over and none stays pending. *)
Definition rRead (v : Env) (f : OS.File) (rb : list byte) (n : Z)
  : Env * OS.File * list byte * list byte * option error :=
  if n =? 0 then (v, f, rb, [], None)
  else
    match rb with
    | [] =>
        if Bufio.bufsz <=? n then
          let '(v', f', c, e) := fRead v f n in (v', f', [], c, e)
        else
          let '(v', f', c, e) := fRead v f Bufio.bufsz in
          match c with
          | [] => (v', f', [], [], e)
          | _ => (v', f', drop n c, take n c, None)
          end
    | _ => (v, f, drop n rb, take n rb, None)
    end.

Fixpoint read_payload (fuel : nat) (v : Env) (f : OS.File) (rb bs : list byte)
                      (sz rc : Z) (err : option error)
  : Env * OS.File * list byte * list byte * Z * option error * bool :=
  match fuel with
  | O => (v, f, rb, bs, rc, err, false)
  | S fuel' =>
      if (rc <? sz) && is_none err then
        let '(v', f', rb', c, err') := rRead v f rb (len (take sz bs)) in
        let bs' := copy (take sz bs) c ++ drop sz bs in
        if unexpected err' then (v', f', rb', bs', len c, err', true)
        else read_payload fuel' v' f' rb' bs' sz (len c) err'
      else (v, f, rb, bs, rc, err, false)
  end.

(** [e.read(app)]; the turns given to the payload loop are enough here
    too ([FS_read_payload_fuel]). *)
Definition Entry_read (v : Env) (e : Entry) (app : Appender)
  : Env * Appender * Entry * Z * option error :=
  let hbuf0 := zeros (len (bufRWEntrySize (shm app))) in
  let '(v1, f1, rb1, c, err) := rRead v (file app) (rd app) (len hbuf0) in
  let hbuf := copy hbuf0 c in
  let n := len c in
  let app1 := set_sizebuf (set_io app f1 rb1 (wr app)) hbuf in
  if unexpected err then (v1, app1, e, 0, Some ErrUnexpectedReadError)
  else if n =? 0 then
    (v1, app1, mkEntry (off e) 0 (bytes e) (incomplete e), 0, err)
  else
    let sz := readInt hbuf in
    let bs0 := if len (bytes e) <? sz then zeros sz else bytes e in
    let '(v2, f2, rb2, bs, rc, err2, bad) :=
      if n =? len hbuf
      then read_payload (payload_fuel f1 rb1) v1 f1 rb1 bs0 sz 0 err
      else (v1, f1, rb1, bs0, 0, err, false) in
    let app2 := set_io app1 f2 rb2 (wr app) in
    if bad then
      (v2, app2, mkEntry (off e) sz bs (incomplete e), 0,
       Some ErrUnexpectedReadError)
    else
      let fbuf0 := clear0 (bufRWEntryFlag (shm app)) in
      let '(v3, f3, rb3, fbuf, err3) :=
        if rc =? sz then
          let '(v', f', rb', c', e') := rRead v2 f2 rb2 (len fbuf0) in
          (v', f', rb', copy fbuf0 c', e')
        else (v2, f2, rb2, fbuf0, err2) in
      let app3 := set_flagbuf (set_io app2 f3 rb3 (wr app)) fbuf in
      if (rc =? sz) && unexpected err3 then
        (v3, app3, mkEntry (off e) sz bs (incomplete e), 0,
         Some ErrUnexpectedReadError)
      else
        let e3 := mkEntry (off e) sz bs
                          (negb (Byte.eqb (byte0 fbuf) fCompleteEntry)) in
        let missingBytes :=
          (len hbuf - n) + (sz - rc)
          + (if Byte.eqb (byte0 fbuf) x00 then 1 else 0) in
        (v3, app3, e3, missingBytes, err3).

(** [app.seek(off)] *)
Definition seek (v : Env) (app : Appender) (o : Z) : Appender * option error :=
  let p := wrap64 (baseOffset app + o) in
  if (p <? 0) || (seekMax v <? p) then (app, Some ErrUnexpectedReadError)
  else (set_io app (OS.Seek (file app) p) [] (wr app), None).

(** One turn of the loop of [FoldWithHandler]. *)
Definition FoldBody {H : Type} `{FoldHandler H} (v : Env) (app : Appender)
                    (h : H) (o : Z)
  : Env * Appender * H * list Event * LoopCtl :=
  let '(v1, app1, e, mb, err) :=
    Entry_read v (mkEntry o (size (sharedEntry (shm app)))
                          (bytes (sharedEntry (shm app)))
                          (incomplete (sharedEntry (shm app)))) app in
  let app1 := set_sharedEntry app1 e in
  let rest (app2 : Appender) : Env * Appender * H * list Event * LoopCtl :=
    if is_EOF err then (v1, app2, h, [EvRead e mb err], Return None)
    else
      let '(h', cutoff, herr) := Fold h e in
      let evs := [EvRead e mb err; EvFold e cutoff herr] in
      match herr with
      | Some x => (v1, app2, h', evs, Return (Some x))
      | None =>
          if cutoff then (v1, app2, h', evs, Return err)
          else
            (v1, app2, h', evs,
             Continue (wrap64 (o + (len (bufRWEntrySize (shm app2)) + size e
                                   + len (bufRWEntryFlag (shm app2))))))
      end in
  if 0 <? mb then
    let bs := zeros (mb - 1) ++ [fIncompleteEntry] in
    let '(f2, w2, n, werr) := Bufio.Write (file app1) (wr app1) bs in
    if negb (n =? mb) || is_some werr then
      (v1, close (set_wr app1 f2 w2) werr, h, [EvRead e mb err],
       Return (Some ErrCompletingLastEntry))
    else
      let '(f3, w3, ferr) := Bufio.Flush f2 w2 in
      if is_some ferr then
        (v1, close (set_wr app1 f3 w3) ferr, h, [EvRead e mb err],
         Return (Some ErrCompletingLastEntry))
      else rest (set_wr app1 f3 w3)
  else rest app1.

(** The loop, for [fuel] turns: the last component is the error of the
    [return] the loop reached, and [None] when it is still turning. *)
Fixpoint FoldLoop {H : Type} `{FoldHandler H} (fuel : nat) (v : Env)
                  (app : Appender) (h : H) (o : Z)
  : Env * Appender * H * list Event * option (option error) :=
  match fuel with
  | O => (v, app, h, [], None)
  | S fuel' =>
      let '(v1, app1, h1, evs, ctl) := FoldBody v app h o in
      match ctl with
      | Return err => (v1, app1, h1, evs, Some err)
      | Continue o' =>
          let '(v2, app2, h2, tr, r) := FoldLoop fuel' v1 app1 h1 o' in
          (v2, app2, h2, evs ++ tr, r)
      end
  end.

Definition FoldWithHandler {H : Type} `{FoldHandler H} (fuel : nat) (v : Env)
                           (app : Appender) (h : H)
  : Env * Appender * H * list Event * option (option error) :=
  if closed app then (v, app, h, [], Some (Some ErrAppenderClosed))
  else
    let '(app1, serr) := seek v app 0 in
    match serr with
    | Some x => (v, app1, h, [], Some (Some x))
    | None => FoldLoop fuel v app1 h 0
    end.

(** [OpenWithConfig]: [None] when the traversal that sizes the log is still
    turning after [fuel] turns. *)
Definition OpenWithConfig (fuel : nat) (v : Env) (contents : list byte)
                          (script : list (option Z)) (cfg : Config)
  : option OpenResult :=
  if (MaxEntrySize cfg <? 1) || (BaseOffset cfg <? 0) then
    Some (OpenFailed ErrInvalidArguments)
  else
    match openErr v with
    | Some x => Some (OpenFailed x)
    | None =>
        match entrySizeLen (MaxEntrySize cfg) with
        | None => Some OpenPanic
        | Some hw =>
            let app := newAppender contents script cfg hw in
            let handler :=
              mkSizeFold (len (bufRWEntrySize (shm app)))
                         (len (bufRWEntryFlag (shm app))) 0 in
            match FoldWithHandler fuel v app handler with
            | (_, app', h, _, Some err) =>
                Some (Opened (set_asize app' (sf_size h)) err)
            | (_, _, _, _, None) => None
            end
        end
    end.

End FS.


(** ** Vocabulary of the statements *)

(** The buffers have the lengths [OpenWithConfig] gave them. *)
Definition WF (app : Appender) : Prop :=
  (len (bufRWEntrySize (shm app)) = 2 \/ len (bufRWEntrySize (shm app)) = 4)
  /\ len (bufRWEntryFlag (shm app)) = 1.

(** The bytes a reader will deliver, in order, if nothing is written
    meanwhile: what its buffer holds, then the file from its offset on. *)
Definition stream (f : OS.File) (rb : list byte) : list byte :=
  rb ++ drop (OS.pos f) (OS.data f).

(** Every [Read] of the reader returns all it is asked for, or all there is:
    the file has been read to its end, or the buffer is empty and one fill
    takes the rest of the file. *)
Definition snug (f : OS.File) (rb : list byte) : Prop :=
  drop (OS.pos f) (OS.data f) = []
  \/ (rb = [] /\ len (drop (OS.pos f) (OS.data f)) <= Bufio.bufsz).

(** A frame on disk: header, payload, flag. *)
Definition frame (hw : Z) (p : list byte) : list byte :=
  writeInt (zeros hw) (len p) ++ p ++ [fCompleteEntry].

Definition frames (hw : Z) (ps : list (list byte)) : list byte :=
  concat (map (frame hw) ps).

Definition frameLen (hw : Z) (p : list byte) : Z := hw + len p + 1.

Fixpoint totalLen (hw : Z) (ps : list (list byte)) : Z :=
  match ps with
  | [] => 0
  | p :: ps' => frameLen hw p + totalLen hw ps'
  end.

(** The offsets of the frames of [ps] laid out from offset [o]. *)
Fixpoint offsetsFrom (hw : Z) (o : Z) (ps : list (list byte)) : list Z :=
  match ps with
  | [] => []
  | p :: ps' => o :: offsetsFrom hw (o + frameLen hw p) ps'
  end.

Fixpoint increasing (l : list Z) : Prop :=
  match l with
  | [] => True
  | x :: l' =>
      match l' with
      | [] => True
      | y :: _ => x < y /\ increasing l'
      end
  end.

Definition folds (tr : list Event) : list (Entry * bool * option error) :=
  flat_map (fun ev => match ev with
                      | EvFold e c herr => [(e, c, herr)]
                      | EvRead _ _ _ => []
                      end) tr.

Definition reads (tr : list Event) : list (Entry * Z * option error) :=
  flat_map (fun ev => match ev with
                      | EvRead e mb err => [(e, mb, err)]
                      | EvFold _ _ _ => []
                      end) tr.

(** The entries a traversal hands to the handler for the complete frames
    [ps] that start at offset [o], when the shared entry's array is [buf]:
    each payload lands at the start of the array, which is replaced when too
    short. *)
Fixpoint delivered (hw : Z) (o : Z) (buf : list byte) (ps : list (list byte))
  : list Entry :=
  match ps with
  | [] => []
  | p :: ps' =>
      let buf0 := if len buf <? len p then zeros (len p) else buf in
      let buf' := p ++ drop (len p) buf0 in
      mkEntry o (len p) buf' false
      :: delivered hw (o + frameLen hw p) buf' ps'
  end.

(** The handler takes all of [es] and never stops the traversal. *)
Fixpoint feed {H : Type} `{FoldHandler H} (h : H) (es : list Entry) : H * bool :=
  match es with
  | [] => (h, true)
  | e :: es' =>
      match Fold h e with
      | (h', false, None) => feed h' es'
      | (h', _, _) => (h', false)
      end
  end.


(** A run of calls of [Append] and [AppendBulk] that all succeed, with the
    offsets they returned. *)
Inductive call : Type :=
| CallAppend (bs : list byte)
| CallAppendBulk (bss : list (list byte)).

Definition payloads (c : call) : list (list byte) :=
  match c with
  | CallAppend bs => [bs]
  | CallAppendBulk bss => bss
  end.

Fixpoint run (app : Appender) (cs : list call) : option (Appender * list Z) :=
  match cs with
  | [] => Some (app, [])
  | c :: cs' =>
      let '(app1, r) :=
        match c with
        | CallAppend bs =>
            match Append app bs with
            | (a, Ok o) => (a, Ok [o])
            | (a, Err e) => (a, Err e)
            end
        | CallAppendBulk bss => AppendBulk app bss
        end in
      match r with
      | Err _ => None
      | Ok offs =>
          match run app1 cs' with
          | Some (app2, offs') => Some (app2, offs ++ offs')
          | None => None
          end
      end
  end.

(** Two states of the file between which nothing was written. *)
Definition same_disk (f f' : OS.File) : Prop :=
  OS.data f' = OS.data f /\ OS.writable f' = OS.writable f
  /\ OS.faults f' = OS.faults f /\ OS.nfail f' = OS.nfail f.

(** What a decode step leaves alone in the appender. *)
Definition kept (app app' : Appender) : Prop :=
  wr app' = wr app
  /\ maxEntrySize app' = maxEntrySize app
  /\ baseOffset app' = baseOffset app
  /\ asize app' = asize app
  /\ closed app' = closed app
  /\ aerr app' = aerr app
  /\ sharedEntry (shm app') = sharedEntry (shm app)
  /\ len (bufRWEntrySize (shm app')) = len (bufRWEntrySize (shm app))
  /\ len (bufRWEntryFlag (shm app')) = len (bufRWEntryFlag (shm app)).

(** The file after some write calls: it only grows, and the part of it
    still to be read does not. *)
Definition grows (f f' : OS.File) : Prop :=
  (OS.nfail f <= OS.nfail f')%nat
  /\ OS.writable f' = OS.writable f
  /\ (0 <= OS.pos f -> 0 <= OS.pos f')
  /\ len (drop (OS.pos f') (OS.data f')) <= len (drop (OS.pos f) (OS.data f))
  /\ (exists s, OS.data f' = OS.data f ++ s).

(** What every operation of the writer guarantees, whatever it is given:
    its answer is the error the writer keeps, and a failed write call is
    answered with the error of the call. *)
Definition wstep (f f' : OS.File) (w' : Bufio.Writer) (e : option error) : Prop :=
  grows f f'
  /\ Bufio.werr w' = e
  /\ ((OS.nfail f < OS.nfail f')%nat -> e = Some EBADF \/ e = Some EIO).

(** The ways through one turn of the loop.  [repaired a1 mb a2]: the padding
    of [mb] missing bytes, when there are some, was written and flushed, and
    took the appender from [a1] to [a2]. *)
Definition padding (mb : Z) : list byte := zeros (mb - 1) ++ [fIncompleteEntry].

Definition repaired (a1 : Appender) (mb : Z) (a2 : Appender) : Prop :=
  (mb <= 0 /\ a2 = a1)
  \/ (0 < mb /\ exists f2 w2 f3 w3,
        Bufio.Write (file a1) (wr a1) (padding mb) = (f2, w2, mb, None)
        /\ Bufio.Flush f2 w2 = (f3, w3, None)
        /\ a2 = set_wr a1 f3 w3).

Definition sharedAt (app : Appender) (o : Z) : Entry :=
  mkEntry o (size (sharedEntry (shm app))) (bytes (sharedEntry (shm app)))
          (incomplete (sharedEntry (shm app))).

Definition afterFold (a2 : Appender) (o : Z) (e : Entry) (err : option error)
                     (cutoff : bool) (herr : option error) : LoopCtl :=
  match herr with
  | Some x => Return (Some x)
  | None =>
      if cutoff then Return err
      else Continue (wrap64 (o + (len (bufRWEntrySize (shm a2)) + size e
                                  + len (bufRWEntryFlag (shm a2)))))
  end.

Inductive BodyOut {H : Type} `{FoldHandler H} (app : Appender) (h : H) (o : Z)
  : Appender -> H -> list Event -> LoopCtl -> Prop :=
| BO_write_failed a e mb err f2 w2 n werr :
    Entry_read (sharedAt app o) app = (a, e, mb, err) ->
    0 < mb ->
    Bufio.Write (file a) (wr a) (padding mb) = (f2, w2, n, werr) ->
    n <> mb \/ werr <> None ->
    BodyOut app h o (close (set_wr (set_sharedEntry a e) f2 w2) werr) h
            [EvRead e mb err] (Return (Some ErrCompletingLastEntry))
| BO_flush_failed a e mb err f2 w2 f3 w3 ferr :
    Entry_read (sharedAt app o) app = (a, e, mb, err) ->
    0 < mb ->
    Bufio.Write (file a) (wr a) (padding mb) = (f2, w2, mb, None) ->
    Bufio.Flush f2 w2 = (f3, w3, ferr) ->
    ferr <> None ->
    BodyOut app h o (close (set_wr (set_sharedEntry a e) f3 w3) ferr) h
            [EvRead e mb err] (Return (Some ErrCompletingLastEntry))
| BO_end a e mb err a2 :
    Entry_read (sharedAt app o) app = (a, e, mb, err) ->
    repaired (set_sharedEntry a e) mb a2 ->
    is_EOF err = true ->
    BodyOut app h o a2 h [EvRead e mb err] (Return None)
| BO_fold a e mb err a2 h' cutoff herr :
    Entry_read (sharedAt app o) app = (a, e, mb, err) ->
    repaired (set_sharedEntry a e) mb a2 ->
    is_EOF err = false ->
    Fold h e = (h', cutoff, herr) ->
    BodyOut app h o a2 h' [EvRead e mb err; EvFold e cutoff herr]
            (afterFold a2 o e err cutoff herr).






(** ** The log as a list of payloads *)

(** The log [app] stores the payloads [ps]: it is open, nothing waits in its
    writer, its file holds, from the base offset on, the frames of [ps] and
    nothing more, and the size of the log is their total length.  The header
    is wide enough for every size [AppendBulk] takes and for the sizes of
    [ps], and the file is no longer than an [int64] can tell. *)
Definition stores (app : Appender) (ps : list (list byte)) : Prop :=
  let hw := len (bufRWEntrySize (shm app)) in
  closed app = false /\ WF app
  /\ wr app = Bufio.mkWriter [] None
  /\ maxEntrySize app < 256 ^ hw
  /\ 0 <= baseOffset app <= len (OS.data (file app))
  /\ len (OS.data (file app)) < 2 ^ 63
  /\ drop (baseOffset app) (OS.data (file app)) = frames hw ps
  /\ Forall (fun p => len p < 256 ^ hw) ps
  /\ asize app = totalLen hw ps.

(** A payload that passes the two checks of [AppendBulk]. *)
Definition accepted (app : Appender) (bs : list byte) : Prop :=
  0 < len bs <= maxEntrySize app.

(** ** A traversal as a fold over entries *)

(** What the loop of [FoldWithHandler] does with a handler when the entries
    it decodes are [es]: it calls [Fold] on each in turn and stops at the
    first call that returns an error, which it returns, or asks for the
    cutoff. *)
Fixpoint drive {H : Type} `{FoldHandler H} (h : H) (es : list Entry)
  : H * option error :=
  match es with
  | [] => (h, None)
  | e :: es' =>
      match Fold h e with
      | (h', _, Some x) => (h', Some x)
      | (h', true, None) => (h', None)
      | (h', false, None) => drive h' es'
      end
  end.

(** The calls of [Fold] made on the way, with their answers. *)
Fixpoint calls {H : Type} `{FoldHandler H} (h : H) (es : list Entry)
  : list (Entry * bool * option error) :=
  match es with
  | [] => []
  | e :: es' =>
      let '(h', cutoff, herr) := Fold h e in
      (e, cutoff, herr)
      :: (if is_none herr && negb cutoff then calls h' es' else [])
  end.

(** ** The operators, on a list of entries *)

(** What [Map] gives when the entries decoded are [es]: the values of the
    callback, in order, up to and with the one that asks for the cutoff, and
    up to and without the one that comes with an error, which is returned. *)
Fixpoint mapped {S V : Type} (f : MapFn S V) (s : S) (es : list Entry)
  : list V * option error :=
  match es with
  | [] => ([], None)
  | e :: es' =>
      let '(s', l, cutoff, err) := f s e in
      match err with
      | Some x => ([], Some x)
      | None =>
          if cutoff then ([l], None)
          else let '(ls, r) := mapped f s' es' in (l :: ls, r)
      end
  end.

(** [FilteredMap]: the map callback is called on the entries the filter
    includes; each of the two can ask for the cutoff or fail. *)
Fixpoint filteredMapped {S V : Type} (f : FilterFn S) (m : MapFn S V) (s : S)
                        (es : list Entry) : list V * option error :=
  match es with
  | [] => ([], None)
  | e :: es' =>
      let '(s1, v, fcutoff, err) := f s e in
      match err with
      | Some x => ([], Some x)
      | None =>
          if v then
            let '(s2, l, mcutoff, err') := m s1 e in
            match err' with
            | Some x => ([], Some x)
            | None =>
                if fcutoff || mcutoff then ([l], None)
                else let '(ls, r) := filteredMapped f m s2 es' in (l :: ls, r)
            end
          else if fcutoff then ([], None)
          else filteredMapped f m s1 es'
      end
  end.

(** [Fold]: the value is replaced by the one the callback returns, except
    when it comes with an error. *)
Fixpoint folded {S V : Type} (f : FoldFn S V) (s : S) (v : V) (es : list Entry)
  : V * option error :=
  match es with
  | [] => (v, None)
  | e :: es' =>
      let '(s', nv, cutoff, err) := f s e v in
      match err with
      | Some x => (v, Some x)
      | None => if cutoff then (nv, None) else folded f s' nv es'
      end
  end.

(** [ForEach]: the error of the first call that returns one. *)
Fixpoint visited {S : Type} (f : ForEachFn S) (s : S) (es : list Entry)
  : option error :=
  match es with
  | [] => None
  | e :: es' =>
      let '(s', cutoff, err) := f s e in
      match err with
      | Some x => Some x
      | None => if cutoff then None else visited f s' es'
      end
  end.

(** The callback that copies the payload of each entry. *)
Definition copyBytes : MapFn unit (list byte) :=
  fun s e => (s, Bytes e, false, None).

(** [e.Bytes()] is the slice [e.bytes[:e.size]] of the array of the shared
    entry, which every decode step writes again.  A callback that keeps the
    slice keeps a view of that array: [keepBytes] returns what tells the
    slice, its length, and [shown] is what the slice shows when the array
    holds [arr].  [copyBytes] above is the callback that copies the bytes
    out of the array before it returns them.  [overlay arr ps] is the array
    after the payloads [ps] were decoded into it, one after the other. *)
Definition keepBytes : MapFn unit Z :=
  fun s e => (s, Size e, false, None).

Definition shown (arr : list byte) (n : Z) : list byte := take n arr.

Definition overlay (arr : list byte) (ps : list (list byte)) : list byte :=
  fold_left (fun a p => p ++ drop (len p) a) ps arr.


(** ** Logs used as examples *)

Definition opened (r : option OpenResult) : Appender :=
  match r with
  | Some (Opened app _) => app
  | _ => newAppender [] [] (mkConfig 1 0 false) 2
  end.

Definition smallCfg : Config := mkConfig 255 0 false.

(** A log opened read-only on an empty file. *)
Definition readOnlyLog : Appender := opened (OpenWithConfig [] [] (mkConfig 255 0 true)).

(** A log holding the payloads [[7]], [[8; 9]] and [[10]]. *)
Definition threeFrames : list byte :=
  frames 2 [[x07]; [x08; x09]; [x0a]].

Definition threeLog : Appender := opened (OpenWithConfig threeFrames [] smallCfg).

(** A callback that counts the entries it is given and stops at the second. *)
Definition stopAtSecond : ForEachFn nat :=
  fun n _ => (S n, Nat.eqb (S n) 2, None).

Definition astream (app : Appender) : list byte := stream (file app) (rd app).
Definition asnug (app : Appender) : Prop := snug (file app) (rd app).

(** A callback that takes every entry and goes on. *)
Definition visit : ForEachFn unit := fun s _ => (s, false, None).

(** One complete frame, then a frame whose header announces two bytes of
    payload and of which one came. *)
Definition tornPayload : list byte := frames 2 [[x55]] ++ [x02; x00; xaa].


(** A run of calls on an empty log: two appends around a bulk append. *)
Definition someCalls : list call :=
  [CallAppend [x01]; CallAppendBulk [[x02; x03]; [x04]]; CallAppend [x05; x06; x07]].

(** The log opened on an empty file. *)
Definition emptyLog : Appender := opened (OpenWithConfig [] [] smallCfg).

Definition afterSomeCalls : Appender * list Z :=
  match run emptyLog someCalls with
  | Some r => r
  | None => (emptyLog, [])
  end.


(** The log opened on [tornPayload], and a traversal of it. *)
Definition repairedOnce : Appender := opened (OpenWithConfig tornPayload [] smallCfg).

Definition secondPass : option (FoldOut (forEachHandler unit)) :=
  FoldWithHandler repairedOnce (mkForEach visit tt).

Definition traceOf {H : Type} (r : option (FoldOut H)) : list Event :=
  match r with
  | Some (_, _, _, tr) => tr
  | None => []
  end.

Definition logOf {H : Type} (r : option (FoldOut H)) (d : Appender) : Appender :=
  match r with
  | Some (a, _, _, _) => a
  | None => d
  end.

(** The log opened on a file that holds a header announcing one byte of
    payload and nothing more, then an append to it and a read of the offset
    the append returned. *)
Definition afterRepair : Appender := opened (OpenWithConfig [x01; x00] [] smallCfg).
Definition appended : Appender * result Z := Append afterRepair [x09].
Definition readBack : Appender * option Entry * option error :=
  Read (fst appended) 0.

(** A batch whose second payload is empty, on the empty log, then an append
    and a read of the offset it returned. *)
Definition rejected : Appender * result (list Z) := AppendBulk emptyLog [[x01]; []].
Definition appendedNext : Appender * result Z := Append (fst rejected) [x07].
Definition readNext : Appender * option Entry * option error :=
  Read (fst appendedNext) 0.

(** 820 complete frames of five bytes each: 4100 bytes, four more than one
    fill of the reader's buffer. *)
Definition manyFrames : list byte := frames 2 (repeat [x11; x22] 820).
Definition manyLog : Appender := opened (OpenWithConfig manyFrames [] smallCfg).

(** A payload of 5000 bytes, appended to an empty log that takes payloads of
    up to 8191 bytes, and read back. *)
Definition longPayload : list byte := repeat x07 5000.
Definition longAppended : Appender * result Z :=
  Append (opened (OpenWithConfig [] [] (mkConfig 8191 0 false))) longPayload.
Definition longReadBack : Appender * option Entry * option error :=
  Read (fst longAppended) 0.

(** The log of [afterSomeCalls] and what it stores. *)
Definition someLog : Appender := fst afterSomeCalls.
Definition somePayloads : list (list byte) := concat (map payloads someCalls).

(** A batch whose third payload is longer than [smallCfg] allows. *)
Definition tooLong : list byte := repeat x01 256.

(** A configuration that skips a prefix of four bytes. *)
Definition prefixCfg : Config := mkConfig 255 4 false.

(** The configuration of [smallCfg], read-only. *)
Definition readOnlyCfg : Config := mkConfig 255 0 true.

(** A reducer that fails on the second entry it is given. *)
Definition failAtSecond : ForEachFn nat :=
  fun n _ => (S n, false, if Nat.eqb (S n) 2 then Some (ErrUser 7) else None).

(** Callbacks for the examples: the payload with its offset, up to the
    entry at offset 9; the entries of one byte; the sum of the sizes, which
    fails at offset 13. *)
Definition upTo9 : MapFn unit (Z * list byte) :=
  fun s e => (s, (Offset e, Bytes e), Offset e =? 9, None).
Definition oneByte : FilterFn unit :=
  fun s e => (s, Size e =? 1, false, None).
Definition sumSizes : FoldFn unit Z :=
  fun s e v => (s, v + Size e, false,
                if Offset e =? 13 then Some (ErrUser 1) else None).




(** * Properties *)

Unset Implicit Arguments.

Ltac splits := repeat match goal with |- _ /\ _ => split end.

(** ** Slices *)

Lemma len_nonneg {A : Type} (l : list A) : 0 <= len l.
Proof. unfold len. lia. Qed.

Lemma len_app {A : Type} (a b : list A) : len (a ++ b) = len a + len b.
Proof. unfold len. rewrite length_app. lia. Qed.

Lemma len_nil_iff {A : Type} (l : list A) : len l = 0 <-> l = [].
Proof.
  unfold len. split; intro E.
  - destruct l; [reflexivity | simpl in E; lia].
  - now subst.
Qed.

Lemma len_cons {A : Type} (x : A) (l : list A) : len (x :: l) = 1 + len l.
Proof. unfold len. simpl length. lia. Qed.

Lemma take_drop {A : Type} (n : Z) (l : list A) : take n l ++ drop n l = l.
Proof. apply firstn_skipn. Qed.

Lemma len_take {A : Type} (n : Z) (l : list A) :
  0 <= n -> len (take n l) = Z.min n (len l).
Proof. intro Hn. unfold len, take. rewrite length_firstn. lia. Qed.

Lemma len_drop {A : Type} (n : Z) (l : list A) :
  0 <= n -> len (drop n l) = Z.max 0 (len l - n).
Proof. intro Hn. unfold len, drop. rewrite length_skipn. lia. Qed.

Lemma take_all {A : Type} (n : Z) (l : list A) : len l <= n -> take n l = l.
Proof. intro Hn. apply firstn_all2. unfold len in Hn. lia. Qed.

Lemma drop_all {A : Type} (n : Z) (l : list A) : len l <= n -> drop n l = [].
Proof. intro Hn. apply skipn_all2. unfold len in Hn. lia. Qed.

Lemma take_app_len {A : Type} (a b : list A) : take (len a) (a ++ b) = a.
Proof.
  unfold take, len. rewrite Nat2Z.id, firstn_app, Nat.sub_diag.
  simpl. rewrite firstn_all, app_nil_r. reflexivity.
Qed.

Lemma drop_app_len {A : Type} (a b : list A) : drop (len a) (a ++ b) = b.
Proof.
  unfold drop, len. rewrite Nat2Z.id, skipn_app, Nat.sub_diag, skipn_all.
  reflexivity.
Qed.

Lemma drop_drop {A : Type} (a b : Z) (l : list A) :
  0 <= a -> 0 <= b -> drop b (drop a l) = drop (a + b) l.
Proof.
  intros Ha Hb. unfold drop. rewrite skipn_skipn. f_equal. lia.
Qed.

Lemma len_zeros (n : Z) : 0 <= n -> len (zeros n) = n.
Proof. intro Hn. unfold len, zeros. rewrite repeat_length. lia. Qed.

Lemma drop_zeros (k n : Z) : 0 <= k <= n -> drop k (zeros n) = zeros (n - k).
Proof.
  intro Hk. unfold drop, zeros.
  replace (Z.to_nat n) with (Z.to_nat k + Z.to_nat (n - k))%nat by lia.
  rewrite repeat_app, skipn_app, repeat_length, Nat.sub_diag.
  rewrite skipn_all2 by (rewrite repeat_length; lia). reflexivity.
Qed.

Lemma len_copy (dst src : list byte) : len (copy dst src) = len dst.
Proof.
  unfold copy. rewrite len_app, len_take, len_drop by apply len_nonneg.
  pose proof (len_nonneg dst). pose proof (len_nonneg src). lia.
Qed.

Lemma copy_nil (dst : list byte) : copy dst [] = dst.
Proof. unfold copy, take, drop. now rewrite firstn_nil. Qed.

Lemma copy_fill (dst src : list byte) : len src = len dst -> copy dst src = src.
Proof.
  intro E. unfold copy. rewrite take_all, drop_all by lia. apply app_nil_r.
Qed.

Lemma wrap64_small (z : Z) : - 2 ^ 63 <= z < 2 ^ 63 -> wrap64 z = z.
Proof.
  intro Hz. unfold wrap64.
  change (2 ^ 64) with 18446744073709551616.
  change (2 ^ 63) with 9223372036854775808 in *.
  rewrite Z.mod_small; lia.
Qed.

Lemma drop_len_take {A : Type} (n : Z) (l : list A) :
  0 <= n -> drop (len (take n l)) l = drop n l.
Proof.
  intro Hn. rewrite len_take by assumption.
  destruct (Z.le_ge_cases n (len l)) as [Hle | Hge].
  - now rewrite Z.min_l.
  - rewrite Z.min_r by lia. now rewrite !drop_all by lia.
Qed.

Lemma take_pos_nonnil {A : Type} (n : Z) (l : list A) :
  0 < n -> l <> [] -> take n l <> [].
Proof.
  intros Hn Hl. unfold take. destruct l as [| x l]; [congruence |].
  destruct (Z.to_nat n) eqn:E; [lia | simpl; congruence].
Qed.

(** ** Reading: the file and the buffered reader *)

Lemma same_disk_refl (f : OS.File) : same_disk f f.
Proof. now repeat split. Qed.

Lemma same_disk_trans (f g h : OS.File) :
  same_disk f g -> same_disk g h -> same_disk f h.
Proof. unfold same_disk. intuition congruence. Qed.

Lemma OS_Read_spec (f f' : OS.File) (n : Z) (c : list byte) (e : option error) :
  0 <= OS.pos f -> 0 < n -> OS.Read f n = (f', c, e) ->
  c = take n (drop (OS.pos f) (OS.data f))
  /\ same_disk f f'
  /\ OS.pos f' = OS.pos f + len c
  /\ (c = [] -> e = Some EOF)
  /\ (c <> [] -> e = None).
Proof.
  intros Hp Hn R. unfold OS.Read in R.
  destruct (n <=? 0) eqn:E; [lia |].
  destruct (take n (drop (OS.pos f) (OS.data f))) as [| x t] eqn:T;
    inversion R; subst; clear R.
  - repeat split; try reflexivity; try congruence. simpl. unfold len. simpl. lia.
  - repeat split; try reflexivity; try congruence.
Qed.

Lemma split_take {A : Type} (n : Z) (l c : list A) :
  0 <= n -> c = take n l -> l = c ++ drop (len c) l.
Proof.
  intros Hn ->. rewrite drop_len_take by assumption. symmetry. apply take_drop.
Qed.

Lemma take_nil_inv {A : Type} (n : Z) (l : list A) :
  0 < n -> take n l = [] -> l = [].
Proof.
  intros Hn E. destruct l as [| x l]; [reflexivity |].
  exfalso. revert E. apply take_pos_nonnil; [lia | congruence].
Qed.

Lemma OS_Read_stream (f f' : OS.File) (n : Z) (c : list byte) (e : option error) :
  0 <= OS.pos f -> 0 < n -> OS.Read f n = (f', c, e) ->
  drop (OS.pos f) (OS.data f) = c ++ drop (OS.pos f') (OS.data f')
  /\ 0 <= OS.pos f'
  /\ (c = [] -> drop (OS.pos f) (OS.data f) = []).
Proof.
  intros Hp Hn R.
  destruct (OS_Read_spec _ _ _ _ _ Hp Hn R) as (Hc & (Hd & _) & Hpos & _).
  pose proof (len_nonneg c) as Hl.
  rewrite Hd, Hpos, <- drop_drop by lia.
  splits.
  - apply split_take with (n := n); [lia | assumption].
  - lia.
  - intros ->. symmetry in Hc. now apply take_nil_inv in Hc.
Qed.

Lemma Bufio_Read_spec (f f' : OS.File) (rb rb' c : list byte) (n : Z)
                      (e : option error) :
  0 <= OS.pos f -> 0 < n -> Bufio.Read f rb n = (f', rb', c, e) ->
  stream f rb = c ++ stream f' rb'
  /\ same_disk f f'
  /\ 0 <= OS.pos f'
  /\ len c <= n
  /\ (c = [] -> e = Some EOF /\ stream f rb = [])
  /\ (c <> [] -> e = None).
Proof.
  intros Hp Hn R. unfold Bufio.Read in R.
  destruct (n =? 0) eqn:E0; [lia |].
  destruct rb as [| b rb0].
  - destruct (Bufio.bufsz <=? n) eqn:Eb.
    + destruct (OS.Read f n) as [[f1 c1] e1] eqn:OR. inversion R; subst; clear R.
      destruct (OS_Read_spec _ _ _ _ _ Hp Hn OR) as (Hc & Hd & _ & Hnil & Hcons).
      destruct (OS_Read_stream _ _ _ _ _ Hp Hn OR) as (Hs & Hp' & Hs0).
      unfold stream. simpl.
      splits; auto.
      rewrite Hc, len_take by lia. lia.
    + assert (Hb : 0 < Bufio.bufsz) by (unfold Bufio.bufsz; lia).
      destruct (OS.Read f Bufio.bufsz) as [[f1 c1] e1] eqn:OR.
      destruct (OS_Read_spec _ _ _ _ _ Hp Hb OR) as (Hc & Hd & _ & Hnil & Hcons).
      destruct (OS_Read_stream _ _ _ _ _ Hp Hb OR) as (Hs & Hp' & Hs0).
      unfold stream. simpl app at 1. rewrite Hs.
      destruct c1 as [| y l]; inversion R; subst; clear R.
      * simpl. splits; auto.
        -- unfold len. simpl. lia.
        -- intros _. split; [auto |]. simpl in Hs. now rewrite <- Hs, Hs0.
      * rewrite app_assoc, take_drop.
        splits; auto;
          try (rewrite len_take by lia; lia);
          intro E; exfalso; revert E; apply take_pos_nonnil; [lia | congruence].
  - inversion R; subst; clear R. unfold stream.
    rewrite app_assoc, take_drop.
    splits; try reflexivity; try assumption; auto using same_disk_refl;
      try (rewrite len_take by lia; lia);
      intro E; exfalso; revert E; apply take_pos_nonnil; [lia | congruence].
Qed.

(** Under [snug] the reader is a plain stream. *)
Lemma Bufio_Read_snug (f f' : OS.File) (rb rb' c : list byte) (n : Z)
                      (e : option error) :
  0 <= OS.pos f -> 0 < n -> snug f rb -> Bufio.Read f rb n = (f', rb', c, e) ->
  c = take n (stream f rb) /\ stream f' rb' = drop n (stream f rb) /\ snug f' rb'.
Proof.
  intros Hp Hn Sn R. unfold Bufio.Read in R.
  destruct (n =? 0) eqn:E0; [lia |].
  destruct rb as [| b rb0].
  - assert (Hsm : len (drop (OS.pos f) (OS.data f)) <= Bufio.bufsz).
    { destruct Sn as [E | [_ E]]; [rewrite E; unfold len, Bufio.bufsz; simpl; lia | exact E]. }
    destruct (Bufio.bufsz <=? n) eqn:Eb.
    + destruct (OS.Read f n) as [[f1 c1] e1] eqn:OR. inversion R; subst; clear R.
      destruct (OS_Read_spec _ _ _ _ _ Hp Hn OR) as (Hc & Hd & _).
      destruct (OS_Read_stream _ _ _ _ _ Hp Hn OR) as (Hs & Hp' & Hs0).
      unfold stream. simpl.
      assert (Hall : c = drop (OS.pos f) (OS.data f)).
      { rewrite Hc. apply take_all. lia. }
      assert (Hnil : drop (OS.pos f') (OS.data f') = []).
      { rewrite <- Hall in Hs. rewrite <- (app_nil_r c) in Hs at 1.
        apply app_inv_head in Hs. now symmetry. }
      splits; auto.
      * rewrite Hnil. symmetry. apply drop_all. lia.
      * now left.
    + assert (Hb : 0 < Bufio.bufsz) by (unfold Bufio.bufsz; lia).
      destruct (OS.Read f Bufio.bufsz) as [[f1 c1] e1] eqn:OR.
      destruct (OS_Read_spec _ _ _ _ _ Hp Hb OR) as (Hc & Hd & _).
      destruct (OS_Read_stream _ _ _ _ _ Hp Hb OR) as (Hs & Hp' & Hs0).
      assert (Hall : c1 = drop (OS.pos f) (OS.data f)).
      { rewrite Hc. apply take_all. lia. }
      assert (Hnil : drop (OS.pos f1) (OS.data f1) = []).
      { rewrite <- Hall in Hs. rewrite <- (app_nil_r c1) in Hs at 1.
        apply app_inv_head in Hs. now symmetry. }
      unfold stream. simpl app. rewrite <- Hall.
      destruct c1 as [| y l]; inversion R; subst; clear R.
      * simpl. rewrite Hnil. splits.
        -- unfold take. now rewrite firstn_nil.
        -- unfold drop. now rewrite skipn_nil.
        -- now left.
      * rewrite Hnil, app_nil_r. splits; [reflexivity | reflexivity | now left].
  - inversion R; subst; clear R.
    assert (Hnil : drop (OS.pos f') (OS.data f') = []).
    { destruct Sn as [E | [E _]]; [exact E | discriminate]. }
    unfold stream. rewrite Hnil, !app_nil_r.
    splits; [reflexivity | reflexivity | now left].
Qed.

Lemma unexpected_EOF_or_nil (e : option error) :
  unexpected e = false -> e = None \/ e = Some EOF.
Proof.
  destruct e as [x |]; [| now left]. destruct x; simpl; try discriminate. now right.
Qed.

Lemma Bufio_Read_frame (f f' : OS.File) (rb rb' c : list byte) (n : Z)
                       (e : option error) :
  0 <= OS.pos f -> 0 <= n -> Bufio.Read f rb n = (f', rb', c, e) ->
  stream f rb = c ++ stream f' rb'
  /\ same_disk f f'
  /\ 0 <= OS.pos f'
  /\ unexpected e = false
  /\ len c <= n.
Proof.
  intros Hp Hn R.
  destruct (Z.eq_dec n 0) as [-> | Hn0].
  - unfold Bufio.Read in R. simpl in R. inversion R; subst.
    splits; auto using same_disk_refl; unfold len; simpl; lia.
  - assert (Hn' : 0 < n) by lia.
    destruct (Bufio_Read_spec _ _ _ _ _ _ _ Hp Hn' R) as (Hs & Hd & Hp' & Hl & Hnil & Hcons).
    splits; auto.
    destruct c as [| x l].
    + destruct Hnil as [-> _]; reflexivity.
    + rewrite Hcons by congruence. reflexivity.
Qed.

Lemma read_payload_spec (fuel : nat) :
  forall (f : OS.File) (rb bs : list byte) (sz rc : Z) (err : option error)
         (f' : OS.File) (rb' bs' : list byte) (rc' : Z) (err' : option error)
         (bad : bool),
  0 <= OS.pos f -> 0 <= rc -> unexpected err = false ->
  read_payload fuel f rb bs sz rc err = (f', rb', bs', rc', err', bad) ->
  bad = false
  /\ unexpected err' = false
  /\ same_disk f f'
  /\ 0 <= OS.pos f'
  /\ 0 <= rc'
  /\ len bs' = len bs
  /\ (exists c, stream f rb = c ++ stream f' rb')
  /\ len (stream f' rb') + rc' <= len (stream f rb) + rc.
Proof.
  induction fuel as [| fuel IH]; intros f rb bs sz rc err f' rb' bs' rc' err' bad
    Hp Hrc Hu R; simpl in R.
  - inversion R; subst. splits; auto using same_disk_refl; try lia.
    exists []. reflexivity.
  - destruct ((rc <? sz) && is_none err) eqn:Cnd.
    + destruct (Bufio.Read f rb (len (take sz bs))) as [[[f1 rb1] c] e1] eqn:BR.
      destruct (Bufio_Read_frame _ _ _ _ _ _ _ Hp (len_nonneg _) BR)
        as (Hs & Hd & Hp1 & Hu1 & Hl).
      rewrite Hu1 in R.
      destruct (IH _ _ _ _ _ _ _ _ _ _ _ _ Hp1 (len_nonneg c) Hu1 R)
        as (Hb & Hu' & Hd' & Hp' & Hrc' & Hlen & (c2 & Hs2) & Hm).
      splits; auto.
      * eapply same_disk_trans; eauto.
      * rewrite Hlen, len_app, len_copy.
        rewrite <- len_app, take_drop. reflexivity.
      * exists (c ++ c2). rewrite Hs, Hs2. apply app_assoc.
      * rewrite Hs, len_app. lia.
    + inversion R; subst. splits; auto using same_disk_refl; try lia.
      exists []. reflexivity.
Qed.

Lemma read_payload_done (fuel : nat) (f : OS.File) (rb bs : list byte)
                        (sz rc : Z) (err : option error) :
  (rc <? sz) && is_none err = false ->
  read_payload fuel f rb bs sz rc err = (f, rb, bs, rc, err, false).
Proof. intro C. destruct fuel; simpl; [reflexivity | now rewrite C]. Qed.

Lemma len_clear0 (b : list byte) : len (clear0 b) = len b.
Proof. destruct b; reflexivity. Qed.

Lemma byte0_clear0 (b : list byte) : byte0 (clear0 b) = x00.
Proof. destruct b; reflexivity. Qed.

Lemma len_copy_zeros (n : Z) (c : list byte) :
  0 <= n -> len (copy (zeros n) c) = n.
Proof. intro Hn. now rewrite len_copy, len_zeros. Qed.

(** ** The decode step *)

Lemma Entry_read_frame (e : Entry) (app app1 : Appender) (e1 : Entry) (mb : Z)
                       (err : option error) :
  0 <= OS.pos (file app) ->
  Entry_read e app = (app1, e1, mb, err) ->
  kept app app1
  /\ same_disk (file app) (file app1)
  /\ 0 <= OS.pos (file app1)
  /\ unexpected err = false
  /\ off e1 = off e
  /\ exists c, stream (file app) (rd app) = c ++ stream (file app1) (rd app1)
               /\ (0 < len (bufRWEntrySize (shm app)) -> c = [] ->
                   mb = 0 /\ err = Some EOF).
Proof.
  intros Hp R. unfold Entry_read in R.
  set (hw := len (bufRWEntrySize (shm app))) in *.
  assert (Hhw : 0 <= hw) by apply len_nonneg.
  rewrite (len_zeros hw Hhw) in R.
  destruct (Bufio.Read (file app) (rd app) hw) as [[[f1 rb1] c] err1] eqn:BR.
  destruct (Bufio_Read_frame _ _ _ _ _ _ _ Hp Hhw BR) as (Hs & Hd & Hp1 & Hu1 & Hl).
  rewrite Hu1 in R.
  destruct (len c =? 0) eqn:En.
  - inversion R; subst; clear R. simpl.
    splits; auto.
    + unfold kept; simpl. splits; auto. now rewrite len_copy, len_zeros.
    + exists c. split; [exact Hs |]. intros Hpos Hc. split; [reflexivity |].
      destruct (Z.eq_dec hw 0) as [E0 | E0]; [fold hw in Hpos; lia |].
      assert (Hpos' : 0 < hw) by lia.
      destruct (Bufio_Read_spec _ _ _ _ _ _ _ Hp Hpos' BR) as (_ & _ & _ & _ & Hnil & _).
      now destruct (Hnil Hc).
  - set (hbuf := copy (zeros hw) c) in *.
    set (sz := readInt hbuf) in *.
    set (bs0 := if len (bytes e) <? sz then zeros sz else bytes e) in *.
    destruct (if len c =? len hbuf
              then read_payload (payload_fuel f1 rb1) f1 rb1 bs0 sz 0 err1
              else (f1, rb1, bs0, 0, err1, false))
      as [[[[[f2 rb2] bs] rc] err2] bad] eqn:PL.
    assert (HP : bad = false /\ unexpected err2 = false /\ same_disk f1 f2
                 /\ 0 <= OS.pos f2
                 /\ exists c2, stream f1 rb1 = c2 ++ stream f2 rb2).
    { destruct (len c =? len hbuf).
      - destruct (read_payload_spec _ _ _ _ _ _ _ _ _ _ _ _ _ Hp1 (Z.le_refl 0) Hu1 PL)
          as (Hb & Hu2 & Hd2 & Hp2 & _ & _ & Hc2 & _).
        splits; auto.
      - inversion PL; subst. splits; auto using same_disk_refl.
        exists []. reflexivity. }
    destruct HP as (Hb & Hu2 & Hd2 & Hp2 & (c2 & Hs2)). subst bad.
    set (fbuf0 := clear0 (bufRWEntryFlag (shm app))) in *.
    destruct (if rc =? sz
              then let '(f', rb', c', e') := Bufio.Read f2 rb2 (len fbuf0) in
                   (f', rb', copy fbuf0 c', e')
              else (f2, rb2, fbuf0, err2))
      as [[[f3 rb3] fbuf] err3] eqn:FL.
    assert (HF : unexpected err3 = false /\ same_disk f2 f3 /\ 0 <= OS.pos f3
                 /\ len fbuf = len fbuf0
                 /\ exists c3, stream f2 rb2 = c3 ++ stream f3 rb3).
    { destruct (rc =? sz).
      - destruct (Bufio.Read f2 rb2 (len fbuf0)) as [[[f' rb'] c'] e'] eqn:BR3.
        inversion FL; subst; clear FL.
        destruct (Bufio_Read_frame _ _ _ _ _ _ _ Hp2 (len_nonneg _) BR3)
          as (Hs3 & Hd3 & Hp3 & Hu3 & _).
        splits; auto. { apply len_copy. } now exists c'.
      - inversion FL; subst. splits; auto using same_disk_refl.
        exists []. reflexivity. }
    destruct HF as (Hu3 & Hd3 & Hp3 & Hfl & (c3 & Hs3)).
    rewrite Hu3, andb_false_r in R.
    inversion R; subst; clear R. simpl.
    splits; auto.
    + unfold kept; simpl. splits; auto.
      * now apply len_copy_zeros.
      * rewrite Hfl. apply len_clear0.
    + eauto using same_disk_trans.
    + exists (c ++ c2 ++ c3). split.
      * rewrite Hs, Hs2, Hs3. now rewrite !app_assoc.
      * intros _ Hc. apply app_eq_nil in Hc. destruct Hc as [Hc _].
        subst c. discriminate.
Qed.

(** ** Writing: the file and the buffered writer *)

Lemma grows_refl (f : OS.File) : grows f f.
Proof.
  unfold grows. splits; auto; try lia. exists []. now rewrite app_nil_r.
Qed.

Lemma grows_trans (f g h : OS.File) : grows f g -> grows g h -> grows f h.
Proof.
  intros (A1 & A2 & A3 & A4 & (s1 & A5)) (B1 & B2 & B3 & B4 & (s2 & B5)).
  unfold grows. splits; try lia; try congruence; auto.
  exists (s1 ++ s2). now rewrite B5, A5, app_assoc.
Qed.

Lemma OS_Write_spec (f f' : OS.File) (b : list byte) (n : Z) (e : option error) :
  OS.Write f b = (f', n, e) ->
  grows f f'
  /\ ((e = None /\ OS.nfail f' = OS.nfail f /\ OS.data f' = OS.data f ++ b
       /\ n = len b /\ OS.pos f' = len (OS.data f') /\ OS.writable f = true
       /\ OS.faults f' = tl (OS.faults f))
      \/ (OS.nfail f' = S (OS.nfail f) /\ (e = Some EBADF \/ e = Some EIO))).
Proof.
  intro W. unfold OS.Write in W. unfold grows.
  destruct (OS.writable f) eqn:Wr; simpl in W.
  - assert (Hend : forall d : list byte,
               len (drop (len d) d) <= len (drop (OS.pos f) (OS.data f))).
    { intro d. rewrite drop_all by lia. apply len_nonneg. }
    destruct (OS.faults f) as [| [k |] rest] eqn:Fa; inversion W; subst; clear W; simpl.
    + splits; auto.
      * intros _. apply len_nonneg.
      * now exists b.
      * left. splits; auto.
    + splits; auto.
      * intros _. apply len_nonneg.
      * now exists (take k b).
    + splits; auto.
      * intros _. apply len_nonneg.
      * now exists b.
      * left. splits; auto.
  - inversion W; subst; clear W; simpl. splits; auto.
    + lia.
    + exists []. now rewrite app_nil_r.
Qed.

Lemma Flush_spec (f f' : OS.File) (w w' : Bufio.Writer) (e : option error) :
  Bufio.Flush f w = (f', w', e) -> wstep f f' w' e.
Proof.
  intro F. unfold Bufio.Flush in F. unfold wstep.
  destruct (Bufio.werr w) as [x |] eqn:We.
  { inversion F; subst. splits; auto using grows_refl; lia. }
  destruct (Bufio.wbuf w) as [| b0 bs] eqn:Wb.
  { inversion F; subst. splits; auto using grows_refl; lia. }
  destruct (OS.Write f (b0 :: bs)) as [[f1 n] e1] eqn:OW.
  destruct (OS_Write_spec _ _ _ _ _ OW) as (Hg & Hc).
  destruct Hc as [(-> & Hn & Hd & -> & Hpos & Hwr & Hfa) | (Hn & He)].
  - rewrite Z.ltb_irrefl in F. simpl in F. inversion F; subst; clear F.
    splits; auto; lia.
  - assert (Hx : exists x, e1 = Some x) by (destruct He as [-> | ->]; eauto).
    destruct Hx as [x ->].
    replace ((n <? len (b0 :: bs)) && is_none (Some x)) with false in F
      by (now rewrite andb_false_r).
    inversion F; subst; clear F. splits; auto.
Qed.

(** Once the writer keeps an error it does nothing more. *)
Lemma Write_loop_sticky (fuel : nat) (f : OS.File) (w : Bufio.Writer)
                        (p : list byte) (nn : Z) (x : error) :
  Bufio.werr w = Some x -> Bufio.Write_loop fuel f w p nn = (f, w, p, nn).
Proof.
  intro E. destruct fuel; cbn [Bufio.Write_loop]; [reflexivity |].
  now rewrite E, andb_false_r.
Qed.

Lemma Write_loop_spec (fuel : nat) :
  forall (f : OS.File) (w : Bufio.Writer) (p : list byte) (nn : Z)
         (f' : OS.File) (w' : Bufio.Writer) (p' : list byte) (nn' : Z),
  Bufio.Write_loop fuel f w p nn = (f', w', p', nn') ->
  grows f f'
  /\ ((OS.nfail f < OS.nfail f')%nat ->
      Bufio.werr w' = Some EBADF \/ Bufio.werr w' = Some EIO).
Proof.
  induction fuel as [| fuel IH]; intros f w p nn f' w' p' nn' L;
    cbn [Bufio.Write_loop] in L.
  { inversion L; subst. split; [apply grows_refl | lia]. }
  destruct ((Bufio.bufsz - len (Bufio.wbuf w) <? len p) && is_none (Bufio.werr w)).
  2: { inversion L; subst. split; [apply grows_refl | lia]. }
  destruct (Bufio.wbuf w) as [| b0 bs] eqn:Wb.
  - destruct (OS.Write f p) as [[f1 n] e1] eqn:OW.
    destruct (OS_Write_spec _ _ _ _ _ OW) as (Hg & Hc).
    destruct Hc as [(-> & Hn & _) | (Hn & He)].
    + destruct (IH _ _ _ _ _ _ _ _ L) as (Hg' & Hr).
      split; [eapply grows_trans; eauto |]. intro Hlt. apply Hr. lia.
    + assert (Hx : exists x, e1 = Some x) by (destruct He as [-> | ->]; eauto).
      destruct Hx as [x Ex]. subst e1.
      rewrite (Write_loop_sticky fuel f1 (Bufio.mkWriter [] (Some x)) _ _ x eq_refl) in L.
      inversion L; subst; clear L. split; [assumption |].
      intros _. simpl. destruct He as [He | He]; inversion He; auto.
  - set (w0 := Bufio.mkWriter _ _) in L.
    destruct (Bufio.Flush f w0) as [[f1 w1] e1] eqn:FL.
    destruct (Flush_spec _ _ _ _ _ FL) as (Hg & Hw & Hr).
    destruct e1 as [x |].
    + rewrite (Write_loop_sticky fuel f1 w1 _ _ x Hw) in L.
      inversion L; subst; clear L. split; [assumption |].
      intro Hlt. rewrite Hw. auto.
    + destruct (IH _ _ _ _ _ _ _ _ L) as (Hg' & Hr').
      split; [eapply grows_trans; eauto |].
      intro Hlt. apply Hr'.
      destruct (Nat.eq_dec (OS.nfail f) (OS.nfail f1)) as [E | E]; [lia |].
      assert (Hlt1 : (OS.nfail f < OS.nfail f1)%nat) by (destruct Hg; lia).
      destruct (Hr Hlt1); discriminate.
Qed.

Lemma Write_spec (f f' : OS.File) (w w' : Bufio.Writer) (p : list byte) (n : Z)
                 (e : option error) :
  Bufio.Write f w p = (f', w', n, e) -> wstep f f' w' e.
Proof.
  intro W. unfold Bufio.Write in W.
  destruct (Bufio.Write_loop 3 f w p 0) as [[[f1 w1] p1] nn] eqn:L.
  destruct (Write_loop_spec _ _ _ _ _ _ _ _ _ L) as (Hg & Hr).
  destruct (Bufio.werr w1) as [x |] eqn:We; inversion W; subst; clear W.
  - unfold wstep. splits; auto.
  - unfold wstep. splits; auto.
Qed.

Lemma WriteByte_spec (f f' : OS.File) (w w' : Bufio.Writer) (c : byte)
                     (e : option error) :
  Bufio.WriteByte f w c = (f', w', e) -> wstep f f' w' e.
Proof.
  intro W. unfold Bufio.WriteByte in W.
  destruct (Bufio.werr w) as [x |] eqn:We.
  { inversion W; subst. unfold wstep. splits; auto using grows_refl; lia. }
  destruct (Bufio.bufsz - len (Bufio.wbuf w) <=? 0).
  - destruct (Bufio.Flush f w) as [[f1 w1] e1] eqn:FL.
    destruct (Flush_spec _ _ _ _ _ FL) as (Hg & Hw & Hr).
    destruct e1 as [x |]; inversion W; subst; clear W.
    + unfold wstep. rewrite Hw. splits; auto.
    + unfold wstep. simpl. splits; auto.
  - inversion W; subst. unfold wstep. splits; auto using grows_refl; lia.
Qed.

Lemma wstep_ok (f f' : OS.File) (w' : Bufio.Writer) :
  wstep f f' w' None -> OS.nfail f' = OS.nfail f.
Proof.
  intros ((Hle & _) & _ & Hr).
  destruct (Nat.eq_dec (OS.nfail f') (OS.nfail f)) as [E | E]; [assumption |].
  assert (Hlt : (OS.nfail f < OS.nfail f')%nat) by lia.
  destruct (Hr Hlt); discriminate.
Qed.

(** ** One turn of the fold loop *)

Lemma FoldBody_out {H : Type} `{FoldHandler H} (app : Appender) (h : H) (o : Z)
      (app1 : Appender) (h1 : H) (evs : list Event) (ctl : LoopCtl) :
  FoldBody app h o = (app1, h1, evs, ctl) -> BodyOut app h o app1 h1 evs ctl.
Proof.
  intro B. unfold FoldBody in B. fold (sharedAt app o) in B.
  destruct (Entry_read (sharedAt app o) app) as [[[a e] mb] err] eqn:ER.
  assert (Rest : forall a2, repaired (set_sharedEntry a e) mb a2 ->
            (if is_EOF err then (a2, h, [EvRead e mb err], Return None)
             else let '(h', cutoff, herr) := Fold h e in
                  match herr with
                  | Some x => (a2, h', [EvRead e mb err; EvFold e cutoff herr],
                               Return (Some x))
                  | None =>
                      if cutoff
                      then (a2, h', [EvRead e mb err; EvFold e cutoff herr],
                            Return err)
                      else (a2, h', [EvRead e mb err; EvFold e cutoff herr],
                            Continue (wrap64 (o + (len (bufRWEntrySize (shm a2))
                                                   + size e
                                                   + len (bufRWEntryFlag (shm a2))))))
                  end) = (app1, h1, evs, ctl) ->
            BodyOut app h o app1 h1 evs ctl).
  { intros a2 Rp E. destruct (is_EOF err) eqn:EE.
    - inversion E; subst. eapply BO_end; eauto.
    - destruct (Fold h e) as [[h' cutoff] herr] eqn:FE.
      assert (E' : (a2, h', [EvRead e mb err; EvFold e cutoff herr],
                    afterFold a2 o e err cutoff herr) = (app1, h1, evs, ctl)).
      { unfold afterFold. destruct herr; [exact E |]. destruct cutoff; exact E. }
      inversion E'; subst. eapply BO_fold; eauto. }
  destruct (0 <? mb) eqn:Em.
  - apply Z.ltb_lt in Em. fold (padding mb) in B.
    cbn [file wr set_sharedEntry set_shm] in B.
    destruct (Bufio.Write (file a) (wr a) (padding mb)) as [[[f2 w2] n] werr] eqn:BW.
    destruct (negb (n =? mb) || is_some werr) eqn:Ef.
    + inversion B; subst. eapply BO_write_failed; eauto.
      apply orb_true_iff in Ef. destruct Ef as [Ef | Ef].
      * left. apply negb_true_iff, Z.eqb_neq in Ef. exact Ef.
      * right. destruct werr; [discriminate | discriminate].
    + apply orb_false_iff in Ef. destruct Ef as [Ef1 Ef2].
      apply negb_false_iff, Z.eqb_eq in Ef1. subst n.
      destruct werr; [discriminate |].
      destruct (Bufio.Flush f2 w2) as [[f3 w3] ferr] eqn:BF.
      destruct (is_some ferr) eqn:Eg.
      * inversion B; subst. eapply BO_flush_failed; eauto.
        destruct ferr; [discriminate | discriminate].
      * destruct ferr; [discriminate |].
        apply (Rest (set_wr (set_sharedEntry a e) f3 w3)); [| exact B].
        right. split; [assumption |]. exists f2, w2, f3, w3. auto.
  - apply Z.ltb_ge in Em. apply (Rest (set_sharedEntry a e)); [| exact B].
    left. auto.
Qed.

Lemma repaired_spec (a1 a2 : Appender) (mb : Z) :
  repaired a1 mb a2 ->
  grows (file a1) (file a2)
  /\ OS.nfail (file a2) = OS.nfail (file a1)
  /\ rd a2 = rd a1 /\ shm a2 = shm a1 /\ closed a2 = closed a1
  /\ aerr a2 = aerr a1 /\ asize a2 = asize a1
  /\ baseOffset a2 = baseOffset a1 /\ maxEntrySize a2 = maxEntrySize a1.
Proof.
  intros [[_ ->] | (_ & f2 & w2 & f3 & w3 & W & F & ->)].
  - splits; auto using grows_refl.
  - pose proof (Write_spec _ _ _ _ _ _ _ W) as Hw.
    pose proof (Flush_spec _ _ _ _ _ F) as Hf.
    pose proof (wstep_ok _ _ _ Hw) as N1. pose proof (wstep_ok _ _ _ Hf) as N2.
    destruct Hw as (G1 & _). destruct Hf as (G2 & _).
    cbn. splits; auto; [eapply grows_trans; eauto | congruence].
Qed.

Lemma stream_grows (f f' : OS.File) (rb : list byte) :
  grows f f' -> len (stream f' rb) <= len (stream f rb).
Proof.
  intros (_ & _ & _ & Hr & _). unfold stream. rewrite !len_app. lia.
Qed.

(** What a turn that ends at the bottom of the loop has done. *)
Lemma BodyOut_continue {H : Type} `{FoldHandler H} (app : Appender) (h : H)
      (o : Z) (app1 : Appender) (h1 : H) (evs : list Event) (ctl : LoopCtl) :
  0 <= OS.pos (file app) ->
  BodyOut app h o app1 h1 evs ctl ->
  0 <= OS.pos (file app1)
  /\ len (bufRWEntrySize (shm app1)) = len (bufRWEntrySize (shm app))
  /\ len (bufRWEntryFlag (shm app1)) = len (bufRWEntryFlag (shm app))
  /\ (OS.nfail (file app) <= OS.nfail (file app1))%nat
  /\ (forall o', ctl = Continue o' ->
        OS.nfail (file app1) = OS.nfail (file app)
        /\ closed app1 = closed app
        /\ (0 < len (bufRWEntrySize (shm app)) ->
            len (stream (file app1) (rd app1)) < len (stream (file app) (rd app)))).
Proof.
  intros Hp B.
  destruct B as [a e mb err f2 w2 n werr ER Hmb W Hf
                | a e mb err f2 w2 f3 w3 ferr ER Hmb W F Hf
                | a e mb err a2 ER Rp EE
                | a e mb err a2 h' cutoff herr ER Rp EE FE];
    destruct (Entry_read_frame _ _ _ _ _ _ Hp ER)
      as (K & Hd & Hp1 & Hu & Ho & (c & Hs & Hc));
    destruct K as (K1 & K2 & K3 & K4 & K5 & K6 & K7 & K8 & K9);
    destruct Hd as (D1 & D2 & D3 & D4).
  - pose proof (Write_spec _ _ _ _ _ _ _ W) as ((G1 & _ & G3 & _) & _).
    cbn. splits; auto; try lia. discriminate.
  - pose proof (Write_spec _ _ _ _ _ _ _ W) as ((G1 & _ & G3 & _) & _).
    pose proof (Flush_spec _ _ _ _ _ F) as ((G1' & _ & G3' & _) & _).
    cbn. splits; auto; try lia. discriminate.
  - destruct (repaired_spec _ _ _ Rp) as ((G1 & _ & G3 & _) & R1 & R2 & R3 & _).
    cbn in G1, G3, R1, R2, R3. rewrite R3. cbn.
    splits; auto; try lia. discriminate.
  - destruct (repaired_spec _ _ _ Rp) as (G & R1 & R2 & R3 & R4 & _).
    pose proof (stream_grows _ _ (rd a) G) as SG.
    destruct G as (G1 & _ & G3 & _).
    cbn in G1, G3, R1, R2, R3, R4, SG. rewrite R3. cbn.
    splits; auto; try lia.
    intros o' Ec. splits; try congruence.
    intro Hhw. rewrite R2, Hs, len_app.
    assert (c <> []).
    { intro Cn. destruct (Hc Hhw Cn) as [_ ->]. discriminate. }
    assert (0 < len c).
    { pose proof (len_nonneg c). destruct (Z.eq_dec (len c) 0) as [E0 | E0]; [| lia].
      apply len_nil_iff in E0. contradiction. }
    lia.
Qed.

(** ** The fold returns *)

Lemma FoldLoop_returns {H : Type} `{FoldHandler H} (fuel : nat) :
  forall (app : Appender) (h : H) (o : Z),
  0 <= OS.pos (file app) ->
  0 < len (bufRWEntrySize (shm app)) ->
  len (stream (file app) (rd app)) < Z.of_nat fuel ->
  exists out, FoldLoop fuel app h o = Some out.
Proof.
  induction fuel as [| fuel IH]; intros app h o Hp Hhw Hl.
  { pose proof (len_nonneg (stream (file app) (rd app))). lia. }
  cbn [FoldLoop].
  destruct (FoldBody app h o) as [[[app1 h1] evs] ctl] eqn:FB.
  pose proof (FoldBody_out _ _ _ _ _ _ _ FB) as B.
  destruct (BodyOut_continue _ _ _ _ _ _ _ Hp B) as (Hp1 & L1 & _ & _ & Hc).
  destruct ctl as [err | o']; [eauto |].
  destruct (Hc o' eq_refl) as (_ & _ & Hlt). specialize (Hlt Hhw).
  destruct (IH app1 h1 o' Hp1) as [[[[a2 h2] e2] tr2] E2]; [lia | lia |].
  rewrite E2. cbn. eauto.
Qed.

Lemma WF_hw_pos (app : Appender) : WF app -> 0 < len (bufRWEntrySize (shm app)).
Proof. intros [[E | E] _]; lia. Qed.

Lemma seek_spec (app app1 : Appender) (o : Z) :
  seek app o = (app1, None) ->
  app1 = set_io app (OS.Seek (file app) (wrap64 (baseOffset app + o))) [] (wr app)
  /\ 0 <= wrap64 (baseOffset app + o).
Proof.
  unfold seek. destruct (wrap64 (baseOffset app + o) <? 0) eqn:E; [discriminate |].
  intro S. inversion S. split; [reflexivity | lia].
Qed.

Lemma len_drop_le {A : Type} (n : Z) (l : list A) : len (drop n l) <= len l.
Proof. unfold len, drop. rewrite length_skipn. lia. Qed.

Theorem FoldWithHandler_returns {H : Type} `{FoldHandler H} (app : Appender) (h : H) :
  WF app -> exists out, FoldWithHandler app h = Some out.
Proof.
  intro Wf. unfold FoldWithHandler.
  destruct (closed app); [eauto |].
  destruct (seek app 0) as [app1 [x |]] eqn:S; [eauto |].
  destruct (seek_spec _ _ _ S) as [-> Hp].
  apply FoldLoop_returns.
  - exact Hp.
  - cbn. now apply WF_hw_pos.
  - unfold fold_fuel, stream. cbn.
    pose proof (len_drop_le (wrap64 (baseOffset app + 0)) (OS.data (file app))).
    unfold len in *. lia.
Qed.

(** ** Traces *)

Lemma folds_app (a b : list Event) : folds (a ++ b) = folds a ++ folds b.
Proof. unfold folds. apply flat_map_app. Qed.


(** ** Write failures close the log *)




(** ** The claim on write failures *)



(** ** Decoding under [snug] *)

Lemma Bufio_Read_snug_err (f f' : OS.File) (rb rb' c : list byte) (n : Z)
                          (e : option error) :
  0 <= OS.pos f -> 0 < n -> snug f rb -> Bufio.Read f rb n = (f', rb', c, e) ->
  c = take n (stream f rb) /\ stream f' rb' = drop n (stream f rb)
  /\ snug f' rb' /\ 0 <= OS.pos f' /\ same_disk f f'
  /\ e = (if len (stream f rb) =? 0 then Some EOF else None).
Proof.
  intros Hp Hn Sn R.
  destruct (Bufio_Read_snug _ _ _ _ _ _ _ Hp Hn Sn R) as (Hc & Hs & Sn').
  destruct (Bufio_Read_spec _ _ _ _ _ _ _ Hp Hn R) as (_ & Hd & Hp' & _ & Hnil & Hcons).
  splits; auto.
  destruct (len (stream f rb) =? 0) eqn:E.
  - apply Z.eqb_eq, len_nil_iff in E. rewrite E in Hc.
    unfold take in Hc. rewrite firstn_nil in Hc. now destruct (Hnil Hc).
  - apply Hcons. rewrite Hc. apply take_pos_nonnil; [assumption |].
    intro Cn. rewrite Cn in E. discriminate.
Qed.

Lemma read_payload_full (fuel : nat) (f f' : OS.File) (rb rb' bs0 bs p rest : list byte)
      (rc : Z) (err : option error) (bad : bool) :
  0 <= OS.pos f -> snug f rb -> stream f rb = p ++ rest -> len p <= len bs0 ->
  read_payload (S fuel) f rb bs0 (len p) 0 None = (f', rb', bs, rc, err, bad) ->
  bs = p ++ drop (len p) bs0 /\ rc = len p /\ err = None /\ bad = false
  /\ stream f' rb' = rest /\ snug f' rb' /\ 0 <= OS.pos f'.
Proof.
  intros Hp Sn Hs Hl R. cbn [read_payload] in R.
  pose proof (len_nonneg p) as Hp0.
  destruct (0 <? len p) eqn:E0; cbn [andb is_none is_some negb] in R.
  - apply Z.ltb_lt in E0.
    assert (Ht : len (take (len p) bs0) = len p) by (rewrite len_take; lia).
    rewrite Ht in R.
    destruct (Bufio.Read f rb (len p)) as [[[f1 rb1] c] e1] eqn:BR.
    destruct (Bufio_Read_snug_err _ _ _ _ _ _ _ Hp E0 Sn BR)
      as (Hc & Hs1 & Sn1 & Hp1 & _ & He).
    rewrite Hs in Hc, Hs1, He. rewrite take_app_len in Hc. rewrite drop_app_len in Hs1.
    subst c. rewrite len_app in He.
    replace (len p + len rest =? 0) with false in He
      by (symmetry; apply Z.eqb_neq; pose proof (len_nonneg rest); lia).
    subst e1. cbn [unexpected] in R.
    rewrite read_payload_done in R
      by (rewrite Z.ltb_irrefl; reflexivity).
    inversion R; subst; clear R.
    splits; auto. rewrite copy_fill by lia. reflexivity.
  - apply Z.ltb_ge in E0. assert (E : len p = 0) by lia.
    apply len_nil_iff in E. subst p. inversion R; subst; clear R.
    splits; auto.
Qed.

Lemma copy_short (dst src : list byte) :
  len src <= len dst -> copy dst src = src ++ drop (len src) dst.
Proof. intro Hl. unfold copy. now rewrite take_all by lia. Qed.

Lemma drop_take_app {A : Type} (k n : Z) (l : list A) :
  0 <= k <= n -> drop k (take n l) ++ drop n l = drop k l.
Proof.
  intros Hk. destruct (Z.le_ge_cases (len l) n) as [Hge | Hlt].
  - rewrite take_all, (drop_all n) by lia. apply app_nil_r.
  - unfold drop, take.
    rewrite <- (firstn_skipn (Z.to_nat n) l) at 3.
    rewrite skipn_app.
    replace (Z.to_nat k - length (firstn (Z.to_nat n) l))%nat with 0%nat;
      [reflexivity |].
    rewrite length_firstn. unfold len in Hlt. lia.
Qed.

Lemma read_payload_short (fuel : nat) (f f' : OS.File) (rb rb' bs0 bs pl : list byte)
      (sz rc : Z) (err : option error) (bad : bool) :
  0 <= OS.pos f -> snug f rb -> stream f rb = pl ->
  len pl < sz -> sz <= len bs0 -> len pl < Z.of_nat fuel ->
  read_payload fuel f rb bs0 sz 0 None = (f', rb', bs, rc, err, bad) ->
  bs = pl ++ drop (len pl) bs0 /\ rc = 0 /\ err = Some EOF /\ bad = false
  /\ stream f' rb' = [] /\ snug f' rb' /\ 0 <= OS.pos f'.
Proof.
  intros Hp Sn Hs Hl Hb Hf R.
  pose proof (len_nonneg pl) as Hp0.
  assert (Hsz : 0 < sz) by lia.
  destruct fuel as [| fuel]; [lia |].
  cbn [read_payload] in R.
  replace (0 <? sz) with true in R by (symmetry; apply Z.ltb_lt; lia).
  cbn [andb is_none is_some negb] in R.
  assert (Ht : len (take sz bs0) = sz) by (rewrite len_take; lia).
  rewrite Ht in R.
  destruct (Bufio.Read f rb sz) as [[[f1 rb1] c] e1] eqn:BR.
  destruct (Bufio_Read_snug_err _ _ _ _ _ _ _ Hp Hsz Sn BR)
    as (Hc & Hs1 & Sn1 & Hp1 & _ & He).
  rewrite Hs in Hc, Hs1, He.
  rewrite take_all in Hc by lia. rewrite drop_all in Hs1 by lia. subst c.
  destruct (len pl =? 0) eqn:E0.
  - apply Z.eqb_eq, len_nil_iff in E0. rewrite E0 in *. clear E0. subst e1.
    cbn [unexpected error_eqb negb] in R.
    rewrite read_payload_done in R by (cbn; apply andb_false_r).
    inversion R; subst; clear R. splits; auto.
    rewrite copy_nil, take_drop. reflexivity.
  - apply Z.eqb_neq in E0. subst e1. cbn [unexpected] in R.
    assert (Hb1 : copy (take sz bs0) pl ++ drop sz bs0 = pl ++ drop (len pl) bs0).
    { rewrite copy_short by lia. rewrite <- app_assoc. f_equal.
      apply drop_take_app. lia. }
    rewrite Hb1 in R.
    destruct fuel as [| fuel]; [lia |].
    cbn [read_payload] in R.
    replace (len pl <? sz) with true in R by (symmetry; apply Z.ltb_lt; lia).
    cbn [andb is_none is_some negb] in R.
    assert (Ht1 : len (take sz (pl ++ drop (len pl) bs0)) = sz).
    { rewrite len_take, len_app, len_drop by lia. lia. }
    rewrite Ht1 in R.
    destruct (Bufio.Read f1 rb1 sz) as [[[f2 rb2] c2] e2] eqn:BR2.
    destruct (Bufio_Read_snug_err _ _ _ _ _ _ _ Hp1 Hsz Sn1 BR2)
      as (Hc2 & Hs2 & Sn2 & Hp2 & _ & He2).
    rewrite Hs1 in Hc2, Hs2, He2. cbn in He2.
    unfold take in Hc2. rewrite firstn_nil in Hc2.
    unfold drop in Hs2. rewrite skipn_nil in Hs2. subst c2 e2.
    cbn [unexpected error_eqb negb] in R.
    rewrite read_payload_done in R by (cbn; apply andb_false_r).
    inversion R; subst; clear R. splits; auto.
    rewrite copy_nil, take_drop. reflexivity.
Qed.

Lemma stream_len_fuel (f : OS.File) (rb : list byte) :
  len (stream f rb) < Z.of_nat (payload_fuel f rb).
Proof.
  unfold payload_fuel, stream. rewrite len_app.
  pose proof (len_drop_le (OS.pos f) (OS.data f)). unfold len in *. lia.
Qed.

Lemma payload_fuel_S (f : OS.File) (rb : list byte) :
  payload_fuel f rb = S (length rb + length (OS.data f)).
Proof. reflexivity. Qed.

Lemma Z_of_byte_range (b : byte) : 0 <= Z_of_byte b < 256.
Proof.
  unfold Z_of_byte. pose proof (Byte.to_N_bounded b). lia.
Qed.

Lemma readInt_nonneg (b : list byte) : 0 <= readInt b.
Proof.
  unfold readInt.
  destruct b as [| b0 [| b1 [| b2 [| b3 [| b4 t]]]]]; try lia.
  - pose proof (Z_of_byte_range b0). pose proof (Z_of_byte_range b1). lia.
  - pose proof (Z_of_byte_range b0). pose proof (Z_of_byte_range b1).
    pose proof (Z_of_byte_range b2). pose proof (Z_of_byte_range b3). lia.
Qed.

(** The header of a frame has been read in full: what the decode step is
    left with. *)
Lemma Entry_read_header (e : Entry) (app : Appender) (hdr tail : list byte) :
  0 <= OS.pos (file app) -> WF app -> asnug app ->
  astream app = hdr ++ tail ->
  len hdr = len (bufRWEntrySize (shm app)) ->
  exists f1 rb1,
    Bufio.Read (file app) (rd app) (len (bufRWEntrySize (shm app)))
    = (f1, rb1, hdr, None)
    /\ stream f1 rb1 = tail /\ snug f1 rb1 /\ 0 <= OS.pos f1.
Proof.
  intros Hp Wf Sn Hs Hh.
  pose proof (WF_hw_pos _ Wf) as Hhw.
  destruct (Bufio.Read (file app) (rd app) (len (bufRWEntrySize (shm app))))
    as [[[f1 rb1] c] e1] eqn:BR.
  destruct (Bufio_Read_snug_err _ _ _ _ _ _ _ Hp Hhw Sn BR)
    as (Hc & Hs1 & Sn1 & Hp1 & _ & He).
  unfold astream in Hs. rewrite Hs, <- Hh in Hc, Hs1.
  rewrite take_app_len in Hc. rewrite drop_app_len in Hs1.
  rewrite Hs, len_app in He.
  replace (len hdr + len tail =? 0) with false in He
    by (symmetry; apply Z.eqb_neq; pose proof (len_nonneg tail); lia).
  subst c e1. exists f1, rb1. auto.
Qed.

Lemma Entry_read_snug_frame (e : Entry) (app app1 : Appender) (e1 : Entry)
      (mb : Z) (err : option error) (hdr p rest : list byte) (fl : byte) :
  0 <= OS.pos (file app) -> WF app -> asnug app ->
  astream app = hdr ++ p ++ fl :: rest ->
  len hdr = len (bufRWEntrySize (shm app)) ->
  readInt hdr = len p ->
  Entry_read e app = (app1, e1, mb, err) ->
  e1 = mkEntry (off e) (len p)
         (p ++ drop (len p)
                 (if len (bytes e) <? len p then zeros (len p) else bytes e))
         (negb (Byte.eqb fl fCompleteEntry))
  /\ mb = (if Byte.eqb fl x00 then 1 else 0)
  /\ err = None
  /\ astream app1 = rest /\ asnug app1.
Proof.
  intros Hp Wf Sn Hs Hh Hsz R.
  destruct (Entry_read_header e app hdr _ Hp Wf Sn Hs Hh)
    as (f1 & rb1 & BR & Hs1 & Sn1 & Hp1).
  pose proof (WF_hw_pos _ Wf) as Hhw. destruct Wf as [_ Hfl].
  unfold Entry_read in R.
  rewrite len_zeros in R by lia. rewrite BR in R.
  cbn [unexpected] in R.
  replace (len hdr =? 0) with false in R by (symmetry; apply Z.eqb_neq; lia).
  rewrite copy_fill in R by (rewrite len_zeros; lia).
  rewrite Hsz, Z.eqb_refl in R.
  set (bs0 := if len (bytes e) <? len p then zeros (len p) else bytes e) in *.
  assert (Hb : len p <= len bs0).
  { subst bs0. destruct (len (bytes e) <? len p) eqn:E.
    - rewrite len_zeros by apply len_nonneg. lia.
    - apply Z.ltb_ge in E. exact E. }
  rewrite payload_fuel_S in R.
  destruct (read_payload _ f1 rb1 bs0 (len p) 0 None)
    as [[[[[f2 rb2] bs] rc] err2] bad] eqn:PL.
  destruct (read_payload_full _ _ _ _ _ _ _ _ _ _ _ _ Hp1 Sn1 Hs1 Hb PL)
    as (-> & -> & -> & -> & Hs2 & Sn2 & Hp2).
  rewrite Z.eqb_refl in R.
  assert (Hf1 : 0 < len (clear0 (bufRWEntryFlag (shm app))))
    by (rewrite len_clear0; lia).
  destruct (Bufio.Read f2 rb2 (len (clear0 (bufRWEntryFlag (shm app)))))
    as [[[f3 rb3] c3] e3] eqn:BR3.
  destruct (Bufio_Read_snug_err _ _ _ _ _ _ _ Hp2 Hf1 Sn2 BR3)
    as (Hc3 & Hs3 & Sn3 & Hp3 & _ & He3).
  rewrite len_clear0, Hfl in Hc3, Hs3. rewrite Hs2 in Hc3, Hs3, He3.
  change (take 1 (fl :: rest)) with [fl] in Hc3.
  change (drop 1 (fl :: rest)) with rest in Hs3.
  rewrite len_cons in He3.
  replace (1 + len rest =? 0) with false in He3
    by (symmetry; apply Z.eqb_neq; pose proof (len_nonneg rest); lia).
  subst c3 e3. cbn [unexpected andb] in R.
  rewrite copy_fill in R by (rewrite len_clear0, Hfl; reflexivity).
  inversion R; subst; clear R. cbn.
  splits; auto. lia.
Qed.

Lemma Entry_read_snug_torn (e : Entry) (app app1 : Appender) (e1 : Entry)
      (mb : Z) (err : option error) (hdr pl : list byte) :
  0 <= OS.pos (file app) -> WF app -> asnug app ->
  astream app = hdr ++ pl ->
  len hdr = len (bufRWEntrySize (shm app)) ->
  len pl <= readInt hdr ->
  Entry_read e app = (app1, e1, mb, err) ->
  e1 = mkEntry (off e) (readInt hdr)
         (pl ++ drop (len pl)
                  (if len (bytes e) <? readInt hdr
                   then zeros (readInt hdr) else bytes e))
         true
  /\ mb = (if len pl =? readInt hdr then 1 else readInt hdr + 1)
  /\ err = Some EOF
  /\ astream app1 = [] /\ asnug app1.
Proof.
  intros Hp Wf Sn Hs Hh Hsz R.
  destruct (Entry_read_header e app hdr _ Hp Wf Sn Hs Hh)
    as (f1 & rb1 & BR & Hs1 & Sn1 & Hp1).
  pose proof (WF_hw_pos _ Wf) as Hhw. destruct Wf as [_ Hfl].
  pose proof (len_nonneg pl) as Hpl.
  unfold Entry_read in R.
  rewrite len_zeros in R by lia. rewrite BR in R.
  cbn [unexpected] in R.
  replace (len hdr =? 0) with false in R by (symmetry; apply Z.eqb_neq; lia).
  rewrite copy_fill in R by (rewrite len_zeros; lia).
  rewrite Z.eqb_refl in R.
  set (sz := readInt hdr) in *.
  set (bs0 := if len (bytes e) <? sz then zeros sz else bytes e) in *.
  assert (Hb : sz <= len bs0).
  { subst bs0. destruct (len (bytes e) <? sz) eqn:E.
    - rewrite len_zeros by lia. lia.
    - apply Z.ltb_ge in E. exact E. }
  destruct (read_payload (payload_fuel f1 rb1) f1 rb1 bs0 sz 0 None)
    as [[[[[f2 rb2] bs] rc] err2] bad] eqn:PL.
  assert (Hf1 : 0 < len (clear0 (bufRWEntryFlag (shm app))))
    by (rewrite len_clear0; lia).
  destruct (Z.eq_dec (len pl) sz) as [Eq | Ne].
  - (* only the flag is missing *)
    rewrite payload_fuel_S, <- Eq in PL.
    assert (Hs1' : stream f1 rb1 = pl ++ []) by (now rewrite app_nil_r).
    assert (Hb' : len pl <= len bs0) by lia.
    destruct (read_payload_full _ _ _ _ _ _ _ _ _ _ _ _ Hp1 Sn1 Hs1' Hb' PL)
      as (-> & -> & -> & -> & Hs2 & Sn2 & Hp2).
    rewrite Eq, Z.eqb_refl in R.
    destruct (Bufio.Read f2 rb2 (len (clear0 (bufRWEntryFlag (shm app)))))
      as [[[f3 rb3] c3] e3] eqn:BR3.
    destruct (Bufio_Read_snug_err _ _ _ _ _ _ _ Hp2 Hf1 Sn2 BR3)
      as (Hc3 & Hs3 & Sn3 & Hp3 & _ & He3).
    rewrite Hs2 in Hc3, Hs3, He3. cbn in He3.
    unfold take in Hc3. rewrite firstn_nil in Hc3.
    unfold drop in Hs3. rewrite skipn_nil in Hs3. subst c3 e3.
    cbn [unexpected error_eqb negb andb] in R.
    rewrite copy_nil, byte0_clear0 in R.
    inversion R; subst; clear R. cbn.
    rewrite !Eq, Z.eqb_refl. splits; auto. lia.
  - assert (Hlt : len pl < sz) by lia.
    assert (Hfu : len pl < Z.of_nat (payload_fuel f1 rb1))
      by (rewrite <- Hs1; apply stream_len_fuel).
    destruct (read_payload_short _ _ _ _ _ _ _ _ _ _ _ _ Hp1 Sn1 Hs1 Hlt Hb Hfu PL)
      as (-> & -> & -> & -> & Hs2 & Sn2 & Hp2).
    replace (0 =? sz) with false in R by (symmetry; apply Z.eqb_neq; lia).
    cbn [andb] in R. rewrite byte0_clear0 in R.
    inversion R; subst; clear R. cbn.
    replace (len (stream f1 rb1) =? sz) with false
      by (symmetry; apply Z.eqb_neq; lia).
    splits; auto. lia.
Qed.

(** ** The header codec *)

Lemma Z_of_byte_of_Z (z : Z) : Z_of_byte (byte_of_Z z) = z mod 256.
Proof.
  unfold Z_of_byte, byte_of_Z.
  assert (Hm : 0 <= z mod 256 < 256) by (apply Z.mod_pos_bound; lia).
  destruct (Byte.of_N (Z.to_N (z mod 256))) as [b |] eqn:E.
  - apply Byte.to_of_N in E. rewrite E. lia.
  - apply Byte.of_N_None_iff in E. lia.
Qed.

Lemma readInt_writeInt (hw n : Z) :
  (hw = 2 /\ 0 <= n < 2 ^ 16) \/ (hw = 4 /\ 0 <= n < 2 ^ 32) ->
  readInt (writeInt (zeros hw) n) = n.
Proof.
  intros [[-> Hn] | [-> Hn]];
    [change (zeros 2) with [x00; x00] | change (zeros 4) with [x00; x00; x00; x00]];
    cbn [writeInt readInt]; rewrite !Z_of_byte_of_Z.
  - change (2 ^ 16) with 65536 in Hn.
    rewrite (Z.mod_small (n / 256)) by (split; [apply Z.div_pos; lia |
      apply Z.div_lt_upper_bound; lia]).
    pose proof (Z.div_mod n 256). lia.
  - change (2 ^ 32) with 4294967296 in Hn.
    pose proof (Z.div_mod n 256 ltac:(lia)) as D0.
    pose proof (Z.div_mod (n / 256) 256 ltac:(lia)) as D1.
    pose proof (Z.div_mod (n / 256 / 256) 256 ltac:(lia)) as D2.
    rewrite Z.div_div in D2 by lia. rewrite Z.div_div in D2 by lia.
    rewrite Z.div_div in D1 by lia.
    change (256 * 256) with 65536 in *. change (65536 * 256) with 16777216 in *.
    rewrite (Z.mod_small (n / 16777216)) by (split; [apply Z.div_pos; lia |
      apply Z.div_lt_upper_bound; lia]).
    lia.
Qed.

Lemma len_writeInt (b : list byte) (n : Z) : len (writeInt b n) = len b.
Proof.
  unfold writeInt. destruct b as [| b0 [| b1 [| b2 [| b3 [| b4 t]]]]]; reflexivity.
Qed.

Lemma len_frame (hw : Z) (p : list byte) :
  0 <= hw -> len (frame hw p) = frameLen hw p.
Proof.
  intro Hh. unfold frame, frameLen.
  rewrite !len_app, len_writeInt, len_zeros by assumption.
  change (len [fCompleteEntry]) with 1. lia.
Qed.

Lemma len_frames (hw : Z) (ps : list (list byte)) :
  0 <= hw -> len (frames hw ps) = totalLen hw ps.
Proof.
  intro Hh. induction ps as [| p ps IH]; [reflexivity |].
  unfold frames in *. cbn [map concat totalLen].
  rewrite len_app, len_frame, IH by assumption. reflexivity.
Qed.

Lemma totalLen_ge (hw : Z) (ps : list (list byte)) :
  0 <= hw -> Z.of_nat (length ps) <= totalLen hw ps.
Proof.
  intro Hh. induction ps as [| p ps IH]; [cbn; lia |].
  cbn [length totalLen]. unfold frameLen. pose proof (len_nonneg p). lia.
Qed.

(** ** The padding reaches the file *)

Lemma len_padding (mb : Z) : 0 < mb -> len (padding mb) = mb.
Proof.
  intro Hm. unfold padding. rewrite len_app, len_zeros by lia.
  unfold len. simpl. lia.
Qed.

Lemma OS_Write_clean (f : OS.File) (p : list byte) :
  OS.writable f = true -> OS.faults f = [] ->
  OS.Write f p
  = (OS.mkFile (OS.data f ++ p) (len (OS.data f ++ p)) true [] (OS.nfail f),
     len p, None).
Proof. intros Hw Hf. unfold OS.Write. now rewrite Hw, Hf. Qed.



(** ** A traversal over frames and a torn tail *)

Lemma feed_cons {H : Type} `{FoldHandler H} (h hN : H) (e : Entry) (es : list Entry) :
  feed h (e :: es) = (hN, true) ->
  exists h', Fold h e = (h', false, None) /\ feed h' es = (hN, true).
Proof.
  cbn [feed]. destruct (Fold h e) as [[h' c] herr].
  destruct c; [discriminate |]. destruct herr; [discriminate |].
  intro F. now exists h'.
Qed.

Lemma fits_header (hw : Z) (p : list byte) :
  hw = 2 \/ hw = 4 -> len p < 256 ^ hw ->
  readInt (writeInt (zeros hw) (len p)) = len p.
Proof.
  intros Hh Hp. apply readInt_writeInt. pose proof (len_nonneg p).
  destruct Hh as [-> | ->]; [left | right]; (split; [reflexivity |]).
  - change (2 ^ 16) with (256 ^ 2). lia.
  - change (2 ^ 32) with (256 ^ 4). lia.
Qed.

Lemma frames_count (hw : Z) (ps : list (list byte)) (tail : list byte) :
  0 <= hw -> Z.of_nat (length ps) <= len (frames hw ps ++ tail).
Proof.
  intro Hh. rewrite len_app, len_frames by assumption.
  pose proof (totalLen_ge hw ps Hh). pose proof (len_nonneg tail). lia.
Qed.









(** ** Offsets and size of appended frames *)

Lemma totalLen_nonneg (hw : Z) (ps : list (list byte)) :
  0 <= hw -> 0 <= totalLen hw ps.
Proof.
  intro Hh. pose proof (totalLen_ge hw ps Hh). lia.
Qed.

Lemma totalLen_app (hw : Z) (a b : list (list byte)) :
  totalLen hw (a ++ b) = totalLen hw a + totalLen hw b.
Proof. induction a as [| p a IH]; cbn [List.app totalLen]; lia. Qed.

Lemma offsetsFrom_app (hw o : Z) (a b : list (list byte)) :
  offsetsFrom hw o (a ++ b)
  = offsetsFrom hw o a ++ offsetsFrom hw (o + totalLen hw a) b.
Proof.
  revert o. induction a as [| p a IH]; intro o; cbn [List.app offsetsFrom totalLen].
  - now rewrite Z.add_0_r.
  - rewrite IH. do 3 f_equal. lia.
Qed.

Lemma offsetsFrom_nth (hw : Z) (ps : list (list byte)) :
  forall (o : Z) (i : nat),
  nth_error (offsetsFrom hw o ps) i
  = option_map (fun _ => o + totalLen hw (firstn i ps)) (nth_error ps i).
Proof.
  induction ps as [| p ps IH]; intros o i.
  - destruct i; reflexivity.
  - destruct i as [| i]; cbn [offsetsFrom nth_error firstn totalLen option_map].
    + f_equal. lia.
    + rewrite IH. destruct (nth_error ps i); cbn; [f_equal; lia | reflexivity].
Qed.

Lemma offsetsFrom_lower (hw : Z) (ps : list (list byte)) :
  0 <= hw -> forall o x, In x (offsetsFrom hw o ps) -> o <= x.
Proof.
  intro Hh. induction ps as [| p ps IH]; intros o x Hin; [contradiction |].
  cbn [offsetsFrom] in Hin. destruct Hin as [<- | Hin]; [lia |].
  apply IH in Hin. unfold frameLen in Hin. pose proof (len_nonneg p). lia.
Qed.

Lemma offsetsFrom_increasing (hw : Z) (ps : list (list byte)) :
  0 <= hw -> forall o, increasing (offsetsFrom hw o ps).
Proof.
  intro Hh. induction ps as [| p ps IH]; intro o; [exact I |].
  cbn [offsetsFrom]. destruct ps as [| q ps]; [exact I |].
  cbn [offsetsFrom increasing] in *. split.
  - unfold frameLen. pose proof (len_nonneg p). lia.
  - apply IH.
Qed.

Lemma offsetsFrom_NoDup (hw : Z) (ps : list (list byte)) :
  0 <= hw -> forall o, NoDup (offsetsFrom hw o ps).
Proof.
  intro Hh. induction ps as [| p ps IH]; intro o; cbn [offsetsFrom];
    constructor.
  - intro Hin. apply (offsetsFrom_lower hw ps Hh) in Hin.
    unfold frameLen in Hin. pose proof (len_nonneg p). lia.
  - apply IH.
Qed.

Lemma AppendBulk_loop_ok (bss : list (list byte)) :
  forall (app app' : Appender) (offs offs' : list Z) (wb wb' hw : Z),
  AppendBulk_loop app bss offs wb = (app', Ok (offs', wb')) ->
  hw = len (bufRWEntrySize (shm app)) ->
  len (bufRWEntryFlag (shm app)) = 1 ->
  0 <= asize app -> 0 <= wb ->
  asize app + wb + totalLen hw bss < 2 ^ 63 ->
  offs' = offs ++ offsetsFrom hw (asize app + wb) bss
  /\ wb' = wb + totalLen hw bss
  /\ asize app' = asize app
  /\ len (bufRWEntrySize (shm app')) = hw
  /\ len (bufRWEntryFlag (shm app')) = 1.
Proof.
  induction bss as [| bs rest IH];
    intros app app' offs offs' wb wb' hw L Ehw Hfl Hs Hwb Hb;
    cbn [AppendBulk_loop] in L.
  { inversion L; subst. cbn [offsetsFrom totalLen].
    rewrite app_nil_r. splits; auto; lia. }
  destruct (len bs =? 0); [discriminate |].
  destruct (maxEntrySize app <? len bs); [discriminate |].
  set (hbuf := writeInt (bufRWEntrySize (shm app)) (len bs)) in *.
  assert (Hhb : len hbuf = hw) by (subst hbuf; rewrite len_writeInt; congruence).
  cbn [file wr set_sizebuf set_shm] in L.
  destruct (Bufio.Write (file app) (wr app) hbuf) as [[[f1 w1] n1] e1].
  destruct (negb (n1 =? len hbuf) || is_some e1); [discriminate |].
  destruct (Bufio.Write f1 w1 bs) as [[[f2 w2] n2] e2].
  destruct (negb (n2 =? len bs) || is_some e2); [discriminate |].
  destruct (Bufio.WriteByte f2 w2 fCompleteEntry) as [[f3 w3] e3].
  destruct (is_some e3); [discriminate |].
  cbn [totalLen] in Hb.
  assert (Hhw0 : 0 <= hw) by (rewrite Ehw; apply len_nonneg).
  pose proof (totalLen_nonneg hw rest Hhw0) as Ht.
  pose proof (len_nonneg bs) as Hlb.
  rewrite Hhb, Hfl in L. fold (frameLen hw bs) in L.
  rewrite !wrap64_small in L
    by (unfold frameLen in *; change (2 ^ 63) with 9223372036854775808 in *; lia).
  destruct (IH _ _ _ _ _ _ hw L) as (I1 & I2 & I3 & I4 & I5); cbn; auto.
  - unfold frameLen; lia.
  - unfold frameLen in *; lia.
  - subst offs' wb'. cbn [offsetsFrom totalLen]. cbn in I3.
    rewrite <- app_assoc. cbn [List.app].
    change (asize (set_wr (set_sizebuf app hbuf) f3 w3)) with (asize app).
    splits; auto; try lia. do 3 f_equal. lia.
Qed.

Lemma AppendBulk_ok (app app' : Appender) (bss : list (list byte))
                    (offs : list Z) (hw : Z) :
  AppendBulk app bss = (app', Ok offs) ->
  hw = len (bufRWEntrySize (shm app)) ->
  len (bufRWEntryFlag (shm app)) = 1 ->
  0 <= asize app ->
  asize app + totalLen hw bss < 2 ^ 63 ->
  offs = offsetsFrom hw (asize app) bss
  /\ asize app' = asize app + totalLen hw bss
  /\ len (bufRWEntrySize (shm app')) = hw
  /\ len (bufRWEntryFlag (shm app')) = 1.
Proof.
  intros A Ehw Hfl Hs Hb. unfold AppendBulk in A.
  destruct (closed app); [discriminate |].
  destruct bss as [| bs rest]; [discriminate |].
  destruct (AppendBulk_loop app (bs :: rest) [] 0) as [app1 [[offs1 wb1] | e]] eqn:L;
    [| discriminate].
  destruct (AppendBulk_loop_ok _ _ _ _ _ _ _ hw L Ehw Hfl Hs (Z.le_refl 0))
    as (I1 & I2 & I3 & I4 & I5); [lia |].
  destruct (Bufio.Flush (file app1) (wr app1)) as [[f2 w2] e2].
  destruct (is_some e2); [discriminate |].
  inversion A; subst; clear A. cbn.
  assert (Hhw0 : 0 <= len (bufRWEntrySize (shm app))) by apply len_nonneg.
  pose proof (totalLen_nonneg _ (bs :: rest) Hhw0) as Ht.
  cbn [totalLen] in Hb, Ht.
  rewrite I3, !Z.add_0_r.
  rewrite wrap64_small by (change (2 ^ 63) with 9223372036854775808 in *; lia).
  splits; auto.
Qed.

Lemma run_ok (cs : list call) :
  forall (app app' : Appender) (offs : list Z) (hw : Z),
  run app cs = Some (app', offs) ->
  hw = len (bufRWEntrySize (shm app)) ->
  len (bufRWEntryFlag (shm app)) = 1 ->
  0 <= asize app ->
  asize app + totalLen hw (concat (map payloads cs)) < 2 ^ 63 ->
  offs = offsetsFrom hw (asize app) (concat (map payloads cs))
  /\ asize app' = asize app + totalLen hw (concat (map payloads cs)).
Proof.
  induction cs as [| c cs IH]; intros app app' offs hw R Ehw Hfl Hs Hb;
    cbn [run] in R.
  { inversion R; subst. cbn. split; [reflexivity | lia]. }
  cbn [map concat] in Hb |- *. rewrite totalLen_app in Hb |- *.
  rewrite offsetsFrom_app.
  assert (Hhw0 : 0 <= hw) by (rewrite Ehw; apply len_nonneg).
  pose proof (totalLen_nonneg hw (concat (map payloads cs)) Hhw0) as Ht.
  pose proof (totalLen_nonneg hw (payloads c) Hhw0) as Ht'.
  assert (Hcall : forall app1 offs1,
             AppendBulk app (payloads c) = (app1, Ok offs1) ->
             match run app1 cs with
             | Some (app2, offs') => Some (app2, offs1 ++ offs')
             | None => None
             end = Some (app', offs) ->
             offs = offsetsFrom hw (asize app) (payloads c)
                    ++ offsetsFrom hw (asize app + totalLen hw (payloads c))
                         (concat (map payloads cs))
             /\ asize app' = asize app + (totalLen hw (payloads c)
                                          + totalLen hw (concat (map payloads cs)))).
  { intros app1 offs1 A R1.
    destruct (AppendBulk_ok _ _ _ _ hw A Ehw Hfl Hs) as (J1 & J2 & J3 & J4); [lia |].
    destruct (run app1 cs) as [[app2 offs2] |] eqn:R2; [| discriminate].
    injection R1 as E1 E2. subst app' offs.
    destruct (IH _ _ _ hw R2) as (K1 & K2); auto; try lia.
    rewrite K1, K2, J2, <- J1. split; [reflexivity | lia]. }
  destruct c as [bs | bss]; cbn [payloads] in *.
  - unfold Append in R.
    destruct (AppendBulk app [bs]) as [a1 [offs1 | e]] eqn:A; [| discriminate].
    destruct (AppendBulk_ok _ _ _ _ hw A Ehw Hfl Hs) as (J1 & _); [lia |].
    assert (Eo : [hd 0 offs1] = offs1) by (rewrite J1; reflexivity).
    rewrite Eo in R. exact (Hcall _ _ eq_refl R).
  - destruct (AppendBulk app bss) as [a1 [offs1 | e]] eqn:A; [| discriminate].
    exact (Hcall _ _ eq_refl R).
Qed.

(** ** Opening an empty file *)

Lemma entrySizeLen_cases (m hw : Z) :
  entrySizeLen m = Some hw -> hw = 2 \/ hw = 4.
Proof.
  unfold entrySizeLen.
  destruct (bits_Len (m mod 2 ^ 64) <=? 16); [intro E; inversion E; auto |].
  destruct (bits_Len (m mod 2 ^ 64) <=? 32); [intro E; inversion E; auto |].
  discriminate.
Qed.

Lemma newAppender_WF (contents : list byte) (script : list (option Z))
                     (cfg : Config) (hw : Z) :
  hw = 2 \/ hw = 4 ->
  WF (newAppender contents script cfg hw)
  /\ len (bufRWEntrySize (shm (newAppender contents script cfg hw))) = hw.
Proof. intros [-> | ->]; (split; [split; [auto |] |]); reflexivity. Qed.

(** A traversal that finds nothing to read leaves the handler alone. *)
Lemma FoldLoop_nothing {H : Type} `{FoldHandler H} (fuel : nat) (app app' : Appender)
      (h h' : H) (o : Z) (err : option error) (tr : list Event) :
  0 <= OS.pos (file app) -> 0 < len (bufRWEntrySize (shm app)) ->
  astream app = [] ->
  FoldLoop fuel app h o = Some (app', h', err, tr) ->
  h' = h /\ err = None /\ folds tr = []
  /\ len (bufRWEntrySize (shm app')) = len (bufRWEntrySize (shm app))
  /\ len (bufRWEntryFlag (shm app')) = len (bufRWEntryFlag (shm app))
  /\ closed app' = closed app.
Proof.
  intros Hp Hhw Hs L. destruct fuel as [| fuel]; [discriminate |].
  cbn [FoldLoop] in L.
  destruct (FoldBody app h o) as [[[app1 h1] evs] ctl] eqn:FB.
  pose proof (FoldBody_out _ _ _ _ _ _ _ FB) as B.
  destruct B as [a e0 mb err0 f2 w2 n werr ER Hmb W Hf
                | a e0 mb err0 f2 w2 f3 w3 ferr ER Hmb W F Hf
                | a e0 mb err0 a2 ER Rp EE
                | a e0 mb err0 a2 h2 cutoff herr ER Rp EE FE];
    destruct (Entry_read_frame _ _ _ _ _ _ Hp ER)
      as ((K1 & K2 & K3 & K4 & K5 & K6 & K7 & K8 & K9) & _ & _ & _ & _
          & (c & Hc & Hnil));
    unfold astream in Hs; rewrite Hs in Hc; symmetry in Hc;
    apply app_eq_nil in Hc; destruct Hc as [Hc _];
    destruct (Hnil Hhw Hc) as [-> ->]; try lia; try discriminate.
  inversion L; subst; clear L.
  destruct (repaired_spec _ _ _ Rp) as (_ & _ & _ & R3 & R4 & _).
  rewrite R3, R4. cbn. splits; auto.
Qed.

Lemma open_empty (script : list (option Z)) (cfg : Config) (app : Appender)
                 (err : option error) :
  OpenWithConfig [] script cfg = Some (Opened app err) ->
  exists hw, entrySizeLen (MaxEntrySize cfg) = Some hw
             /\ len (bufRWEntrySize (shm app)) = hw
             /\ WF app /\ asize app = 0.
Proof.
  unfold OpenWithConfig.
  destruct ((MaxEntrySize cfg <? 1) || (BaseOffset cfg <? 0)); [discriminate |].
  destruct (entrySizeLen (MaxEntrySize cfg)) as [hw |] eqn:E; [| discriminate].
  pose proof (entrySizeLen_cases _ _ E) as Hw.
  destruct (newAppender_WF [] script cfg hw Hw) as [Wf Hl].
  set (a0 := newAppender [] script cfg hw) in *.
  set (h0 := mkSizeFold _ _ 0).
  destruct (FoldWithHandler a0 h0) as [[[[a1 h1] e1] tr1] |] eqn:F; [| discriminate].
  intro O. injection O as <- <-. exists hw. split; [reflexivity |].
  assert (A : h1 = h0
              /\ len (bufRWEntrySize (shm a1)) = len (bufRWEntrySize (shm a0))
              /\ len (bufRWEntryFlag (shm a1)) = len (bufRWEntryFlag (shm a0))).
  { unfold FoldWithHandler in F. change (closed a0) with false in F.
    destruct (seek a0 0) as [a' [x |]] eqn:S.
    - unfold seek in S. destruct (wrap64 (baseOffset a0 + 0) <? 0);
        [| discriminate].
      injection S as <- <-. injection F as <- <- <- <-. auto.
    - destruct (seek_spec _ _ _ S) as [-> Hp].
      match type of F with
      | FoldLoop _ ?a _ _ = _ =>
          assert (Hp' : 0 <= OS.pos (file a)) by exact Hp;
          assert (Hs : astream a = [])
            by (unfold astream, stream, drop; cbn; now rewrite skipn_nil);
          assert (Hh : 0 < len (bufRWEntrySize (shm a)))
            by (apply WF_hw_pos; exact Wf)
      end.
      destruct (FoldLoop_nothing _ _ _ _ _ _ _ _ Hp' Hh Hs F)
        as (-> & _ & _ & L1 & L2 & _).
      auto. }
  destruct A as (-> & L1 & L2). cbn.
  destruct Wf as [W1 W2]. splits; auto; try congruence.
  split; cbn; [rewrite L1; exact W1 | rewrite L2; exact W2].
Qed.

(** ** The claims on offsets and size *)

(** C4. On a log opened from an empty file, after calls of [Append] and
    [AppendBulk] that all succeeded, the offset returned for the i-th payload
    appended (i from 0, over all the calls) is the sum of the frame lengths,
    header width + payload length + 1, of the payloads appended before it:
    the first offset is 0, and the offsets are strictly increasing, so no two
    are equal.  The total of the frame lengths is taken to fit an [int64]. *)
Theorem C4_offsets_are_prefix_sums (script : list (option Z)) (cfg : Config)
      (app0 app : Appender) (err0 : option error) (cs : list call)
      (offs : list Z) (hw : Z) :
  OpenWithConfig [] script cfg = Some (Opened app0 err0) ->
  entrySizeLen (MaxEntrySize cfg) = Some hw ->
  run app0 cs = Some (app, offs) ->
  totalLen hw (concat (map payloads cs)) < 2 ^ 63 ->
  (forall i : nat,
      nth_error offs i
      = option_map (fun _ => totalLen hw (firstn i (concat (map payloads cs))))
                   (nth_error (concat (map payloads cs)) i))
  /\ length offs = length (concat (map payloads cs))
  /\ increasing offs
  /\ NoDup offs.
Proof.
  intros O E R Hb.
  destruct (open_empty _ _ _ _ O) as (hw' & E' & Hl & [W1 W2] & Hs).
  assert (Hl' : len (bufRWEntrySize (shm app0)) = hw) by congruence.
  assert (Hhw0 : 0 <= hw) by (rewrite <- Hl'; apply len_nonneg).
  destruct (run_ok _ _ _ _ hw R (eq_sym Hl') W2) as (-> & _); try lia.
  rewrite Hs. splits.
  - intro i. rewrite offsetsFrom_nth. reflexivity.
  - clear. generalize 0. induction (concat (map payloads cs)) as [| p l IH];
      intro o; cbn; [reflexivity | now rewrite IH].
  - now apply offsetsFrom_increasing.
  - now apply offsetsFrom_NoDup.
Qed.

Lemma C4_offsets_are_prefix_sums_witness :
  snd afterSomeCalls = [0; 4; 9; 13]
  /\ (forall i : nat,
        nth_error (snd afterSomeCalls) i
        = option_map
            (fun _ => totalLen 2 (firstn i (concat (map payloads someCalls))))
            (nth_error (concat (map payloads someCalls)) i))
  /\ length (snd afterSomeCalls) = length (concat (map payloads someCalls))
  /\ increasing (snd afterSomeCalls)
  /\ NoDup (snd afterSomeCalls).
Proof.
  split; [vm_compute; reflexivity |].
  apply (C4_offsets_are_prefix_sums [] smallCfg emptyLog (fst afterSomeCalls)
           None someCalls (snd afterSomeCalls) 2).
  - vm_compute. reflexivity.
  - vm_compute. reflexivity.
  - vm_compute. reflexivity.
  - vm_compute. reflexivity.
Defined.

(** C5. On a log opened from an empty file, after calls of [Append] and
    [AppendBulk] that all succeeded, the size of the log is the sum over the
    payloads appended of header width + payload length + 1; this holds after
    every such run of calls, so every further successful append keeps it.
    The total is taken to fit an [int64]. *)
Theorem C5_size_is_total (script : list (option Z)) (cfg : Config)
      (app0 app : Appender) (err0 : option error) (cs : list call)
      (offs : list Z) (hw : Z) :
  OpenWithConfig [] script cfg = Some (Opened app0 err0) ->
  entrySizeLen (MaxEntrySize cfg) = Some hw ->
  run app0 cs = Some (app, offs) ->
  totalLen hw (concat (map payloads cs)) < 2 ^ 63 ->
  asize app = totalLen hw (concat (map payloads cs)).
Proof.
  intros O E R Hb.
  destruct (open_empty _ _ _ _ O) as (hw' & E' & Hl & [W1 W2] & Hs).
  assert (Hl' : len (bufRWEntrySize (shm app0)) = hw) by congruence.
  destruct (run_ok _ _ _ _ hw R (eq_sym Hl') W2) as (_ & ->); lia.
Qed.

Lemma C5_size_is_total_witness :
  asize (fst afterSomeCalls) = 19
  /\ asize (fst afterSomeCalls) = totalLen 2 (concat (map payloads someCalls)).
Proof.
  split; [vm_compute; reflexivity |].
  apply (C5_size_is_total [] smallCfg emptyLog (fst afterSomeCalls)
           None someCalls (snd afterSomeCalls) 2).
  - vm_compute. reflexivity.
  - vm_compute. reflexivity.
  - vm_compute. reflexivity.
  - vm_compute. reflexivity.
Defined.

(** ** Random reads *)

Lemma Bufio_Read_at_end (f : OS.File) (n : Z) :
  0 < n -> drop (OS.pos f) (OS.data f) = [] ->
  Bufio.Read f [] n = (f, [], [], Some EOF).
Proof.
  intros Hn Hd. unfold Bufio.Read.
  replace (n =? 0) with false by (symmetry; apply Z.eqb_neq; lia).
  assert (R : forall k, 0 < k -> OS.Read f k = (f, [], Some EOF)).
  { intros k Hk. unfold OS.Read.
    replace (k <=? 0) with false by (symmetry; apply Z.leb_gt; lia).
    rewrite Hd. unfold take. now rewrite firstn_nil. }
  destruct (Bufio.bufsz <=? n).
  - now rewrite (R n Hn).
  - now rewrite (R Bufio.bufsz) by (unfold Bufio.bufsz; lia).
Qed.



(** C10, as amended.  On an open log whose file holds no byte at or after
    the offset equal to the size of the log, [Read] at that offset is not
    refused: it returns an entry of size 0 whose [incomplete] is false, the
    decode step having returned before it sets the flag, together with
    [io.EOF]. *)
Theorem C10_read_at_size (app : Appender) :
  closed app = false -> WF app ->
  0 <= asize app -> 0 <= baseOffset app ->
  baseOffset app + asize app < 2 ^ 63 ->
  len (OS.data (file app)) <= baseOffset app + asize app ->
  exists app',
    Read app (asize app)
    = (app', Some (mkEntry (asize app) 0 [] false), Some EOF).
Proof.
  intros Hc Wf Hs Hb Hw Hl. unfold Read. rewrite Hc.
  replace ((asize app <? 0) || (asize app <? asize app)) with false
    by (symmetry; apply orb_false_iff; split; apply Z.ltb_ge; lia).
  unfold seek.
  rewrite wrap64_small by (change (2 ^ 63) with 9223372036854775808 in *; lia).
  replace (baseOffset app + asize app <? 0) with false
    by (symmetry; apply Z.ltb_ge; lia).
  cbn [is_some]. unfold Entry_read.
  pose proof (WF_hw_pos _ Wf) as Hhw.
  cbn [shm set_io file rd wr].
  rewrite len_zeros by lia.
  set (f1 := OS.Seek (file app) (baseOffset app + asize app)).
  assert (Hd : drop (OS.pos f1) (OS.data f1) = []) by (apply drop_all; cbn; lia).
  rewrite (Bufio_Read_at_end f1 _ Hhw Hd).
  cbn. eexists. reflexivity.
Qed.

Lemma C10_read_at_size_witness :
  exists app',
    Read emptyLog (asize emptyLog)
    = (app', Some (mkEntry (asize emptyLog) 0 [] false), Some EOF).
Proof.
  apply (C10_read_at_size emptyLog).
  - reflexivity.
  - split; [left |]; reflexivity.
  - vm_compute. discriminate.
  - vm_compute. discriminate.
  - vm_compute. reflexivity.
  - vm_compute. discriminate.
Defined.

(** C10, as stated, fails on the log opened on an empty file: [Read] at
    offset 0, the size of the log, returns an entry whose [incomplete] is
    false. *)
Lemma C10_counterexample :
  ~ (exists app' e,
        Read emptyLog (asize emptyLog) = (app', Some e, Some EOF)
        /\ size e = 0 /\ incomplete e = true).
Proof.
  intros (app' & e & R & _ & Hi).
  vm_compute in R. injection R as _ <-. discriminate.
Qed.





(** ** Where the code departs from the claims *)

(** C2.  The file [tornPayload] holds one complete frame and a frame that
    lacks one byte of payload and the flag: two bytes.  Opening the log
    writes three, the size of the payload and one, since the decode step
    forgets the byte it had read.  A traversal of the file so repaired
    decodes three records, not two, finds bytes missing twice more, and
    writes again. *)
Theorem C2_repair_overshoots :
  OS.data (file repairedOnce) = tornPayload ++ [x00; x00; x01]
  /\ asize repairedOnce = 4
  /\ map (fun r => (size (fst (fst r)), snd (fst r))) (reads (traceOf secondPass))
     = [(1, 0); (2, 1); (1, 3); (0, 0)]
  /\ map (fun r => (Bytes (fst (fst r)), incomplete (fst (fst r))))
         (folds (traceOf secondPass))
     = [([x55], false); ([xaa; x00], true); ([xaa], true)]
  /\ OS.data (file (logOf secondPass repairedOnce))
     = tornPayload ++ [x00; x00; x01] ++ [x01] ++ [x00; x00; x01].
Proof. vm_compute. repeat split. Qed.

(** C3.  On the log opened on a file with a torn frame, the size of the log
    leaves out the frame the open has just padded: [Append] of the payload
    [[9]] returns offset 0, where the padded frame is, and [Read] of that
    offset returns the padded frame, of payload [[0]] and incomplete. *)
Theorem C3_roundtrip_fails_after_repair :
  closed afterRepair = false
  /\ asize afterRepair = 0
  /\ OS.data (file afterRepair) = [x01; x00; x00; x01]
  /\ snd appended = Ok 0
  /\ OS.data (file (fst appended)) = [x01; x00; x00; x01] ++ frame 2 [x09]
  /\ option_map (fun e => (size e, Bytes e, incomplete e)) (snd (fst readBack))
     = Some (1, [x00], true)
  /\ snd readBack = None.
Proof. vm_compute. repeat split. Qed.

(** C6.  [AppendBulk] of the batch [[[1]]; []] is refused with
    [ErrInvalidArguments], the size is not advanced and the log is not
    closed; but the frame of the first payload stays in the buffer of the
    writer.  The next [Append], of [[7]], flushes it to the file before its
    own frame and returns offset 0, where [Read] finds the payload [[1]] of
    the refused batch. *)
Theorem C6_rejected_batch_leaves_bytes :
  snd rejected = Err ErrInvalidArguments
  /\ asize (fst rejected) = asize emptyLog
  /\ closed (fst rejected) = false
  /\ OS.data (file (fst rejected)) = []
  /\ Bufio.wbuf (wr (fst rejected)) = frame 2 [x01]
  /\ snd appendedNext = Ok 0
  /\ OS.data (file (fst appendedNext)) = frame 2 [x01] ++ frame 2 [x07]
  /\ option_map (fun e => (size e, Bytes e, incomplete e)) (snd (fst readNext))
     = Some (1, [x01], false).
Proof. vm_compute. repeat split. Qed.

(** ** The fuel of the inner loops is enough, and the buffers keep their lengths *)

Lemma Write_loop_settled (fuel : nat) (f f' : OS.File) (p : list byte)
                         (n nn : Z) (e : option error) :
  OS.Write f p = (f', n, e) ->
  Bufio.Write_loop fuel f' (Bufio.mkWriter [] e) (drop n p) nn
  = (f', Bufio.mkWriter [] e, drop n p, nn).
Proof.
  intro W. destruct fuel as [| fuel]; [reflexivity |].
  cbn [Bufio.Write_loop Bufio.wbuf Bufio.werr].
  destruct (OS_Write_spec _ _ _ _ _ W) as (_ & [(-> & _ & _ & -> & _) | (_ & He)]).
  - rewrite drop_all by lia. reflexivity.
  - destruct He as [-> | ->]; now rewrite andb_false_r.
Qed.

Lemma Write_loop_eq (fuel : nat) (f : OS.File) (w : Bufio.Writer)
                    (p : list byte) (nn : Z) :
  Bufio.Write_loop (S fuel) f w p nn
  = if (Bufio.bufsz - len (Bufio.wbuf w) <? len p) && is_none (Bufio.werr w) then
      match Bufio.wbuf w with
      | [] =>
          let '(f', n, e) := OS.Write f p in
          Bufio.Write_loop fuel f' (Bufio.mkWriter [] e) (drop n p) (nn + n)
      | _ =>
          let n := Z.min (Bufio.bufsz - len (Bufio.wbuf w)) (len p) in
          let '(f', w', _) :=
            Bufio.Flush f (Bufio.mkWriter (Bufio.wbuf w ++ take n p)
                                          (Bufio.werr w)) in
          Bufio.Write_loop fuel f' w' (drop n p) (nn + n)
      end
    else (f, w, p, nn).
Proof. reflexivity. Qed.

(** With an empty buffer one turn is enough. *)
Lemma Write_loop_empty (fuel : nat) (f : OS.File) (w : Bufio.Writer)
                       (p : list byte) (nn : Z) :
  Bufio.wbuf w = [] ->
  Bufio.Write_loop (S fuel) f w p nn = Bufio.Write_loop 1 f w p nn.
Proof.
  intro Wb. rewrite (Write_loop_eq fuel), (Write_loop_eq 0), Wb.
  destruct ((Bufio.bufsz - len (@nil byte) <? len p) && is_none (Bufio.werr w));
    [| reflexivity].
  destruct (OS.Write f p) as [[f1 n] e1] eqn:OW.
  now rewrite !(Write_loop_settled _ _ _ _ _ _ _ OW).
Qed.

Lemma Flush_nonempty (f f' : OS.File) (w w' : Bufio.Writer) (e : option error) :
  Bufio.wbuf w <> [] -> Bufio.werr w = None ->
  Bufio.Flush f w = (f', w', e) ->
  Bufio.wbuf w' = [] \/ Bufio.werr w' <> None.
Proof.
  intros Wb We F. unfold Bufio.Flush in F. rewrite We in F.
  destruct (Bufio.wbuf w) as [| b0 bs]; [congruence |].
  destruct (OS.Write f (b0 :: bs)) as [[f2 m] e2].
  destruct (if (m <? len (b0 :: bs)) && is_none e2 then Some ErrShortWrite else e2);
    inversion F; subst; cbn; [right; discriminate | left; reflexivity].
Qed.

Lemma Write_loop_fuel (k : nat) (f : OS.File) (w : Bufio.Writer) (p : list byte)
                      (nn : Z) :
  Bufio.Write_loop (3 + k) f w p nn = Bufio.Write_loop 3 f w p nn.
Proof.
  change (3 + k)%nat with (S (S (S k))).
  rewrite (Write_loop_eq (S (S k))), (Write_loop_eq 2).
  destruct ((Bufio.bufsz - len (Bufio.wbuf w) <? len p) && is_none (Bufio.werr w))
    eqn:Cnd; [| reflexivity].
  apply andb_true_iff in Cnd. destruct Cnd as [_ Ce].
  destruct (Bufio.wbuf w) as [| b0 bs] eqn:Wb.
  - destruct (OS.Write f p) as [[f1 n] e1] eqn:OW.
    now rewrite !(Write_loop_settled _ _ _ _ _ _ _ OW).
  - cbv zeta.
    set (n := Z.min (Bufio.bufsz - len (b0 :: bs)) (len p)).
    set (w0 := Bufio.mkWriter ((b0 :: bs) ++ take n p) (Bufio.werr w)).
    destruct (Bufio.Flush f w0) as [[f1 w1] e1] eqn:FL.
    assert (Hw0 : Bufio.wbuf w0 <> []) by (subst w0; cbn; discriminate).
    assert (He0 : Bufio.werr w0 = None)
      by (subst w0; cbn; destruct (Bufio.werr w); [discriminate | reflexivity]).
    destruct (Flush_nonempty _ _ _ _ _ Hw0 He0 FL) as [Hw1 | He1].
    + rewrite (Write_loop_empty (S k)), (Write_loop_empty 1) by exact Hw1.
      reflexivity.
    + destruct (Bufio.werr w1) as [x |] eqn:We; [| congruence].
      now rewrite !(Write_loop_sticky _ _ _ _ _ x We).
Qed.

Lemma read_payload_fuel (fuel : nat) :
  forall (k : nat) (f : OS.File) (rb bs : list byte) (sz rc : Z)
         (err : option error),
  0 <= OS.pos f -> 0 <= rc -> sz <= len bs ->
  len (stream f rb) < Z.of_nat fuel ->
  read_payload (fuel + k) f rb bs sz rc err = read_payload fuel f rb bs sz rc err.
Proof.
  induction fuel as [| fuel IH]; intros k f rb bs sz rc err Hp Hrc Hb Hl.
  { pose proof (len_nonneg (stream f rb)). lia. }
  cbn [Nat.add read_payload].
  destruct ((rc <? sz) && is_none err) eqn:Cnd; [| reflexivity].
  apply andb_true_iff in Cnd. destruct Cnd as [Cr Ce].
  apply Z.ltb_lt in Cr.
  assert (Ht : len (take sz bs) = sz) by (rewrite len_take; lia).
  rewrite Ht.
  destruct (Bufio.Read f rb sz) as [[[f1 rb1] c] e1] eqn:BR.
  assert (Hsz : 0 < sz) by lia.
  destruct (Bufio_Read_spec _ _ _ _ _ _ _ Hp Hsz BR)
    as (Hs & _ & Hp1 & _ & Hnil & Hcons).
  destruct (unexpected e1); [reflexivity |].
  assert (Hb1 : sz <= len (copy (take sz bs) c ++ drop sz bs)).
  { rewrite len_app, len_copy, <- len_app, take_drop. exact Hb. }
  destruct c as [| y l].
  - destruct (Hnil eq_refl) as [-> _].
    now rewrite !read_payload_done by (cbn; apply andb_false_r).
  - apply IH; auto; try apply len_nonneg.
    rewrite Hs, len_app, len_cons in Hl. pose proof (len_nonneg l). lia.
Qed.

Lemma AppendBulk_loop_lens (bss : list (list byte)) :
  forall (app app' : Appender) (offs : list Z) (wb : Z)
         (r : result (list Z * Z)),
  AppendBulk_loop app bss offs wb = (app', r) ->
  len (bufRWEntrySize (shm app')) = len (bufRWEntrySize (shm app))
  /\ len (bufRWEntryFlag (shm app')) = len (bufRWEntryFlag (shm app)).
Proof.
  induction bss as [| bs rest IH]; intros app app' offs wb r L;
    cbn [AppendBulk_loop] in L.
  { inversion L; subst. auto. }
  destruct (len bs =? 0); [inversion L; subst; auto |].
  destruct (maxEntrySize app <? len bs); [inversion L; subst; auto |].
  set (hbuf := writeInt (bufRWEntrySize (shm app)) (len bs)) in *.
  assert (Hh : len hbuf = len (bufRWEntrySize (shm app)))
    by (subst hbuf; apply len_writeInt).
  cbn [file wr set_sizebuf set_shm] in L.
  destruct (Bufio.Write (file app) (wr app) hbuf) as [[[f1 w1] n1] e1].
  destruct (negb (n1 =? len hbuf) || is_some e1);
    [inversion L; subst; cbn; auto |].
  destruct (Bufio.Write f1 w1 bs) as [[[f2 w2] n2] e2].
  destruct (negb (n2 =? len bs) || is_some e2);
    [inversion L; subst; cbn; auto |].
  destruct (Bufio.WriteByte f2 w2 fCompleteEntry) as [[f3 w3] e3].
  destruct (is_some e3); [inversion L; subst; cbn; auto |].
  destruct (IH _ _ _ _ _ L) as [I1 I2]. cbn in I1, I2. split; congruence.
Qed.

Lemma FoldLoop_lens {H : Type} `{FoldHandler H} (fuel : nat) :
  forall (app app' : Appender) (h h' : H) (o : Z) (err : option error)
         (tr : list Event),
  0 <= OS.pos (file app) ->
  FoldLoop fuel app h o = Some (app', h', err, tr) ->
  len (bufRWEntrySize (shm app')) = len (bufRWEntrySize (shm app))
  /\ len (bufRWEntryFlag (shm app')) = len (bufRWEntryFlag (shm app)).
Proof.
  induction fuel as [| fuel IH]; intros app app' h h' o err tr Hp L;
    [discriminate |].
  cbn [FoldLoop] in L.
  destruct (FoldBody app h o) as [[[app1 h1] evs] ctl] eqn:FB.
  pose proof (FoldBody_out _ _ _ _ _ _ _ FB) as B.
  destruct (BodyOut_continue _ _ _ _ _ _ _ Hp B) as (Hp1 & L1 & L2 & _).
  destruct ctl as [e1 | o'].
  - inversion L; subst. auto.
  - destruct (FoldLoop fuel app1 h1 o') as [[[[a2 h2] e2] tr2] |] eqn:L';
      [| discriminate].
    cbn in L. inversion L; subst; clear L.
    destruct (IH _ _ _ _ _ _ _ Hp1 L') as [I1 I2]. split; congruence.
Qed.

(** The buffers have the lengths [entrySizeLen] chose from the opening on:
    [readInt] and [writeInt] are never given another length. *)
Theorem hw_ok :
  (forall contents script cfg app err,
      OpenWithConfig contents script cfg = Some (Opened app err) -> WF app)
  /\ (forall app bss app' r, AppendBulk app bss = (app', r) -> WF app -> WF app')
  /\ (forall app o app' e err, Read app o = (app', e, err) -> WF app -> WF app')
  /\ (forall (H : Type) (FH : FoldHandler H) app (h : H) app' h' err tr,
      FoldWithHandler app h = Some (app', h', err, tr) -> WF app -> WF app').
Proof.
  assert (HF : forall (H : Type) (FH : FoldHandler H) app (h : H) app' h' err tr,
      FoldWithHandler app h = Some (app', h', err, tr) -> WF app -> WF app').
  { intros H FH app h app' h' err tr F [W1 W2]. unfold FoldWithHandler in F.
    destruct (closed app); [inversion F; subst; split; auto |].
    destruct (seek app 0) as [app1 [x |]] eqn:S.
    { unfold seek in S. destruct (wrap64 (baseOffset app + 0) <? 0);
        [| discriminate].
      injection S as <- <-. inversion F; subst. split; auto. }
    destruct (seek_spec _ _ _ S) as [-> Hp].
    match type of F with
    | FoldLoop _ ?a _ _ = _ => assert (Hp' : 0 <= OS.pos (file a)) by exact Hp
    end.
    destruct (FoldLoop_lens _ _ _ _ _ _ _ _ Hp' F) as [L1 L2].
    cbn in L1, L2. split; congruence. }
  splits.
  - intros contents script cfg app err O. unfold OpenWithConfig in O.
    destruct ((MaxEntrySize cfg <? 1) || (BaseOffset cfg <? 0)); [discriminate |].
    destruct (entrySizeLen (MaxEntrySize cfg)) as [hw |] eqn:E; [| discriminate].
    destruct (newAppender_WF contents script cfg hw (entrySizeLen_cases _ _ E))
      as [Wf _].
    destruct (FoldWithHandler _ _) as [[[[a1 h1] e1] tr1] |] eqn:F; [| discriminate].
    injection O as <- <-. exact (HF _ _ _ _ _ _ _ _ F Wf).
  - intros app bss app' r A [W1 W2]. unfold AppendBulk in A.
    destruct (closed app); [inversion A; subst; split; auto |].
    destruct bss as [| bs rest]; [inversion A; subst; split; auto |].
    destruct (AppendBulk_loop app (bs :: rest) [] 0) as [app1 r1] eqn:L.
    destruct (AppendBulk_loop_lens _ _ _ _ _ _ L) as [L1 L2].
    destruct r1 as [[offs wb] | e].
    + destruct (Bufio.Flush (file app1) (wr app1)) as [[f2 w2] e2].
      destruct (is_some e2); inversion A; subst; split; cbn; congruence.
    + inversion A; subst. split; congruence.
  - intros app o app' e err R [W1 W2]. unfold Read in R.
    destruct (closed app); [inversion R; subst; split; auto |].
    destruct ((o <? 0) || (asize app <? o)); [inversion R; subst; split; auto |].
    destruct (seek app o) as [app1 [x |]] eqn:S.
    { unfold seek in S. destruct (wrap64 (baseOffset app + o) <? 0);
        [| discriminate].
      injection S as <- <-. inversion R; subst. split; auto. }
    destruct (seek_spec _ _ _ S) as [-> Hp]. cbn [is_some] in R.
    match type of R with
    | context [Entry_read ?e0 ?a] =>
        destruct (Entry_read e0 a) as [[[a2 e2] mb] err2] eqn:ER;
        assert (Hp' : 0 <= OS.pos (file a)) by exact Hp;
        destruct (Entry_read_frame _ _ _ _ _ _ Hp' ER)
          as ((_ & _ & _ & _ & _ & _ & _ & K8 & K9) & _)
    end.
    inversion R; subst; clear R. cbn in K8, K9. split; congruence.
  - exact HF.
Qed.

(** A read of the buffered reader that meets the end of its buffer returns
    fewer bytes than asked, and the decode step takes a header cut this way
    for a torn one.  Opening [manyFrames], whose frames are all complete,
    writes four bytes of padding after them. *)
Theorem short_read_pads_a_complete_file :
  len manyFrames = 4100
  /\ closed manyLog = false
  /\ OS.data (file manyLog) = manyFrames ++ [x00; x00; x00; x01].
Proof. vm_compute. repeat split. Qed.

(** The same cut in a payload: the loop of the decode step starts the payload
    again at each read and counts the last read only.  A payload of 5000
    bytes appended to an empty log is read back incomplete, with [io.EOF]
    and other bytes. *)
Theorem short_read_breaks_round_trip :
  snd longAppended = Ok 0
  /\ len (OS.data (file (fst longAppended))) = 5003
  /\ option_map (fun e => (size e, incomplete e, nth 906 (Bytes e) x00,
                           nth 4999 (Bytes e) x07))
                (snd (fst longReadBack))
     = Some (5000, true, x02, x00)
  /\ snd longReadBack = Some EOF.
Proof. vm_compute. repeat split. Qed.

(** ** The size header *)

Lemma two_bytes (n : Z) :
  n mod 256 + 256 * ((n / 256) mod 256) = n mod 65536.
Proof.
  change 65536 with (256 * 256). rewrite Z.rem_mul_r by lia. reflexivity.
Qed.

Lemma four_bytes (n : Z) :
  n mod 256 + 256 * ((n / 256) mod 256) + 65536 * ((n / 65536) mod 256)
  + 16777216 * ((n / 16777216) mod 256) = n mod 4294967296.
Proof.
  change 4294967296 with (65536 * 65536).
  rewrite (Z.rem_mul_r n 65536 65536) by lia.
  rewrite <- (two_bytes n), <- (two_bytes (n / 65536)).
  rewrite Z.div_div by lia. change (65536 * 256) with 16777216. lia.
Qed.

Lemma readInt_writeInt_mod (b : list byte) (n : Z) :
  len b = 2 \/ len b = 4 ->
  readInt (writeInt b n) = n mod 256 ^ len b.
Proof.
  intros Hl.
  destruct b as [| b0 [| b1 [| b2 [| b3 [| b4 t]]]]];
    try (exfalso; destruct Hl as [Hl | Hl]; unfold len in Hl; simpl in Hl; lia).
  - cbn [writeInt readInt]. rewrite !Z_of_byte_of_Z. apply two_bytes.
  - cbn [writeInt readInt]. rewrite !Z_of_byte_of_Z. apply four_bytes.
Qed.

(** What [writeInt] leaves in a buffer of two or four bytes, [readInt] reads
    back as the number written modulo 256 to the length of the buffer: the
    round trip is exact for a number the header can hold, and a larger one is
    cut to its low bytes, as the conversions [uint16(n)] and [uint32(n)] do. *)
Theorem header_round_trip (b : list byte) (n : Z) :
  len b = 2 \/ len b = 4 ->
  len (writeInt b n) = len b
  /\ readInt (writeInt b n) = n mod 256 ^ len b
  /\ (0 <= n < 256 ^ len b -> readInt (writeInt b n) = n).
Proof.
  intro Hl. split; [apply len_writeInt |].
  pose proof (readInt_writeInt_mod b n Hl) as E.
  split; [exact E |].
  intro Hn. rewrite E. apply Z.mod_small. exact Hn.
Qed.

Lemma header_round_trip_witness :
  len (writeInt [x00; x00] 70000) = 2
  /\ readInt (writeInt [x00; x00] 70000) = 70000 mod 256 ^ 2
  /\ (0 <= 70000 < 256 ^ 2 -> readInt (writeInt [x00; x00] 70000) = 70000).
Proof.
  apply (header_round_trip [x00; x00] 70000). left. reflexivity.
Defined.

Lemma bits_Len_le (x k : Z) : 0 < x -> 0 <= k -> (bits_Len x <=? k) = (x <? 2 ^ k).
Proof.
  intros Hx Hk. unfold bits_Len.
  replace (x =? 0) with false by (symmetry; apply Z.eqb_neq; lia).
  destruct (x <? 2 ^ k) eqn:E.
  - apply Z.ltb_lt in E. apply Z.leb_le.
    apply Z.log2_lt_pow2 in E; lia.
  - apply Z.ltb_ge in E. apply Z.leb_gt.
    assert (~ Z.log2 x < k); [| lia].
    intro Hl. apply Z.log2_lt_pow2 in Hl; lia.
Qed.

Lemma entrySizeLen_eq (m : Z) :
  1 <= m < 2 ^ 63 ->
  entrySizeLen m
  = (if m <? 2 ^ 16 then Some 2 else if m <? 2 ^ 32 then Some 4 else None).
Proof.
  intro Hm. unfold entrySizeLen.
  rewrite Z.mod_small
    by (change (2 ^ 63) with 9223372036854775808 in Hm;
        change (2 ^ 64) with 18446744073709551616; lia).
  rewrite !bits_Len_le by lia. reflexivity.
Qed.

Lemma entrySizeLen_fits (m hw : Z) :
  1 <= m < 2 ^ 63 -> entrySizeLen m = Some hw -> m < 256 ^ hw.
Proof.
  intros Hm Hhw. rewrite (entrySizeLen_eq m Hm) in Hhw.
  destruct (m <? 2 ^ 16) eqn:E16.
  - injection Hhw as <-. apply Z.ltb_lt in E16. exact E16.
  - destruct (m <? 2 ^ 32) eqn:E32; [| discriminate].
    injection Hhw as <-. apply Z.ltb_lt in E32. exact E32.
Qed.

(** The width of the size header: two bytes for a maximum entry size up to
    65535, four up to 4294967295, and a panic beyond; the width chosen holds
    every size up to the maximum. *)
Theorem entrySizeLen_width (m : Z) :
  1 <= m < 2 ^ 63 ->
  entrySizeLen m
  = (if m <? 2 ^ 16 then Some 2 else if m <? 2 ^ 32 then Some 4 else None)
  /\ (forall hw, entrySizeLen m = Some hw -> m < 256 ^ hw).
Proof.
  intro Hm. split.
  - apply entrySizeLen_eq. exact Hm.
  - intros hw Hhw. apply (entrySizeLen_fits m hw Hm Hhw).
Qed.

Lemma entrySizeLen_width_witness :
  entrySizeLen 65536
  = (if 65536 <? 2 ^ 16 then Some 2 else if 65536 <? 2 ^ 32 then Some 4 else None)
  /\ (forall hw, entrySizeLen 65536 = Some hw -> 65536 < 256 ^ hw).
Proof.
  apply (entrySizeLen_width 65536). split; [lia | reflexivity].
Defined.

(** ** The writer, call by call *)

Lemma Writer_eta (w : Bufio.Writer) :
  w = Bufio.mkWriter (Bufio.wbuf w) (Bufio.werr w).
Proof. destruct w; reflexivity. Qed.

Lemma bufsz_pos : 0 < Bufio.bufsz.
Proof. reflexivity. Qed.

Lemma OS_Write_ok (f f' : OS.File) (b : list byte) (n : Z) :
  OS.Write f b = (f', n, None) ->
  OS.data f' = OS.data f ++ b /\ n = len b.
Proof.
  intro W. destruct (OS_Write_spec _ _ _ _ _ W) as (_ & [C | (_ & [C | C])]);
    [| discriminate ..].
  destruct C as (_ & _ & Hd & Hn & _). auto.
Qed.

Lemma OS_Write_ro (f : OS.File) (b : list byte) :
  OS.writable f = false ->
  OS.Write f b
  = (OS.mkFile (OS.data f) (OS.pos f) false (OS.faults f) (S (OS.nfail f)),
     0, Some EBADF).
Proof. intro Hw. unfold OS.Write. rewrite Hw. reflexivity. Qed.

(** A flush that returns no error has put the buffer in the file. *)
Lemma Flush_ok (f f' : OS.File) (w w' : Bufio.Writer) :
  Bufio.Flush f w = (f', w', None) ->
  Bufio.werr w = None /\ w' = Bufio.mkWriter [] None
  /\ OS.data f' = OS.data f ++ Bufio.wbuf w.
Proof.
  intro F. unfold Bufio.Flush in F.
  destruct (Bufio.werr w) as [x |] eqn:We; [discriminate |].
  destruct (Bufio.wbuf w) as [| b0 bs] eqn:Wb.
  - injection F as <- <-. splits; auto.
    + rewrite (Writer_eta w), Wb, We. reflexivity.
    + now rewrite app_nil_r.
  - destruct (OS.Write f (b0 :: bs)) as [[f1 n] e1] eqn:OW.
    destruct e1 as [x |].
    + rewrite andb_false_r in F. discriminate.
    + destruct (OS_Write_ok _ _ _ _ OW) as [Hd ->].
      rewrite Z.ltb_irrefl in F. cbn [andb] in F.
      injection F as <- <-. auto.
Qed.

Lemma Flush_clean (f : OS.File) (w : Bufio.Writer) :
  OS.writable f = true -> OS.faults f = [] -> Bufio.werr w = None ->
  exists f',
    Bufio.Flush f w = (f', Bufio.mkWriter [] None, None)
    /\ OS.writable f' = true /\ OS.faults f' = []
    /\ OS.nfail f' = OS.nfail f.
Proof.
  intros Hw Hf We. unfold Bufio.Flush. rewrite We.
  destruct (Bufio.wbuf w) as [| b0 bs] eqn:Wb.
  - exists f. rewrite (Writer_eta w), Wb, We. auto.
  - rewrite (OS_Write_clean f _ Hw Hf). rewrite Z.ltb_irrefl. cbn [andb].
    eexists. split; [reflexivity |]. auto.
Qed.

Lemma Flush_ro (f f' : OS.File) (w w' : Bufio.Writer) (e : option error) :
  OS.writable f = false -> Bufio.werr w = None -> Bufio.wbuf w <> [] ->
  Bufio.Flush f w = (f', w', e) ->
  e = Some EBADF /\ OS.data f' = OS.data f /\ OS.writable f' = false.
Proof.
  intros Hw We Wb F. unfold Bufio.Flush in F. rewrite We in F.
  destruct (Bufio.wbuf w) as [| b0 bs]; [congruence |].
  rewrite (OS_Write_ro f _ Hw) in F. rewrite andb_false_r in F.
  injection F as <- <- <-. auto.
Qed.

(** [b.Write(p)] when [p] fits in what is left of the buffer. *)
Lemma Write_fits (f : OS.File) (w : Bufio.Writer) (p : list byte) :
  Bufio.werr w = None -> len (Bufio.wbuf w) + len p <= Bufio.bufsz ->
  Bufio.Write f w p = (f, Bufio.mkWriter (Bufio.wbuf w ++ p) None, len p, None).
Proof.
  intros We Hl. unfold Bufio.Write. rewrite (Write_loop_eq 2).
  replace (Bufio.bufsz - len (Bufio.wbuf w) <? len p) with false
    by (symmetry; apply Z.ltb_ge; lia).
  cbn [andb]. rewrite We. reflexivity.
Qed.

(** A write with nothing in the buffer (the loop does one turn at most). *)
Lemma Write_loop_from_empty (fuel : nat) (f : OS.File) (p : list byte) (nn : Z) :
  Bufio.Write_loop (S fuel) f (Bufio.mkWriter [] None) p nn
  = if Bufio.bufsz <? len p then
      let '(f', n, e) := OS.Write f p in
      (f', Bufio.mkWriter [] e, drop n p, nn + n)
    else (f, Bufio.mkWriter [] None, p, nn).
Proof.
  rewrite Write_loop_eq. cbn [Bufio.wbuf Bufio.werr is_none is_some negb].
  change (len (@nil byte)) with 0. rewrite Z.sub_0_r, andb_true_r.
  destruct (Bufio.bufsz <? len p); [| reflexivity].
  destruct (OS.Write f p) as [[f1 n] e1] eqn:OW.
  apply (Write_loop_settled _ _ _ _ _ _ _ OW).
Qed.

(** A write that returns no error has taken all of [p]: what the file holds
    followed by what the buffer holds has grown by [p]. *)
Lemma Write_ok (f f' : OS.File) (w w' : Bufio.Writer) (p : list byte) (n : Z) :
  len (Bufio.wbuf w) <= Bufio.bufsz ->
  Bufio.Write f w p = (f', w', n, None) ->
  n = len p /\ Bufio.werr w = None /\ Bufio.werr w' = None
  /\ len (Bufio.wbuf w') <= Bufio.bufsz
  /\ OS.data f' ++ Bufio.wbuf w' = OS.data f ++ Bufio.wbuf w ++ p.
Proof.
  intros Hb W. unfold Bufio.Write in W. rewrite (Write_loop_eq 2) in W.
  pose proof (len_nonneg p) as Hp0.
  pose proof (len_nonneg (Bufio.wbuf w)) as Hw0.
  destruct (Bufio.werr w) as [x |] eqn:We.
  { rewrite andb_false_r, We in W. discriminate. }
  rewrite andb_true_r in W.
  destruct (Bufio.bufsz - len (Bufio.wbuf w) <? len p) eqn:Cnd.
  2: { apply Z.ltb_ge in Cnd. rewrite We in W. injection W as <- <- <-.
       cbn. rewrite len_app, app_assoc. splits; auto; try lia. }
  apply Z.ltb_lt in Cnd.
  destruct (Bufio.wbuf w) as [| b0 bs] eqn:Wb.
  - destruct (OS.Write f p) as [[f1 n1] e1] eqn:OW.
    rewrite (Write_loop_settled _ _ _ _ _ _ _ OW) in W. cbn [Bufio.werr] in W.
    destruct e1 as [x |]; [discriminate |].
    destruct (OS_Write_ok _ _ _ _ OW) as [Hd ->].
    rewrite drop_all in W by lia. injection W as <- <- <-.
    cbn [Bufio.wbuf Bufio.werr List.app]. change (len (@nil byte)) with 0.
    splits; auto; try lia; try (unfold Bufio.bufsz; lia).
    now rewrite app_nil_r.
  - set (a := Bufio.bufsz - len (b0 :: bs)) in *.
    replace (Z.min a (len p)) with a in W by lia. cbv zeta in W.
    destruct (Bufio.Flush f (Bufio.mkWriter ((b0 :: bs) ++ take a p) None))
      as [[f1 w1] e1] eqn:FL.
    destruct (Flush_spec _ _ _ _ _ FL) as (_ & Hw1 & _).
    destruct e1 as [x |].
    { rewrite (Write_loop_sticky _ _ _ _ _ x Hw1) in W. rewrite Hw1 in W.
      discriminate. }
    destruct (Flush_ok _ _ _ _ FL) as (_ & -> & Hd1). cbn [Bufio.wbuf] in Hd1.
    rewrite Write_loop_from_empty in W.
    assert (Hlen : a + len (drop a p) = len p) by (rewrite len_drop by lia; lia).
    destruct (Bufio.bufsz <? len (drop a p)) eqn:C2.
    + destruct (OS.Write f1 (drop a p)) as [[f2 n2] e2] eqn:OW.
      cbn [Bufio.werr] in W. destruct e2 as [x |]; [discriminate |].
      destruct (OS_Write_ok _ _ _ _ OW) as [Hd2 ->].
      rewrite drop_all in W by lia. injection W as <- <- <-.
      cbn [Bufio.wbuf Bufio.werr List.app]. change (len (@nil byte)) with 0.
      splits; auto; try lia; try (unfold Bufio.bufsz; lia).
      rewrite app_nil_r, Hd2, Hd1, <- !app_assoc. cbn [List.app].
      now rewrite take_drop.
    + apply Z.ltb_ge in C2. cbn [Bufio.werr] in W. injection W as <- <- <-.
      cbn [Bufio.wbuf Bufio.werr List.app]. splits; auto; try lia.
      rewrite Hd1, <- !app_assoc. cbn [List.app]. now rewrite take_drop.
Qed.

Lemma Write_clean (f : OS.File) (w : Bufio.Writer) (p : list byte) :
  OS.writable f = true -> OS.faults f = [] -> Bufio.werr w = None ->
  len (Bufio.wbuf w) <= Bufio.bufsz ->
  exists f' w',
    Bufio.Write f w p = (f', w', len p, None)
    /\ OS.writable f' = true /\ OS.faults f' = []
    /\ OS.nfail f' = OS.nfail f.
Proof.
  intros Hw Hf We Hb.
  pose proof (len_nonneg p) as Hp0.
  pose proof (len_nonneg (Bufio.wbuf w)) as Hw0.
  destruct (Bufio.bufsz - len (Bufio.wbuf w) <? len p) eqn:Cnd.
  2: { apply Z.ltb_ge in Cnd. rewrite Write_fits by (auto; lia). eauto 8. }
  unfold Bufio.Write. rewrite (Write_loop_eq 2), Cnd, We. cbn [andb is_none is_some negb].
  apply Z.ltb_lt in Cnd.
  destruct (Bufio.wbuf w) as [| b0 bs] eqn:Wb.
  - rewrite (OS_Write_clean f p Hw Hf).
    rewrite (Write_loop_settled _ _ _ _ _ _ _ (OS_Write_clean f p Hw Hf)).
    cbn [Bufio.werr]. rewrite drop_all by lia.
    change (len (@nil byte)) with 0. rewrite !Z.add_0_r. eauto 8.
  - set (a := Bufio.bufsz - len (b0 :: bs)) in *.
    replace (Z.min a (len p)) with a by lia. cbv zeta.
    set (w0 := Bufio.mkWriter ((b0 :: bs) ++ take a p) None).
    destruct (Flush_clean f w0 Hw Hf eq_refl) as (f1 & FL & Hw1 & Hf1 & Hn1).
    rewrite FL. rewrite Write_loop_from_empty.
    assert (Hlen : a + len (drop a p) = len p) by (rewrite len_drop by lia; lia).
    destruct (Bufio.bufsz <? len (drop a p)) eqn:C2.
    + rewrite (OS_Write_clean f1 _ Hw1 Hf1). cbn [Bufio.werr].
      rewrite (drop_all (len (drop a p))) by lia.
      change (len (@nil byte)) with 0.
      replace (0 + a + len (drop a p) + 0) with (len p) by lia.
      do 2 eexists. split; [reflexivity |]. cbn. auto.
    + cbn [Bufio.werr]. replace (0 + a + len (drop a p)) with (len p) by lia.
      eauto 8.
Qed.

Lemma Write_ro (f f' : OS.File) (w w' : Bufio.Writer) (p : list byte) (n : Z)
               (e : option error) :
  OS.writable f = false -> Bufio.werr w = None ->
  Bufio.Write f w p = (f', w', n, e) ->
  OS.data f' = OS.data f /\ OS.writable f' = false
  /\ ((e = None /\ n = len p /\ w' = Bufio.mkWriter (Bufio.wbuf w ++ p) None)
      \/ e = Some EBADF).
Proof.
  intros Hw We W.
  destruct (Bufio.bufsz - len (Bufio.wbuf w) <? len p) eqn:Cnd.
  2: { apply Z.ltb_ge in Cnd. rewrite Write_fits in W by (auto; lia).
       injection W as <- <- <- <-. splits; auto. }
  unfold Bufio.Write in W.
  rewrite (Write_loop_eq 2), Cnd, We in W. cbn [andb is_none is_some negb] in W.
  destruct (Bufio.wbuf w) as [| b0 bs] eqn:Wb.
  - rewrite (OS_Write_ro f p Hw) in W.
    rewrite (Write_loop_settled _ _ _ _ _ _ _ (OS_Write_ro f p Hw)) in W.
    cbn [Bufio.werr] in W. injection W as <- <- <- <-. cbn. auto.
  - cbv zeta in W. set (w0 := Bufio.mkWriter _ None) in W.
    destruct (Bufio.Flush f w0) as [[f1 w1] e1] eqn:FL.
    assert (Hn0 : Bufio.wbuf w0 <> []) by (subst w0; cbn; discriminate).
    assert (He0 : Bufio.werr w0 = None) by reflexivity.
    destruct (Flush_ro f f1 w0 w1 e1 Hw He0 Hn0 FL) as (-> & Hd & Hw1).
    destruct (Flush_spec _ _ _ _ _ FL) as (_ & He1 & _).
    rewrite (Write_loop_sticky _ _ _ _ _ _ He1) in W. rewrite He1 in W.
    injection W as <- <- <- <-. auto.
Qed.

Lemma WriteByte_fits (f : OS.File) (w : Bufio.Writer) (c : byte) :
  Bufio.werr w = None -> len (Bufio.wbuf w) + 1 <= Bufio.bufsz ->
  Bufio.WriteByte f w c = (f, Bufio.mkWriter (Bufio.wbuf w ++ [c]) None, None).
Proof.
  intros We Hl. unfold Bufio.WriteByte. rewrite We.
  replace (Bufio.bufsz - len (Bufio.wbuf w) <=? 0) with false
    by (symmetry; apply Z.leb_gt; lia).
  reflexivity.
Qed.

Lemma WriteByte_ok (f f' : OS.File) (w w' : Bufio.Writer) (c : byte) :
  len (Bufio.wbuf w) <= Bufio.bufsz ->
  Bufio.WriteByte f w c = (f', w', None) ->
  Bufio.werr w = None /\ Bufio.werr w' = None
  /\ len (Bufio.wbuf w') <= Bufio.bufsz
  /\ OS.data f' ++ Bufio.wbuf w' = OS.data f ++ Bufio.wbuf w ++ [c].
Proof.
  intros Hb W.
  destruct (Bufio.werr w) as [x |] eqn:We.
  { unfold Bufio.WriteByte in W. rewrite We in W. discriminate. }
  destruct (Bufio.bufsz - len (Bufio.wbuf w) <=? 0) eqn:Cnd.
  - unfold Bufio.WriteByte in W. rewrite We, Cnd in W.
    destruct (Bufio.Flush f w) as [[f1 w1] e1] eqn:FL.
    destruct (Flush_spec _ _ _ _ _ FL) as (_ & He1 & _).
    destruct e1 as [x |]; [rewrite He1 in W; discriminate |].
    destruct (Flush_ok _ _ _ _ FL) as (_ & -> & Hd).
    injection W as <- <-. cbn. splits; auto.
    + unfold len, Bufio.bufsz; simpl; lia.
    + now rewrite Hd, app_assoc.
  - apply Z.leb_gt in Cnd. rewrite WriteByte_fits in W by (auto; lia).
    injection W as <- <-. cbn. rewrite len_app. splits; auto.
    change (len [c]) with 1. lia.
Qed.

Lemma WriteByte_clean (f : OS.File) (w : Bufio.Writer) (c : byte) :
  OS.writable f = true -> OS.faults f = [] -> Bufio.werr w = None ->
  exists f' w',
    Bufio.WriteByte f w c = (f', w', None)
    /\ OS.writable f' = true /\ OS.faults f' = []
    /\ OS.nfail f' = OS.nfail f.
Proof.
  intros Hw Hf We. unfold Bufio.WriteByte. rewrite We.
  destruct (Bufio.bufsz - len (Bufio.wbuf w) <=? 0).
  - destruct (Flush_clean f w Hw Hf We) as (f1 & FL & Hw1 & Hf1 & Hn1).
    rewrite FL. cbn. eauto 8.
  - eauto 8.
Qed.

Lemma WriteByte_ro (f f' : OS.File) (w w' : Bufio.Writer) (c : byte)
                   (e : option error) :
  OS.writable f = false -> Bufio.werr w = None ->
  Bufio.WriteByte f w c = (f', w', e) ->
  OS.data f' = OS.data f /\ OS.writable f' = false
  /\ ((e = None /\ w' = Bufio.mkWriter (Bufio.wbuf w ++ [c]) None)
      \/ e = Some EBADF).
Proof.
  intros Hw We W. unfold Bufio.WriteByte in W. rewrite We in W.
  destruct (Bufio.bufsz - len (Bufio.wbuf w) <=? 0) eqn:Cnd.
  - destruct (Bufio.Flush f w) as [[f1 w1] e1] eqn:FL.
    assert (Hn0 : Bufio.wbuf w <> []).
    { intro E. rewrite E in Cnd. discriminate. }
    destruct (Flush_ro _ _ _ _ _ Hw We Hn0 FL) as (-> & Hd & Hw1).
    destruct (Flush_spec _ _ _ _ _ FL) as (_ & He1 & _).
    rewrite He1 in W. injection W as <- <- <-. auto.
  - injection W as <- <- <-. auto.
Qed.

(** ** Appending, frame by frame *)

Lemma writeInt_zeros (b : list byte) (n : Z) :
  len b = 2 \/ len b = 4 -> writeInt b n = writeInt (zeros (len b)) n.
Proof.
  intro Hl.
  destruct b as [| b0 [| b1 [| b2 [| b3 [| b4 t]]]]];
    try (exfalso; destruct Hl as [Hl | Hl]; unfold len in Hl; simpl in Hl; lia);
    reflexivity.
Qed.

Lemma frames_cons (hw : Z) (p : list byte) (ps : list (list byte)) :
  frames hw (p :: ps) = frame hw p ++ frames hw ps.
Proof. reflexivity. Qed.

Lemma frames_app (hw : Z) (a b : list (list byte)) :
  frames hw (a ++ b) = frames hw a ++ frames hw b.
Proof. unfold frames. now rewrite map_app, concat_app. Qed.

Lemma frame_nonnil (hw : Z) (p : list byte) : frame hw p <> [].
Proof.
  unfold frame. intro E. apply app_eq_nil in E. destruct E as [_ E].
  apply app_eq_nil in E. destruct E as [_ E]. discriminate.
Qed.

Lemma frames_nonnil (hw : Z) (ps : list (list byte)) :
  ps <> [] -> frames hw ps <> [].
Proof.
  destruct ps as [| p ps]; [congruence |]. intros _ E.
  rewrite frames_cons in E. apply app_eq_nil in E. destruct E as [E _].
  now apply frame_nonnil in E.
Qed.

Lemma drop_app_le {A : Type} (n : Z) (a b : list A) :
  n <= len a -> drop n (a ++ b) = drop n a ++ b.
Proof.
  intro Hn. unfold drop. rewrite skipn_app.
  replace (Z.to_nat n - length a)%nat with 0%nat by (unfold len in Hn; lia).
  reflexivity.
Qed.

(** What a run of the loop of [AppendBulk] that reaches its end has done:
    the frames of the batch follow, in the file and then in the buffer, what
    was there. *)
Lemma AppendBulk_loop_content (bss : list (list byte)) :
  forall (app app' : Appender) (offs : list Z) (wb : Z) (x : list Z * Z) (hw : Z),
  AppendBulk_loop app bss offs wb = (app', Ok x) ->
  hw = len (bufRWEntrySize (shm app)) -> hw = 2 \/ hw = 4 ->
  len (Bufio.wbuf (wr app)) <= Bufio.bufsz ->
  len (Bufio.wbuf (wr app')) <= Bufio.bufsz
  /\ (bss <> [] -> Bufio.werr (wr app') = None)
  /\ OS.data (file app') ++ Bufio.wbuf (wr app')
     = OS.data (file app) ++ Bufio.wbuf (wr app) ++ frames hw bss
  /\ Forall (accepted app) bss
  /\ maxEntrySize app' = maxEntrySize app /\ baseOffset app' = baseOffset app
  /\ closed app' = closed app /\ aerr app' = aerr app.
Proof.
  induction bss as [| bs rest IH]; intros app app' offs wb x hw L Ehw Hw Hb;
    cbn [AppendBulk_loop] in L.
  { injection L as <- _. cbn [frames map concat]. rewrite !app_nil_r.
    splits; auto. congruence. }
  destruct (len bs =? 0) eqn:E0; [discriminate |].
  destruct (maxEntrySize app <? len bs) eqn:Em; [discriminate |].
  apply Z.eqb_neq in E0. apply Z.ltb_ge in Em.
  set (hbuf := writeInt (bufRWEntrySize (shm app)) (len bs)) in *.
  assert (Hhb : len hbuf = hw) by (subst hbuf; rewrite len_writeInt; congruence).
  assert (Hfr : frame hw bs = hbuf ++ bs ++ [fCompleteEntry]).
  { unfold frame. subst hbuf. rewrite (writeInt_zeros (bufRWEntrySize (shm app)))
      by (rewrite <- Ehw; exact Hw).
    now rewrite <- Ehw. }
  cbn [file wr set_sizebuf set_shm] in L.
  destruct (Bufio.Write (file app) (wr app) hbuf) as [[[f1 w1] n1] e1] eqn:W1.
  destruct (negb (n1 =? len hbuf) || is_some e1) eqn:C1; [discriminate |].
  apply orb_false_iff in C1. destruct C1 as [_ C1].
  destruct e1; [discriminate |]. clear C1.
  destruct (Write_ok _ _ _ _ _ _ Hb W1) as (_ & _ & _ & Hb1 & D1).
  destruct (Bufio.Write f1 w1 bs) as [[[f2 w2] n2] e2] eqn:W2.
  destruct (negb (n2 =? len bs) || is_some e2) eqn:C2; [discriminate |].
  apply orb_false_iff in C2. destruct C2 as [_ C2].
  destruct e2; [discriminate |]. clear C2.
  destruct (Write_ok _ _ _ _ _ _ Hb1 W2) as (_ & _ & _ & Hb2 & D2).
  destruct (Bufio.WriteByte f2 w2 fCompleteEntry) as [[f3 w3] e3] eqn:W3.
  destruct (is_some e3) eqn:C3; [discriminate |].
  destruct e3; [discriminate |]. clear C3.
  destruct (WriteByte_ok _ _ _ _ _ Hb2 W3) as (_ & He3 & Hb3 & D3).
  destruct (IH _ _ _ _ _ hw L) as (I1 & I2 & I3 & I4 & I5 & I6 & I7 & I8);
    [cbn; congruence | exact Hw | exact Hb3 |].
  cbn in I3, I5, I6, I7, I8.
  splits; auto.
  - intros _. destruct rest as [| r rest']; [| apply I2; discriminate].
    cbn [AppendBulk_loop] in L. injection L as <- _. exact He3.
  - rewrite I3, (app_assoc (OS.data f3)), D3, (app_assoc (OS.data f2)), D2,
      (app_assoc (OS.data f1)), D1, frames_cons, Hfr, <- !app_assoc.
    reflexivity.
  - constructor; [split; [pose proof (len_nonneg bs); lia | exact Em] |].
    exact I4.
Qed.

(** A call of [AppendBulk] that returned offsets. *)
Lemma AppendBulk_content (app app' : Appender) (bss : list (list byte))
                         (offs : list Z) (hw : Z) :
  AppendBulk app bss = (app', Ok offs) ->
  hw = len (bufRWEntrySize (shm app)) -> hw = 2 \/ hw = 4 ->
  len (Bufio.wbuf (wr app)) <= Bufio.bufsz ->
  wr app' = Bufio.mkWriter [] None
  /\ OS.data (file app')
     = OS.data (file app) ++ Bufio.wbuf (wr app) ++ frames hw bss
  /\ bss <> [] /\ Forall (accepted app) bss
  /\ maxEntrySize app' = maxEntrySize app /\ baseOffset app' = baseOffset app
  /\ closed app' = false /\ aerr app' = aerr app.
Proof.
  intros A Ehw Hw Hb. unfold AppendBulk in A.
  destruct (closed app) eqn:Hc; [discriminate |].
  destruct bss as [| bs rest]; [discriminate |].
  destruct (AppendBulk_loop app (bs :: rest) [] 0) as [app1 [[offs1 wb1] | e]] eqn:L;
    [| discriminate].
  destruct (AppendBulk_loop_content _ _ _ _ _ _ hw L Ehw Hw Hb)
    as (I1 & I2 & I3 & I4 & I5 & I6 & I7 & I8).
  destruct (Bufio.Flush (file app1) (wr app1)) as [[f2 w2] e2] eqn:FL.
  destruct e2 as [y |]; [discriminate |]. cbn [is_some] in A.
  destruct (Flush_ok _ _ _ _ FL) as (_ & -> & Hd).
  injection A as <- <-. cbn.
  splits; auto; try congruence. now rewrite Hd, I3.
Qed.

Lemma stores_sizes (app : Appender) (ps : list (list byte)) :
  stores app ps ->
  0 <= len (bufRWEntrySize (shm app))
  /\ 0 <= totalLen (len (bufRWEntrySize (shm app))) ps
  /\ baseOffset app + totalLen (len (bufRWEntrySize (shm app))) ps
     = len (OS.data (file app)).
Proof.
  intros (_ & _ & _ & _ & Hbase & _ & Hd & _).
  pose proof (len_nonneg (bufRWEntrySize (shm app))) as Hh.
  splits; auto.
  - now apply totalLen_nonneg.
  - rewrite <- len_frames, <- Hd, len_drop by lia. lia.
Qed.

(** A successful [AppendBulk] takes a log that stores [ps] to one that
    stores [ps ++ bss]. *)
Lemma AppendBulk_keeps (app app' : Appender) (ps bss : list (list byte))
                       (offs : list Z) :
  let hw := len (bufRWEntrySize (shm app)) in
  stores app ps ->
  AppendBulk app bss = (app', Ok offs) ->
  len (OS.data (file app)) + totalLen hw bss < 2 ^ 63 ->
  stores app' (ps ++ bss)
  /\ offs = offsetsFrom hw (asize app) bss
  /\ OS.data (file app') = OS.data (file app) ++ frames hw bss
  /\ Forall (accepted app) bss
  /\ len (bufRWEntrySize (shm app')) = hw.
Proof.
  intros hw St A Hbd.
  destruct (stores_sizes _ _ St) as (Hh0 & Ht0 & Hlen). fold hw in Hh0, Ht0, Hlen.
  destruct St as (Hc & Wf & Hwr & Hmax & Hbase & Hfile & Hd & Hfit & Hsz).
  fold hw in Hmax, Hd, Hfit, Hsz.
  pose proof Wf as [Hw Hfl]. fold hw in Hw.
  assert (Hb : len (Bufio.wbuf (wr app)) <= Bufio.bufsz)
    by (rewrite Hwr; cbn; unfold len, Bufio.bufsz; simpl; lia).
  destruct (AppendBulk_content _ _ _ _ hw A eq_refl Hw Hb)
    as (Hwr' & Hd' & Hne & Hacc & Hm' & Hb' & Hc' & _).
  rewrite Hwr in Hd'. cbn [Bufio.wbuf List.app] in Hd'.
  destruct (AppendBulk_ok _ _ _ _ hw A eq_refl Hfl) as (Ho & Hs' & Hl1 & Hl2);
    [lia | lia |].
  pose proof (totalLen_nonneg hw bss Hh0) as Htb.
  assert (S1 : WF app') by (split; [rewrite Hl1; exact Hw | exact Hl2]).
  assert (S2 : maxEntrySize app' < 256 ^ hw) by congruence.
  assert (S3 : 0 <= baseOffset app' <= len (OS.data (file app'))).
  { rewrite Hb', Hd', len_app. pose proof (len_nonneg (frames hw bss)). lia. }
  assert (S4 : len (OS.data (file app')) < 2 ^ 63).
  { rewrite Hd', len_app, len_frames by assumption. lia. }
  assert (S5 : drop (baseOffset app') (OS.data (file app')) = frames hw (ps ++ bss)).
  { rewrite Hb', Hd', drop_app_le by lia. now rewrite Hd, frames_app. }
  assert (S6 : Forall (fun p => len p < 256 ^ hw) (ps ++ bss)).
  { apply Forall_app. split; [exact Hfit |].
    eapply Forall_impl; [| exact Hacc]. intros p [_ Hp]. cbv beta. lia. }
  assert (S7 : asize app' = totalLen hw (ps ++ bss)).
  { rewrite Hs', Hsz, totalLen_app. reflexivity. }
  split; [| auto].
  unfold stores. cbv zeta. rewrite Hl1. splits; first [assumption | apply S3].
Qed.

(** On a file that takes every write, the loop reaches its end. *)
Lemma AppendBulk_loop_clean (bss : list (list byte)) :
  forall (app : Appender) (offs : list Z) (wb : Z),
  OS.writable (file app) = true -> OS.faults (file app) = [] ->
  Bufio.werr (wr app) = None -> len (Bufio.wbuf (wr app)) <= Bufio.bufsz ->
  Forall (accepted app) bss ->
  exists app' x,
    AppendBulk_loop app bss offs wb = (app', Ok x)
    /\ OS.writable (file app') = true /\ OS.faults (file app') = []
    /\ OS.nfail (file app') = OS.nfail (file app)
    /\ Bufio.werr (wr app') = None.
Proof.
  induction bss as [| bs rest IH]; intros app offs wb Hwt Hfa We Hb Hacc;
    cbn [AppendBulk_loop].
  { eauto 8. }
  inversion Hacc as [| p l [Hp0 Hpm] Hacc']; subst p l.
  replace (len bs =? 0) with false by (symmetry; apply Z.eqb_neq; lia).
  replace (maxEntrySize app <? len bs) with false by (symmetry; apply Z.ltb_ge; lia).
  set (hbuf := writeInt (bufRWEntrySize (shm app)) (len bs)).
  cbn [file wr set_sizebuf set_shm].
  destruct (Write_clean (file app) (wr app) hbuf Hwt Hfa We Hb)
    as (f1 & w1 & W1 & Hwt1 & Hfa1 & Hn1).
  destruct (Write_ok _ _ _ _ _ _ Hb W1) as (_ & _ & We1 & Hb1 & _).
  rewrite W1, Z.eqb_refl. cbn [negb orb is_some].
  destruct (Write_clean f1 w1 bs Hwt1 Hfa1 We1 Hb1)
    as (f2 & w2 & W2 & Hwt2 & Hfa2 & Hn2).
  destruct (Write_ok _ _ _ _ _ _ Hb1 W2) as (_ & _ & We2 & Hb2 & _).
  rewrite W2, Z.eqb_refl. cbn [negb orb is_some].
  destruct (WriteByte_clean f2 w2 fCompleteEntry Hwt2 Hfa2 We2)
    as (f3 & w3 & W3 & Hwt3 & Hfa3 & Hn3).
  destruct (WriteByte_ok _ _ _ _ _ Hb2 W3) as (_ & We3 & Hb3 & _).
  rewrite W3. cbn [is_some].
  match goal with
  | |- exists a y, AppendBulk_loop ?a0 rest ?o ?b = _ /\ _ =>
      destruct (IH a0 o b) as (app' & x & L & J1 & J2 & J3 & J4); auto
  end.
  exists app', x. cbn in J3. splits; auto. congruence.
Qed.

Lemma run_keeps (cs : list call) :
  forall (app app' : Appender) (ps : list (list byte)) (offs : list Z) (hw : Z),
  hw = len (bufRWEntrySize (shm app)) ->
  stores app ps ->
  run app cs = Some (app', offs) ->
  len (OS.data (file app)) + totalLen hw (concat (map payloads cs)) < 2 ^ 63 ->
  stores app' (ps ++ concat (map payloads cs))
  /\ OS.data (file app')
     = OS.data (file app) ++ frames hw (concat (map payloads cs))
  /\ len (bufRWEntrySize (shm app')) = hw.
Proof.
  induction cs as [| c cs IH]; intros app app' ps offs hw Ehw St R Hb;
    cbn [run] in R.
  { injection R as <- _. cbn [map concat frames]. rewrite !app_nil_r. auto. }
  cbn [map concat] in Hb |- *. rewrite totalLen_app in Hb.
  assert (Hh0 : 0 <= hw) by (rewrite Ehw; apply len_nonneg).
  pose proof (totalLen_nonneg hw (concat (map payloads cs)) Hh0) as Ht.
  pose proof (totalLen_nonneg hw (payloads c) Hh0) as Ht'.
  assert (Hcall : forall app1 offs1,
             AppendBulk app (payloads c) = (app1, Ok offs1) ->
             (exists offs2, run app1 cs = Some (app', offs2)) ->
             stores app' (ps ++ payloads c ++ concat (map payloads cs))
             /\ OS.data (file app')
                = OS.data (file app)
                  ++ frames hw (payloads c ++ concat (map payloads cs))
             /\ len (bufRWEntrySize (shm app')) = hw).
  { intros app1 offs1 A (offs2 & R2).
    destruct (AppendBulk_keeps app app1 ps (payloads c) offs1 St A)
      as (St1 & _ & Hd1 & _ & Hl1); [rewrite <- Ehw; lia |].
    rewrite <- Ehw in Hd1, Hl1.
    destruct (IH app1 app' (ps ++ payloads c) offs2 hw (eq_sym Hl1) St1 R2)
      as (St2 & Hd2 & Hl2).
    { rewrite Hd1, len_app, len_frames by assumption. lia. }
    rewrite <- app_assoc in St2. splits; auto.
    rewrite Hd2, Hd1, frames_app, app_assoc. reflexivity. }
  destruct c as [bs | bss]; cbn [payloads] in *.
  - unfold Append in R.
    destruct (AppendBulk app [bs]) as [a1 [offs1 | e]] eqn:A; [| discriminate].
    apply (Hcall a1 offs1 eq_refl).
    destruct (run a1 cs) as [[a2 offs2] |]; [| discriminate].
    injection R as <- _. eauto.
  - destruct (AppendBulk app bss) as [a1 [offs1 | e]] eqn:A; [| discriminate].
    apply (Hcall a1 offs1 eq_refl).
    destruct (run a1 cs) as [[a2 offs2] |]; [| discriminate].
    injection R as <- _. eauto.
Qed.

(** Calls of [Append] and [AppendBulk] that all succeed, on a log that
    stores the payloads [ps], leave a log that stores [ps] followed by the
    payloads appended, in the order given: the file has gained their frames
    and nothing else, the offsets returned are where these frames start,
    counted from the base offset, and the size of the log is the length of
    all the frames.  The file is taken to stay within what an [int64]
    counts. *)
Theorem appended_payloads_are_stored (app app' : Appender)
      (ps : list (list byte)) (cs : list call) (offs : list Z) :
  let hw := len (bufRWEntrySize (shm app)) in
  let new := concat (map payloads cs) in
  stores app ps ->
  run app cs = Some (app', offs) ->
  len (OS.data (file app)) + totalLen hw new < 2 ^ 63 ->
  stores app' (ps ++ new)
  /\ OS.data (file app') = OS.data (file app) ++ frames hw new
  /\ offs = offsetsFrom hw (totalLen hw ps) new
  /\ asize app' = totalLen hw ps + totalLen hw new.
Proof.
  intros hw new St R Hb.
  destruct (run_keeps cs app app' ps offs hw eq_refl St R Hb) as (St' & Hd & Hl).
  destruct (stores_sizes _ _ St) as (Hh0 & Ht0 & Hlen). fold hw in Hh0, Ht0, Hlen.
  pose proof St as (_ & [_ Hfl] & _ & _ & Hbase & _ & _ & _ & Hsz).
  fold hw in Hsz.
  assert (B1 : 0 <= asize app) by lia.
  assert (B2 : asize app + totalLen hw (concat (map payloads cs)) < 2 ^ 63)
    by (fold new; lia).
  destruct (run_ok cs app app' offs hw R eq_refl Hfl B1 B2) as (Ho & Hs).
  fold new in Ho, Hs. rewrite Hsz in Ho, Hs. auto.
Qed.

Lemma stores_emptyLog : stores emptyLog [].
Proof.
  unfold stores. cbv zeta.
  splits; try (vm_compute; reflexivity); try (vm_compute; discriminate).
  - split; [left |]; reflexivity.
  - constructor.
Qed.

Lemma appended_payloads_are_stored_witness :
  stores someLog ([] ++ somePayloads)
  /\ OS.data (file someLog) = OS.data (file emptyLog) ++ frames 2 somePayloads
  /\ snd afterSomeCalls = offsetsFrom 2 (totalLen 2 []) somePayloads
  /\ asize someLog = totalLen 2 [] + totalLen 2 somePayloads.
Proof.
  apply (appended_payloads_are_stored emptyLog someLog [] someCalls
           (snd afterSomeCalls)).
  - exact stores_emptyLog.
  - vm_compute. reflexivity.
  - vm_compute. reflexivity.
Defined.

Lemma AppendBulk_healthy (app : Appender) (ps bss : list (list byte)) :
  let hw := len (bufRWEntrySize (shm app)) in
  stores app ps ->
  OS.writable (file app) = true -> OS.faults (file app) = [] ->
  bss <> [] -> Forall (accepted app) bss ->
  len (OS.data (file app)) + totalLen hw bss < 2 ^ 63 ->
  exists app',
    AppendBulk app bss = (app', Ok (offsetsFrom hw (totalLen hw ps) bss))
    /\ stores app' (ps ++ bss)
    /\ OS.data (file app') = OS.data (file app) ++ frames hw bss
    /\ OS.writable (file app') = true /\ OS.faults (file app') = [].
Proof.
  intros hw St Hwt Hfa Hne Hacc Hb.
  pose proof St as (Hc & _ & Hwr & _ & _ & _ & _ & _ & Hsz). fold hw in Hsz.
  assert (Hwe : Bufio.werr (wr app) = None) by (now rewrite Hwr).
  assert (Hwb : len (Bufio.wbuf (wr app)) <= Bufio.bufsz)
    by (rewrite Hwr; cbn; unfold len, Bufio.bufsz; simpl; lia).
  destruct (AppendBulk_loop_clean bss app [] 0 Hwt Hfa Hwe Hwb Hacc)
    as (app1 & [offs1 wb1] & L & Hwt1 & Hfa1 & _ & We1).
  destruct (Flush_clean (file app1) (wr app1) Hwt1 Hfa1 We1)
    as (f2 & FL & Hwt2 & Hfa2 & _).
  assert (A : AppendBulk app bss
              = (set_asize (set_wr app1 f2 (Bufio.mkWriter [] None))
                           (wrap64 (asize app1 + wb1)), Ok offs1)).
  { unfold AppendBulk. rewrite Hc. destruct bss as [| b bss']; [congruence |].
    rewrite L, FL. reflexivity. }
  destruct (AppendBulk_keeps _ _ ps bss offs1 St A Hb) as (St' & Ho & Hd & _).
  fold hw in Ho, Hd. rewrite Hsz in Ho. subst offs1.
  eexists. split; [exact A |]. splits; auto.
Qed.

(** On a log that stores [ps] and whose file takes every write, [AppendBulk]
    of a batch that is not empty, of payloads that are neither empty nor
    longer than the maximum, succeeds whatever their sizes are next to the
    buffer of the writer: it returns the offsets of the new frames, and the
    log stores [ps] followed by the batch. *)
Theorem AppendBulk_succeeds (app : Appender) (ps bss : list (list byte)) :
  let hw := len (bufRWEntrySize (shm app)) in
  stores app ps ->
  OS.writable (file app) = true -> OS.faults (file app) = [] ->
  bss <> [] -> Forall (accepted app) bss ->
  len (OS.data (file app)) + totalLen hw bss < 2 ^ 63 ->
  exists app',
    AppendBulk app bss = (app', Ok (offsetsFrom hw (totalLen hw ps) bss))
    /\ stores app' (ps ++ bss)
    /\ OS.data (file app') = OS.data (file app) ++ frames hw bss
    /\ OS.writable (file app') = true /\ OS.faults (file app') = [].
Proof.
  intros hw St Hwt Hfa Hne Hacc Hb.
  destruct (AppendBulk_healthy app ps bss St Hwt Hfa Hne Hacc Hb)
    as (app' & A & St' & Hd & Hw' & Hf').
  exists app'. fold hw in A, Hd. splits; assumption.
Qed.

Lemma AppendBulk_succeeds_witness :
  exists app',
    AppendBulk emptyLog [[x01]; [x02; x03]]
    = (app', Ok (offsetsFrom 2 (totalLen 2 []) [[x01]; [x02; x03]]))
    /\ stores app' ([] ++ [[x01]; [x02; x03]])
    /\ OS.data (file app')
       = OS.data (file emptyLog) ++ frames 2 [[x01]; [x02; x03]]
    /\ OS.writable (file app') = true /\ OS.faults (file app') = [].
Proof.
  apply (AppendBulk_succeeds emptyLog [] [[x01]; [x02; x03]]).
  - exact stores_emptyLog.
  - reflexivity.
  - reflexivity.
  - discriminate.
  - repeat constructor; vm_compute; discriminate.
  - vm_compute. reflexivity.
Defined.

(** ** A batch refused at one of its payloads *)

Lemma AppendBulk_loop_fits (good : list (list byte)) :
  forall (app : Appender) (tail : list (list byte)) (offs : list Z) (wb hw : Z),
  hw = len (bufRWEntrySize (shm app)) -> hw = 2 \/ hw = 4 ->
  Bufio.werr (wr app) = None ->
  len (Bufio.wbuf (wr app)) + totalLen hw good <= Bufio.bufsz ->
  Forall (accepted app) good ->
  exists app1 offs1 wb1,
    AppendBulk_loop app (good ++ tail) offs wb = AppendBulk_loop app1 tail offs1 wb1
    /\ file app1 = file app
    /\ wr app1 = Bufio.mkWriter (Bufio.wbuf (wr app) ++ frames hw good) None
    /\ maxEntrySize app1 = maxEntrySize app /\ asize app1 = asize app
    /\ closed app1 = closed app /\ aerr app1 = aerr app.
Proof.
  induction good as [| bs good IH]; intros app tail offs wb hw Ehw Hw We Hb Hacc.
  { exists app, offs, wb. cbn [List.app frames map concat]. rewrite app_nil_r.
    splits; auto. rewrite (Writer_eta (wr app)) at 1. now rewrite We. }
  inversion Hacc as [| p l [Hp0 Hpm] Hacc']; subst p l.
  cbn [List.app AppendBulk_loop].
  replace (len bs =? 0) with false by (symmetry; apply Z.eqb_neq; lia).
  replace (maxEntrySize app <? len bs) with false by (symmetry; apply Z.ltb_ge; lia).
  set (hbuf := writeInt (bufRWEntrySize (shm app)) (len bs)).
  assert (Hhb : len hbuf = hw) by (subst hbuf; rewrite len_writeInt; congruence).
  assert (Hfr : frame hw bs = hbuf ++ bs ++ [fCompleteEntry]).
  { unfold frame. subst hbuf. rewrite (writeInt_zeros (bufRWEntrySize (shm app)))
      by (rewrite <- Ehw; exact Hw).
    now rewrite <- Ehw. }
  assert (Hh0 : 0 <= hw) by lia.
  pose proof (totalLen_nonneg hw good Hh0) as Ht.
  cbn [totalLen] in Hb. unfold frameLen in Hb.
  pose proof (len_nonneg (Bufio.wbuf (wr app))) as Hw0.
  cbn [file wr set_sizebuf set_shm].
  rewrite Write_fits by (auto; lia). rewrite Z.eqb_refl. cbn [negb orb is_some].
  rewrite Write_fits by (cbn; auto; rewrite len_app; lia).
  rewrite Z.eqb_refl. cbn [negb orb is_some Bufio.wbuf].
  rewrite WriteByte_fits by (cbn; auto; rewrite !len_app; lia).
  cbn [is_some Bufio.wbuf].
  match goal with
  | |- exists a o b, AppendBulk_loop ?a0 _ ?o0 ?b0 = _ /\ _ =>
      destruct (IH a0 tail o0 b0 hw) as (app1 & offs1 & wb1 & L & J1 & J2 & J3 & J4 & J5 & J6)
  end.
  - cbn. congruence.
  - exact Hw.
  - reflexivity.
  - cbn. rewrite !len_app. change (len [fCompleteEntry]) with 1. lia.
  - exact Hacc'.
  - exists app1, offs1, wb1. cbn in J1, J2, J3, J4, J5, J6.
    splits; auto. rewrite J2, frames_cons, Hfr, <- !app_assoc. reflexivity.
Qed.

(** [AppendBulk] checks a payload when it comes to it, after it has given
    the frames of the payloads before it to the writer.  A batch whose
    payloads are good up to one that is empty or too long is refused with the
    error of that payload; the log stays open, its size and its file are as
    before, and the frames of the good payloads stay in the buffer of the
    writer (they are taken to fit in it), from where the next flush takes
    them to the file. *)
Theorem AppendBulk_refused_batch (app : Appender) (good rest : list (list byte))
                                 (bad : list byte) :
  let hw := len (bufRWEntrySize (shm app)) in
  closed app = false -> WF app -> Bufio.werr (wr app) = None ->
  Forall (accepted app) good ->
  len (Bufio.wbuf (wr app)) + totalLen hw good <= Bufio.bufsz ->
  len bad = 0 \/ maxEntrySize app < len bad ->
  exists app',
    AppendBulk app (good ++ bad :: rest)
    = (app', Err (if len bad =? 0 then ErrInvalidArguments
                  else ErrEntryExceedsMaxSize))
    /\ file app' = file app
    /\ wr app' = Bufio.mkWriter (Bufio.wbuf (wr app) ++ frames hw good) None
    /\ asize app' = asize app /\ closed app' = false /\ aerr app' = aerr app.
Proof.
  intros hw Hc [Hw _] We Hacc Hb Hbad. fold hw in Hw.
  destruct (AppendBulk_loop_fits good app (bad :: rest) [] 0 hw eq_refl Hw We Hb Hacc)
    as (app1 & offs1 & wb1 & L & J1 & J2 & J3 & J4 & J5 & J6).
  exists app1. unfold AppendBulk. rewrite Hc.
  destruct (good ++ bad :: rest) as [| b l] eqn:E.
  { destruct good; discriminate. }
  rewrite L. cbn [AppendBulk_loop].
  destruct (len bad =? 0) eqn:E0.
  - splits; auto; congruence.
  - apply Z.eqb_neq in E0.
    replace (maxEntrySize app1 <? len bad) with true
      by (symmetry; apply Z.ltb_lt; rewrite J3; destruct Hbad; [contradiction | lia]).
    splits; auto; congruence.
Qed.

Lemma AppendBulk_refused_batch_witness :
  exists app',
    AppendBulk emptyLog ([[x01]; [x02; x03]] ++ tooLong :: [[x04]])
    = (app', Err (if len tooLong =? 0 then ErrInvalidArguments
                  else ErrEntryExceedsMaxSize))
    /\ file app' = file emptyLog
    /\ wr app' = Bufio.mkWriter (Bufio.wbuf (wr emptyLog)
                                 ++ frames 2 [[x01]; [x02; x03]]) None
    /\ asize app' = asize emptyLog /\ closed app' = false
    /\ aerr app' = aerr emptyLog.
Proof.
  apply (AppendBulk_refused_batch emptyLog [[x01]; [x02; x03]] [[x04]] tooLong).
  - reflexivity.
  - split; [left |]; reflexivity.
  - reflexivity.
  - repeat constructor; vm_compute; discriminate.
  - vm_compute. discriminate.
  - right. vm_compute. reflexivity.
Defined.

(** ** Appending to a log opened read-only *)

Lemma AppendBulk_loop_ro (bss : list (list byte)) :
  forall (app app' : Appender) (offs : list Z) (wb hw : Z)
         (r : result (list Z * Z)),
  hw = len (bufRWEntrySize (shm app)) -> hw = 2 \/ hw = 4 ->
  OS.writable (file app) = false -> Bufio.werr (wr app) = None ->
  Forall (accepted app) bss ->
  AppendBulk_loop app bss offs wb = (app', r) ->
  OS.data (file app') = OS.data (file app)
  /\ OS.writable (file app') = false
  /\ ((exists x, r = Ok x
       /\ wr app' = Bufio.mkWriter (Bufio.wbuf (wr app) ++ frames hw bss) None
       /\ closed app' = closed app)
      \/ (r = Err ErrUnexpectedWriteErr /\ closed app' = true
          /\ aerr app' = Some EBADF)).
Proof.
  induction bss as [| bs rest IH]; intros app app' offs wb hw r Ehw Hw Hro We Hacc L;
    cbn [AppendBulk_loop] in L.
  { injection L as <- <-. cbn [frames map concat]. rewrite app_nil_r.
    splits; auto. left. eexists. splits; auto.
    rewrite (Writer_eta (wr app)) at 1. now rewrite We. }
  inversion Hacc as [| p l [Hp0 Hpm] Hacc']; subst p l.
  replace (len bs =? 0) with false in L by (symmetry; apply Z.eqb_neq; lia).
  replace (maxEntrySize app <? len bs) with false in L
    by (symmetry; apply Z.ltb_ge; lia).
  set (hbuf := writeInt (bufRWEntrySize (shm app)) (len bs)) in *.
  assert (Hhb : len hbuf = hw) by (subst hbuf; rewrite len_writeInt; congruence).
  assert (Hfr : frame hw bs = hbuf ++ bs ++ [fCompleteEntry]).
  { unfold frame. subst hbuf. rewrite (writeInt_zeros (bufRWEntrySize (shm app)))
      by (rewrite <- Ehw; exact Hw).
    now rewrite <- Ehw. }
  cbn [file wr set_sizebuf set_shm] in L.
  destruct (Bufio.Write (file app) (wr app) hbuf) as [[[f1 w1] n1] e1] eqn:W1.
  destruct (Write_ro _ _ _ _ _ _ _ Hro We W1) as (D1 & R1 & [(-> & -> & ->) | ->]).
  2: { rewrite orb_true_r in L. injection L as <- <-. cbn. splits; auto. }
  rewrite Z.eqb_refl in L. cbn [negb orb is_some] in L.
  destruct (Bufio.Write f1 _ bs) as [[[f2 w2] n2] e2] eqn:W2.
  match type of W2 with
  | Bufio.Write _ ?w _ = _ => assert (We1 : Bufio.werr w = None) by reflexivity
  end.
  destruct (Write_ro _ _ _ _ _ _ _ R1 We1 W2) as (D2 & R2 & [(-> & -> & ->) | ->]).
  2: { rewrite orb_true_r in L. injection L as <- <-. cbn.
       splits; auto; congruence. }
  rewrite Z.eqb_refl in L. cbn [negb orb is_some Bufio.wbuf] in L.
  destruct (Bufio.WriteByte f2 _ fCompleteEntry) as [[f3 w3] e3] eqn:W3.
  match type of W3 with
  | Bufio.WriteByte _ ?w _ = _ => assert (We2 : Bufio.werr w = None) by reflexivity
  end.
  destruct (WriteByte_ro _ _ _ _ _ _ R2 We2 W3) as (D3 & R3 & [(-> & ->) | ->]).
  2: { cbn [is_some] in L. injection L as <- <-. cbn.
       splits; auto; congruence. }
  cbn [is_some Bufio.wbuf] in L.
  match type of L with
  | AppendBulk_loop ?a _ _ _ = _ =>
      assert (E3 : hw = len (bufRWEntrySize (shm a))) by (cbn; congruence);
      assert (We3 : Bufio.werr (wr a) = None) by reflexivity;
      assert (R3' : OS.writable (file a) = false) by exact R3;
      assert (Hacc3 : Forall (accepted a) rest) by exact Hacc';
      destruct (IH a _ _ _ hw _ E3 Hw R3' We3 Hacc3 L) as (I1 & I2 & I3)
  end.
  cbn in I1. splits; auto; try congruence.
  destruct I3 as [(x & -> & I4 & I5) | I3]; [left | right; exact I3].
  exists x. cbn in I4, I5. splits; auto.
  rewrite I4, frames_cons, Hfr, <- !app_assoc. reflexivity.
Qed.

(** On a log whose file was opened read-only, [AppendBulk] of a batch that
    passes its checks fails when its first write reaches the file, at the
    flush if not before: it returns [ErrUnexpectedWriteErr], the file is as
    it was, and the log is closed, with the error of the write, so that no
    read is served after it either. *)
Theorem AppendBulk_read_only_closes (app : Appender) (bss : list (list byte)) :
  closed app = false -> WF app ->
  OS.writable (file app) = false -> Bufio.werr (wr app) = None ->
  bss <> [] -> Forall (accepted app) bss ->
  exists app',
    AppendBulk app bss = (app', Err ErrUnexpectedWriteErr)
    /\ closed app' = true /\ aerr app' = Some EBADF
    /\ OS.data (file app') = OS.data (file app)
    /\ (forall o, Read app' o = (app', None, Some ErrAppenderClosed)).
Proof.
  intros Hc [Hw _] Hro We Hne Hacc.
  destruct (AppendBulk app bss) as [app' r] eqn:A. exists app'.
  assert (G : r = Err ErrUnexpectedWriteErr /\ closed app' = true
              /\ aerr app' = Some EBADF
              /\ OS.data (file app') = OS.data (file app)).
  { unfold AppendBulk in A. rewrite Hc in A.
    destruct bss as [| b bss']; [congruence |].
    destruct (AppendBulk_loop app (b :: bss') [] 0) as [app1 r1] eqn:L.
    destruct (AppendBulk_loop_ro _ _ _ _ _ _ _ eq_refl Hw Hro We Hacc L)
      as (D & R & [(x & -> & Hwr & Hcl) | (-> & Hcl & Hae)]).
    - destruct x as [offs1 wb1].
      destruct (Bufio.Flush (file app1) (wr app1)) as [[f2 w2] e2] eqn:FL.
      assert (Hn0 : Bufio.wbuf (wr app1) <> []).
      { rewrite Hwr. cbn [Bufio.wbuf]. intro E. apply app_eq_nil in E.
        destruct E as [_ E]. revert E. apply frames_nonnil. discriminate. }
      assert (He1 : Bufio.werr (wr app1) = None) by (now rewrite Hwr).
      destruct (Flush_ro _ _ _ _ _ R He1 Hn0 FL) as (-> & Hd2 & _).
      cbn [is_some] in A. injection A as <- <-. cbn. splits; auto; congruence.
    - injection A as <- <-. auto. }
  destruct G as (-> & Hcl & Hae & Hd). splits; auto.
  intro o. unfold Read. now rewrite Hcl.
Qed.

Lemma AppendBulk_read_only_closes_witness :
  exists app',
    AppendBulk readOnlyLog [[x01]; [x02]] = (app', Err ErrUnexpectedWriteErr)
    /\ closed app' = true /\ aerr app' = Some EBADF
    /\ OS.data (file app') = OS.data (file readOnlyLog)
    /\ (forall o, Read app' o = (app', None, Some ErrAppenderClosed)).
Proof.
  apply (AppendBulk_read_only_closes readOnlyLog [[x01]; [x02]]).
  - reflexivity.
  - split; [left |]; reflexivity.
  - reflexivity.
  - reflexivity.
  - discriminate.
  - repeat constructor; vm_compute; discriminate.
Defined.

(** ** One turn of the loop on a complete frame, and at the end of the file *)

Lemma FoldBody_frame {H : Type} `{FoldHandler H} (app : Appender) (h : H)
      (o hw : Z) (p rest : list byte) :
  hw = len (bufRWEntrySize (shm app)) ->
  0 <= OS.pos (file app) -> WF app -> asnug app ->
  astream app = frame hw p ++ rest ->
  len p < 256 ^ hw ->
  exists a e,
    e = mkEntry o (len p)
          (p ++ drop (len p)
                  (if len (bytes (sharedEntry (shm app))) <? len p
                   then zeros (len p) else bytes (sharedEntry (shm app))))
          false
    /\ FoldBody app h o
       = (a, fst (fst (Fold h e)), [EvRead e 0 None;
                                    EvFold e (snd (fst (Fold h e))) (snd (Fold h e))],
          afterFold a o e None (snd (fst (Fold h e))) (snd (Fold h e)))
    /\ sharedEntry (shm a) = e
    /\ astream a = rest /\ asnug a /\ 0 <= OS.pos (file a)
    /\ same_disk (file app) (file a)
    /\ wr a = wr app /\ maxEntrySize a = maxEntrySize app
    /\ baseOffset a = baseOffset app /\ asize a = asize app
    /\ closed a = closed app /\ aerr a = aerr app
    /\ len (bufRWEntrySize (shm a)) = hw
    /\ len (bufRWEntryFlag (shm a)) = len (bufRWEntryFlag (shm app)).
Proof.
  intros Ehw Hp Wf Sn Hs Hfit.
  pose proof Wf as [Hw24 Hfl].
  assert (Hh0 : 0 <= hw) by (rewrite Ehw; apply len_nonneg).
  assert (Hhdr : len (writeInt (zeros hw) (len p)) = len (bufRWEntrySize (shm app))).
  { rewrite len_writeInt, len_zeros; [congruence | exact Hh0]. }
  assert (Hri : readInt (writeInt (zeros hw) (len p)) = len p).
  { apply fits_header; [rewrite Ehw; exact Hw24 | exact Hfit]. }
  unfold frame in Hs. rewrite <- !app_assoc in Hs. cbn [List.app] in Hs.
  destruct (Entry_read (sharedAt app o) app) as [[[a0 e0] mb] err] eqn:ER.
  destruct (Entry_read_snug_frame _ _ _ _ _ _ _ _ _ _ Hp Wf Sn Hs Hhdr Hri ER)
    as (He & Hm & Herr & Hs1 & Sn1).
  destruct (Entry_read_frame _ _ _ _ _ _ Hp ER)
    as ((K1 & K2 & K3 & K4 & K5 & K6 & K7 & K8 & K9) & Hd & Hp1 & _).
  cbn [sharedAt off size bytes] in He.
  change (negb (Byte.eqb fCompleteEntry fCompleteEntry)) with false in He.
  change (Byte.eqb fCompleteEntry x00) with false in Hm. cbn iota in Hm.
  subst mb err.
  exists (set_sharedEntry a0 e0), e0.
  split; [exact He |]. split.
  - unfold FoldBody. fold (sharedAt app o). rewrite ER.
    change (0 <? 0) with false. cbn iota. cbn [is_EOF].
    destruct (Fold h e0) as [[h' cutoff] herr]. cbn [fst snd].
    unfold afterFold. destruct herr as [x |]; [reflexivity |].
    destruct cutoff; reflexivity.
  - cbn. splits; auto; congruence.
Qed.

Lemma FoldBody_end {H : Type} `{FoldHandler H} (app : Appender) (h : H) (o : Z) :
  0 <= OS.pos (file app) -> WF app -> astream app = [] ->
  exists a e,
    FoldBody app h o = (a, h, [EvRead e 0 (Some EOF)], Return None)
    /\ same_disk (file app) (file a) /\ 0 <= OS.pos (file a)
    /\ wr a = wr app /\ maxEntrySize a = maxEntrySize app
    /\ baseOffset a = baseOffset app /\ asize a = asize app
    /\ closed a = closed app /\ aerr a = aerr app
    /\ len (bufRWEntrySize (shm a)) = len (bufRWEntrySize (shm app))
    /\ len (bufRWEntryFlag (shm a)) = len (bufRWEntryFlag (shm app)).
Proof.
  intros Hp Wf Hs.
  pose proof (WF_hw_pos _ Wf) as Hhw.
  destruct (Entry_read (sharedAt app o) app) as [[[a0 e0] mb] err] eqn:ER.
  destruct (Entry_read_frame _ _ _ _ _ _ Hp ER)
    as ((K1 & K2 & K3 & K4 & K5 & K6 & K7 & K8 & K9) & Hd & Hp1 & _ & _
        & (c & Hc & Hnil)).
  unfold astream in Hs. rewrite Hs in Hc. symmetry in Hc.
  apply app_eq_nil in Hc. destruct Hc as [Hc _].
  destruct (Hnil Hhw Hc) as [-> ->].
  exists (set_sharedEntry a0 e0), e0. split.
  - unfold FoldBody. fold (sharedAt app o). rewrite ER.
    change (0 <? 0) with false. cbn iota. reflexivity.
  - cbn. splits; auto.
Qed.

(** ** A traversal over complete frames *)

Lemma FoldLoop_drive {H : Type} `{FoldHandler H} (ps : list (list byte)) :
  forall (fuel : nat) (app : Appender) (h : H) (o hw : Z),
  hw = len (bufRWEntrySize (shm app)) ->
  0 <= OS.pos (file app) -> WF app -> asnug app ->
  astream app = frames hw ps ->
  Forall (fun p => len p < 256 ^ hw) ps ->
  0 <= o -> o + len (astream app) < 2 ^ 63 ->
  (length ps < fuel)%nat ->
  exists app' tr,
    FoldLoop fuel app h o
    = Some (app',
            fst (drive h (delivered hw o (bytes (sharedEntry (shm app))) ps)),
            snd (drive h (delivered hw o (bytes (sharedEntry (shm app))) ps)),
            tr)
    /\ folds tr = calls h (delivered hw o (bytes (sharedEntry (shm app))) ps)
    /\ same_disk (file app) (file app')
    /\ wr app' = wr app /\ maxEntrySize app' = maxEntrySize app
    /\ baseOffset app' = baseOffset app /\ asize app' = asize app
    /\ closed app' = closed app /\ aerr app' = aerr app
    /\ len (bufRWEntrySize (shm app')) = hw
    /\ len (bufRWEntryFlag (shm app')) = len (bufRWEntryFlag (shm app)).
Proof.
  induction ps as [| p ps IH];
    intros fuel app h o hw Ehw Hp Wf Sn Hs Hfit Ho Hob Hfuel;
    (destruct fuel as [| fuel]; [inversion Hfuel |]); cbn [FoldLoop].
  - cbn [frames map concat] in Hs.
    destruct (FoldBody_end app h o Hp Wf Hs)
      as (a & e & FB & Hd & _ & K1 & K2 & K3 & K4 & K5 & K6 & K7 & K8).
    rewrite FB. exists a, [EvRead e 0 (Some EOF)]. cbn.
    splits; auto. congruence.
  - rewrite frames_cons in Hs.
    inversion Hfit as [| p' ps' Hfp Hfps]; subst p' ps'.
    destruct (FoldBody_frame app h o hw p (frames hw ps) Ehw Hp Wf Sn Hs Hfp)
      as (a & e & He & FB & Hse & Hs1 & Sn1 & Hp1 & Hd & K1 & K2 & K3 & K4 & K5
          & K6 & K7 & K8).
    rewrite FB. cbn [delivered drive calls]. rewrite <- He.
    destruct (Fold h e) as [[h' cutoff] herr] eqn:FE. cbn [fst snd].
    unfold afterFold.
    destruct herr as [x |].
    { exists a, [EvRead e 0 None; EvFold e cutoff (Some x)]. cbn.
      destruct cutoff; splits; auto. }
    destruct cutoff.
    { exists a, [EvRead e 0 None; EvFold e true None]. cbn. splits; auto. }
    pose proof Wf as [_ Hfl].
    assert (Hh0 : 0 <= hw) by (rewrite Ehw; apply len_nonneg).
    assert (Hlen : len (astream app) = frameLen hw p + len (astream a)).
    { rewrite Hs, Hs1, len_app, len_frame by assumption. reflexivity. }
    pose proof (len_nonneg (astream a)) as Hla.
    pose proof (len_nonneg p) as Hlp.
    rewrite K7, K8, Hfl.
    assert (Ese : size e = len p) by (rewrite He; reflexivity).
    rewrite Ese. fold (frameLen hw p).
    rewrite wrap64_small by (unfold frameLen in *; lia).
    assert (Wfa : WF a).
    { destruct Wf as [W1 W2]. split; [rewrite K7, Ehw; exact W1 | congruence]. }
    destruct (IH fuel a h' (o + frameLen hw p) hw (eq_sym K7) Hp1 Wfa Sn1 Hs1 Hfps)
      as (app' & tr & L & Hfo & Hd' & J1 & J2 & J3 & J4 & J5 & J6 & J7 & J8);
      [unfold frameLen; lia | lia | cbn in Hfuel; lia |].
    rewrite Hse in L, Hfo. assert (Eb : bytes e = bytes e) by reflexivity.
    rewrite He in L at 1 2. rewrite He in Hfo at 1.
    cbn [bytes] in L, Hfo. rewrite L. cbn [emit].
    exists app', ([EvRead e 0 None; EvFold e false None] ++ tr).
    split; [reflexivity |].
    rewrite folds_app, Hfo.
    splits; auto; try congruence.
    eapply same_disk_trans; eauto.
Qed.

(** ** What the reducer is given *)

Lemma delivered_view (hw : Z) (ps : list (list byte)) :
  forall (o : Z) (buf : list byte),
  map Bytes (delivered hw o buf ps) = ps
  /\ map Offset (delivered hw o buf ps) = offsetsFrom hw o ps
  /\ map Size (delivered hw o buf ps) = map len ps
  /\ Forall (fun e => Incomplete e = false) (delivered hw o buf ps).
Proof.
  induction ps as [| p ps IH]; intros o buf; cbn [delivered map offsetsFrom].
  { splits; auto. }
  set (buf' := p ++ drop (len p) (if len buf <? len p then zeros (len p) else buf)).
  destruct (IH (o + frameLen hw p) buf') as (I1 & I2 & I3 & I4).
  rewrite I1, I2, I3. splits; auto.
  f_equal. unfold Bytes. cbn [size bytes]. subst buf'. apply take_app_len.
Qed.

Lemma stores_kept (app app' : Appender) (ps : list (list byte)) :
  stores app ps ->
  same_disk (file app) (file app') -> wr app' = wr app ->
  maxEntrySize app' = maxEntrySize app -> baseOffset app' = baseOffset app ->
  asize app' = asize app -> closed app' = closed app ->
  len (bufRWEntrySize (shm app')) = len (bufRWEntrySize (shm app)) ->
  len (bufRWEntryFlag (shm app')) = len (bufRWEntryFlag (shm app)) ->
  stores app' ps.
Proof.
  intros (Hc & [W1 W2] & Hwr & Hmax & Hbase & Hfile & Hd & Hfit & Hsz)
         (D1 & _) K1 K2 K3 K4 K5 K7 K8.
  unfold stores. cbv zeta. rewrite K7, K3, K2, K4, K5, K1, D1.
  splits; auto; try apply Hbase.
  split; congruence.
Qed.

Lemma seek_stored (app : Appender) (ps : list (list byte)) (o : Z) :
  stores app ps -> 0 <= o <= totalLen (len (bufRWEntrySize (shm app))) ps ->
  seek app o
  = (set_io app (OS.Seek (file app) (baseOffset app + o)) [] (wr app), None).
Proof.
  intros St Ho.
  destruct (stores_sizes _ _ St) as (Hh0 & Ht0 & Hlen).
  destruct St as (_ & _ & _ & _ & Hbase & Hfile & _).
  unfold seek.
  rewrite wrap64_small by (change (2 ^ 63) with 9223372036854775808 in *; lia).
  replace (baseOffset app + o <? 0) with false by (symmetry; apply Z.ltb_ge; lia).
  reflexivity.
Qed.

(** A traversal from the base offset over complete frames that fit one fill
    of the reader's buffer. *)
Lemma FoldWithHandler_frames {H : Type} `{FoldHandler H} (app : Appender) (h : H)
      (ps : list (list byte)) (hw : Z) :
  hw = len (bufRWEntrySize (shm app)) ->
  closed app = false -> WF app ->
  0 <= baseOffset app <= len (OS.data (file app)) ->
  len (OS.data (file app)) < 2 ^ 63 ->
  drop (baseOffset app) (OS.data (file app)) = frames hw ps ->
  Forall (fun p => len p < 256 ^ hw) ps ->
  totalLen hw ps <= Bufio.bufsz ->
  exists app' tr,
    FoldWithHandler app h
    = Some (app',
            fst (drive h (delivered hw 0 (bytes (sharedEntry (shm app))) ps)),
            snd (drive h (delivered hw 0 (bytes (sharedEntry (shm app))) ps)),
            tr)
    /\ folds tr = calls h (delivered hw 0 (bytes (sharedEntry (shm app))) ps)
    /\ same_disk (file app) (file app')
    /\ wr app' = wr app /\ maxEntrySize app' = maxEntrySize app
    /\ baseOffset app' = baseOffset app /\ asize app' = asize app
    /\ closed app' = closed app /\ aerr app' = aerr app
    /\ len (bufRWEntrySize (shm app')) = hw
    /\ len (bufRWEntryFlag (shm app')) = len (bufRWEntryFlag (shm app)).
Proof.
  intros Ehw Hc Wf Hbase Hfile Hd Hfp Hfit.
  assert (Hh0 : 0 <= hw) by (rewrite Ehw; apply len_nonneg).
  unfold FoldWithHandler, seek. rewrite Hc, Z.add_0_r.
  rewrite wrap64_small by (change (2 ^ 63) with 9223372036854775808 in *; lia).
  replace (baseOffset app <? 0) with false by (symmetry; apply Z.ltb_ge; lia).
  set (a1 := set_io app (OS.Seek (file app) (baseOffset app)) [] (wr app)).
  assert (Hs : astream a1 = frames hw ps) by exact Hd.
  assert (Sn : asnug a1).
  { right. split; [reflexivity |]. cbn. rewrite Hd, len_frames by assumption.
    exact Hfit. }
  assert (Hp : 0 <= OS.pos (file a1)) by (cbn; lia).
  assert (Hob : 0 + len (astream a1) < 2 ^ 63).
  { rewrite Hs, len_frames by assumption.
    change (2 ^ 63) with 9223372036854775808. unfold Bufio.bufsz in Hfit. lia. }
  assert (Hfu : (length ps < fold_fuel a1)%nat).
  { unfold fold_fuel. cbn.
    pose proof (frames_count hw ps [] Hh0) as Hc1.
    rewrite app_nil_r, <- Hd in Hc1.
    pose proof (len_drop_le (baseOffset app) (OS.data (file app))) as Hc2.
    unfold len in Hc1, Hc2. lia. }
  assert (Wf1 : WF a1) by exact Wf.
  assert (Ehw1 : hw = len (bufRWEntrySize (shm a1))) by exact Ehw.
  destruct (FoldLoop_drive ps (fold_fuel a1) a1 h 0 hw Ehw1 Hp Wf1 Sn Hs Hfp
              (Z.le_refl 0) Hob Hfu)
    as (app' & tr & L & Hfo & Hd' & K1 & K2 & K3 & K4 & K5 & K6 & K7 & K8).
  exists app', tr.
  split; [exact L |]. split; [exact Hfo |].
  split; [destruct Hd' as (D1 & D2 & D3 & D4); repeat split; assumption |].
  splits; try assumption. rewrite K5. exact Hc.
Qed.

(** A traversal of a log that stores [ps] and fits one fill of the reader's
    buffer is a fold over its entries: the handler is called on the entries
    of [ps] in the order of the file, up to the first call that returns an
    error or asks for the cutoff, and the traversal returns that error, or
    none.  The entries carry the offsets of their frames and, as their
    bytes, the payloads; none is flagged incomplete.  The traversal writes
    nothing, and the log stores [ps] as before. *)
Theorem traversal_is_a_fold {H : Type} `{FoldHandler H} (app : Appender) (h : H)
      (ps : list (list byte)) :
  let hw := len (bufRWEntrySize (shm app)) in
  let es := delivered hw 0 (bytes (sharedEntry (shm app))) ps in
  stores app ps -> totalLen hw ps <= Bufio.bufsz ->
  (map Bytes es = ps /\ map Offset es = offsetsFrom hw 0 ps
   /\ Forall (fun e => Incomplete e = false) es)
  /\ exists app' tr,
       FoldWithHandler app h = Some (app', fst (drive h es), snd (drive h es), tr)
       /\ folds tr = calls h es
       /\ same_disk (file app) (file app')
       /\ stores app' ps.
Proof.
  intros hw es St Hfit.
  split.
  { destruct (delivered_view hw ps 0 (bytes (sharedEntry (shm app))))
      as (V1 & V2 & _ & V4). auto. }
  pose proof St as (Hc & Wf & Hwr & Hmax & Hbase & Hfile & Hd & Hfp & Hsz).
  destruct (FoldWithHandler_frames app h ps hw eq_refl Hc Wf Hbase Hfile Hd Hfp Hfit)
    as (app' & tr & L & Hfo & Hd' & K1 & K2 & K3 & K4 & K5 & K6 & K7 & K8).
  exists app', tr. splits; auto.
  apply (stores_kept app); auto.
Qed.

Lemma stores_someLog : stores someLog somePayloads.
Proof.
  unfold stores. cbv zeta.
  splits; try (vm_compute; reflexivity); try (vm_compute; discriminate).
  - split; [left |]; reflexivity.
  - repeat constructor.
Qed.

Lemma traversal_is_a_fold_witness :
  let es := delivered 2 0 (bytes (sharedEntry (shm someLog))) somePayloads in
  (map Bytes es = somePayloads /\ map Offset es = offsetsFrom 2 0 somePayloads
   /\ Forall (fun e => Incomplete e = false) es)
  /\ exists app' tr,
       FoldWithHandler someLog (mkForEach stopAtSecond 0%nat)
       = Some (app', fst (drive (mkForEach stopAtSecond 0%nat) es),
               snd (drive (mkForEach stopAtSecond 0%nat) es), tr)
       /\ folds tr = calls (mkForEach stopAtSecond 0%nat) es
       /\ same_disk (file someLog) (file app')
       /\ stores app' somePayloads.
Proof.
  apply (traversal_is_a_fold someLog (mkForEach stopAtSecond 0%nat) somePayloads).
  - exact stores_someLog.
  - vm_compute. discriminate.
Defined.

(** ** Reading back *)

Lemma Read_stored (app : Appender) (before after : list (list byte))
                                 (p : list byte) :
  let hw := len (bufRWEntrySize (shm app)) in
  let o := totalLen hw before in
  stores app (before ++ p :: after) ->
  totalLen hw (p :: after) <= Bufio.bufsz ->
  exists app' e,
    Read app o = (app', Some e, None)
    /\ Offset e = o /\ Size e = len p /\ Bytes e = p /\ Incomplete e = false
    /\ stores app' (before ++ p :: after).
Proof.
  intros hw o St Hfit.
  destruct (stores_sizes _ _ St) as (Hh0 & Ht0 & Hlen). fold hw in Hh0, Ht0, Hlen.
  pose proof St as (Hc & Wf & Hwr & Hmax & Hbase & Hfile & Hd & Hfp & Hsz).
  fold hw in Hd, Hfp, Hsz.
  rewrite totalLen_app in Ht0, Hlen, Hsz.
  pose proof (totalLen_nonneg hw before Hh0) as Hb0.
  pose proof (totalLen_nonneg hw (p :: after) Hh0) as Ha0.
  fold o in Hb0, Hlen, Hsz, Ht0.
  apply Forall_app in Hfp. destruct Hfp as [_ Hfp].
  inversion Hfp as [| p' l Hp Hfa]; subst p' l.
  unfold Read. rewrite Hc.
  replace ((o <? 0) || (asize app <? o)) with false
    by (symmetry; apply orb_false_iff; split; apply Z.ltb_ge; lia).
  rewrite (seek_stored app _ o St) by (fold hw; rewrite totalLen_app; fold o; lia).
  cbn [is_some].
  set (a1 := set_io app (OS.Seek (file app) (baseOffset app + o)) [] (wr app)).
  assert (Hs : astream a1 = frame hw p ++ frames hw after).
  { unfold astream, stream. cbn.
    rewrite <- drop_drop by lia. rewrite Hd, frames_app.
    unfold o. rewrite <- (len_frames hw before) by assumption.
    rewrite drop_app_len. apply frames_cons. }
  assert (Sn : asnug a1).
  { right. split; [reflexivity |]. unfold astream, stream in Hs. cbn in Hs |- *.
    rewrite Hs, <- frames_cons, len_frames by assumption. exact Hfit. }
  assert (Hp1 : 0 <= OS.pos (file a1)) by (cbn; lia).
  assert (Wf1 : WF a1) by exact Wf.
  pose proof Wf as [Hw24 Hfl]. fold hw in Hw24.
  assert (Hhdr : len (writeInt (zeros hw) (len p)) = len (bufRWEntrySize (shm a1))).
  { rewrite len_writeInt, len_zeros by assumption. reflexivity. }
  assert (Hri : readInt (writeInt (zeros hw) (len p)) = len p)
    by (apply fits_header; assumption).
  unfold frame in Hs. rewrite <- !app_assoc in Hs. cbn [List.app] in Hs.
  destruct (Entry_read (mkEntry o 0 [] false) a1) as [[[a2 e2] mb] err] eqn:ER.
  destruct (Entry_read_snug_frame _ _ _ _ _ _ _ _ _ _ Hp1 Wf1 Sn Hs Hhdr Hri ER)
    as (He & _ & -> & _).
  destruct (Entry_read_frame _ _ _ _ _ _ Hp1 ER)
    as ((K1 & K2 & K3 & K4 & K5 & K6 & K7 & K8 & K9) & Hsd & _).
  cbn [off size bytes] in He.
  change (negb (Byte.eqb fCompleteEntry fCompleteEntry)) with false in He.
  assert (Hby : p ++ drop (len p) (if len (@nil byte) <? len p then zeros (len p) else [])
                = p).
  { pose proof (len_nonneg p) as Hlp. change (len (@nil byte)) with 0.
    destruct (0 <? len p) eqn:E0.
    - rewrite drop_zeros by lia. rewrite Z.sub_diag. apply app_nil_r.
    - unfold drop. rewrite skipn_nil. apply app_nil_r. }
  rewrite Hby in He. subst e2.
  exists a2, (mkEntry o (len p) p false).
  splits; auto.
  - unfold Bytes. cbn [size bytes]. apply take_all. lia.
  - eapply (stores_kept app); eauto.
Qed.

(** On a log that stores the payloads [before ++ p :: after], [Read] at the
    offset of the frame of [p], the total length of the frames before it,
    returns an entry at that offset whose bytes are [p], of size the length
    of [p] and not incomplete, with no error, when the file from that frame
    on fits one fill of the reader's buffer.  The log stores the same
    payloads afterwards. *)
Theorem Read_returns_the_payload (app : Appender) (before after : list (list byte))
                                 (p : list byte) :
  let hw := len (bufRWEntrySize (shm app)) in
  let o := totalLen hw before in
  stores app (before ++ p :: after) ->
  totalLen hw (p :: after) <= Bufio.bufsz ->
  exists app' e,
    Read app o = (app', Some e, None)
    /\ Offset e = o /\ Size e = len p /\ Bytes e = p /\ Incomplete e = false
    /\ stores app' (before ++ p :: after).
Proof.
  intros hw o St Hfit.
  destruct (Read_stored app before after p St Hfit)
    as (app' & e & R & Ho & Hs & Hb & Hi & St').
  exists app', e. splits; assumption.
Qed.

Lemma Read_returns_the_payload_witness :
  exists app' e,
    Read someLog (totalLen 2 [[x01]; [x02; x03]]) = (app', Some e, None)
    /\ Offset e = totalLen 2 [[x01]; [x02; x03]]
    /\ Size e = len [x04] /\ Bytes e = [x04] /\ Incomplete e = false
    /\ stores app' ([[x01]; [x02; x03]] ++ [x04] :: [[x05; x06; x07]]).
Proof.
  apply (Read_returns_the_payload someLog [[x01]; [x02; x03]] [[x05; x06; x07]]
           [x04]).
  - exact stores_someLog.
  - vm_compute. discriminate.
Defined.

(** ** Opening a file *)

Lemma emit_nil {H : Type} (r : option (FoldOut H)) : emit [] r = r.
Proof. destruct r as [[[[a h] e] tr] |]; reflexivity. Qed.

Lemma emit_app {H : Type} (a b : list Event) (r : option (FoldOut H)) :
  emit a (emit b r) = emit (a ++ b) r.
Proof.
  destruct r as [[[[x h] e] tr] |]; cbn [emit]; [| reflexivity].
  now rewrite app_assoc.
Qed.

(** The turns of the loop over complete frames that the handler takes
    without stopping, before it goes on with what follows them. *)
Lemma FoldLoop_prefix {H : Type} `{FoldHandler H} (ps : list (list byte)) :
  forall (app : Appender) (h hN : H) (o hw : Z) (tail : list byte),
  hw = len (bufRWEntrySize (shm app)) ->
  0 <= OS.pos (file app) -> WF app -> asnug app ->
  astream app = frames hw ps ++ tail ->
  Forall (fun p => len p < 256 ^ hw) ps ->
  0 <= o -> o + len (astream app) < 2 ^ 63 ->
  feed h (delivered hw o (bytes (sharedEntry (shm app))) ps) = (hN, true) ->
  exists a evs,
    (forall fuel, FoldLoop (length ps + fuel) app h o
                  = emit evs (FoldLoop fuel a hN (o + totalLen hw ps)))
    /\ astream a = tail /\ asnug a /\ 0 <= OS.pos (file a)
    /\ same_disk (file app) (file a)
    /\ wr a = wr app /\ maxEntrySize a = maxEntrySize app
    /\ baseOffset a = baseOffset app /\ asize a = asize app
    /\ closed a = closed app /\ aerr a = aerr app
    /\ len (bufRWEntrySize (shm a)) = hw
    /\ len (bufRWEntryFlag (shm a)) = len (bufRWEntryFlag (shm app)).
Proof.
  induction ps as [| p ps IH];
    intros app h hN o hw tail Ehw Hp Wf Sn Hs Hfit Ho Hob Hfeed.
  - cbn [delivered feed] in Hfeed. injection Hfeed as <-.
    exists app, []. cbn [frames map concat List.app totalLen length Nat.add] in *.
    rewrite Z.add_0_r. splits; auto using same_disk_refl.
    intro fuel. now rewrite emit_nil.
  - rewrite frames_cons, <- app_assoc in Hs.
    inversion Hfit as [| p' ps' Hfp Hfps]; subst p' ps'.
    destruct (FoldBody_frame app h o hw p (frames hw ps ++ tail) Ehw Hp Wf Sn Hs Hfp)
      as (a & e & He & FB & Hse & Hs1 & Sn1 & Hp1 & Hd & K1 & K2 & K3 & K4 & K5
          & K6 & K7 & K8).
    cbn [delivered] in Hfeed. rewrite <- He in Hfeed.
    destruct (feed_cons _ _ _ _ Hfeed) as (h' & HF & Hfeed').
    rewrite HF in FB. cbn [fst snd] in FB. unfold afterFold in FB.
    pose proof Wf as [_ Hfl].
    assert (Hh0 : 0 <= hw) by (rewrite Ehw; apply len_nonneg).
    assert (Hlen : len (astream app) = frameLen hw p + len (astream a)).
    { rewrite Hs, Hs1, len_app, len_frame by assumption. reflexivity. }
    pose proof (len_nonneg (astream a)) as Hla.
    pose proof (len_nonneg p) as Hlp.
    rewrite K7, K8, Hfl in FB.
    assert (Ese : size e = len p) by (rewrite He; reflexivity).
    rewrite Ese in FB. fold (frameLen hw p) in FB.
    rewrite wrap64_small in FB by (unfold frameLen in *; lia).
    assert (Wfa : WF a).
    { destruct Wf as [W1 W2]. split; [rewrite K7, Ehw; exact W1 | congruence]. }
    assert (Hfeed2 : feed h' (delivered hw (o + frameLen hw p)
                                (bytes (sharedEntry (shm a))) ps) = (hN, true)).
    { rewrite Hse. rewrite He at 1. exact Hfeed'. }
    destruct (IH a h' hN (o + frameLen hw p) hw tail (eq_sym K7) Hp1 Wfa Sn1 Hs1 Hfps)
      as (a2 & evs & L & Hs2 & Sn2 & Hp2 & Hd2 & J1 & J2 & J3 & J4 & J5 & J6 & J7 & J8);
      [unfold frameLen; lia | lia | exact Hfeed2 |].
    exists a2, ([EvRead e 0 None; EvFold e false None] ++ evs).
    splits; auto; try congruence.
    + intro fuel. cbn [length Nat.add FoldLoop]. rewrite FB, L, emit_app.
      cbn [totalLen]. now rewrite Z.add_assoc.
    + eapply same_disk_trans; eauto.
Qed.

Lemma sizeFold_feed (hw : Z) (ps : list (list byte)) :
  forall (o s : Z) (buf : list byte),
  0 <= hw -> 0 <= s -> s + totalLen hw ps < 2 ^ 63 ->
  feed (mkSizeFold hw 1 s) (delivered hw o buf ps)
  = (mkSizeFold hw 1 (s + totalLen hw ps), true).
Proof.
  induction ps as [| p ps IH]; intros o s buf Hh Hs Hb; cbn [delivered feed totalLen].
  { now rewrite Z.add_0_r. }
  cbn [totalLen] in Hb. pose proof (totalLen_nonneg hw ps Hh) as Ht.
  pose proof (len_nonneg p) as Hp.
  cbn [Fold sizeFoldHandler_FoldHandler sf_sizeLen sf_flagLen sf_size size].
  fold (frameLen hw p).
  rewrite wrap64_small by (unfold frameLen in *; lia).
  rewrite IH by (unfold frameLen in *; lia). now rewrite Z.add_assoc.
Qed.

Lemma feed_drive {H : Type} `{FoldHandler H} (es : list Entry) :
  forall (h hN : H), feed h es = (hN, true) -> drive h es = (hN, None).
Proof.
  induction es as [| e es IH]; intros h hN F; cbn [feed drive] in *.
  { now injection F as <-. }
  destruct (Fold h e) as [[h' c] herr]. destruct c; [discriminate |].
  destruct herr; [discriminate |]. now apply IH.
Qed.

Lemma open_stores (pre : list byte) (ps : list (list byte))
      (script : list (option Z)) (cfg : Config) (hw : Z) :
  1 <= MaxEntrySize cfg < 2 ^ 63 ->
  entrySizeLen (MaxEntrySize cfg) = Some hw ->
  len pre = BaseOffset cfg ->
  Forall (fun p => len p < 256 ^ hw) ps ->
  totalLen hw ps <= Bufio.bufsz ->
  len pre + totalLen hw ps < 2 ^ 63 ->
  exists app,
    OpenWithConfig (pre ++ frames hw ps) script cfg = Some (Opened app None)
    /\ stores app ps
    /\ asize app = totalLen hw ps
    /\ OS.data (file app) = pre ++ frames hw ps
    /\ OS.writable (file app) = negb (ReadOnly cfg)
    /\ OS.faults (file app) = script /\ OS.nfail (file app) = 0%nat
    /\ maxEntrySize app = MaxEntrySize cfg /\ baseOffset app = BaseOffset cfg
    /\ len (bufRWEntrySize (shm app)) = hw.
Proof.
  intros Hm E Hpre Hfp Hfit Hb.
  pose proof (entrySizeLen_cases _ _ E) as Hw.
  pose proof (entrySizeLen_fits _ _ Hm E) as Hmax.
  pose proof (len_nonneg pre) as Hp0.
  assert (Hh0 : 0 <= hw) by (destruct Hw; lia).
  pose proof (totalLen_nonneg hw ps Hh0) as Ht0.
  unfold OpenWithConfig.
  replace ((MaxEntrySize cfg <? 1) || (BaseOffset cfg <? 0)) with false
    by (symmetry; apply orb_false_iff; split; apply Z.ltb_ge; lia).
  rewrite E.
  destruct (newAppender_WF (pre ++ frames hw ps) script cfg hw Hw) as [Wf Hl].
  set (a0 := newAppender (pre ++ frames hw ps) script cfg hw) in *.
  pose proof Wf as [_ Hfl]. rewrite Hl, Hfl.
  assert (Hd0 : drop (baseOffset a0) (OS.data (file a0)) = frames hw ps).
  { cbn. rewrite <- Hpre. apply drop_app_len. }
  assert (Hbase : 0 <= baseOffset a0 <= len (OS.data (file a0))).
  { cbn. rewrite len_app, len_frames by assumption. lia. }
  assert (Hfile : len (OS.data (file a0)) < 2 ^ 63).
  { cbn. rewrite len_app, len_frames by assumption. lia. }
  destruct (FoldWithHandler_frames a0 (mkSizeFold hw 1 0) ps hw (eq_sym Hl)
              eq_refl Wf Hbase Hfile Hd0 Hfp Hfit)
    as (app' & tr & L & _ & (D1 & D2 & D3 & D4) & K1 & K2 & K3 & K4 & K5 & K6
        & K7 & K8).
  rewrite L.
  rewrite (feed_drive _ _ _ (sizeFold_feed hw ps 0 0 _ Hh0 (Z.le_refl 0) ltac:(lia))).
  cbn [fst snd sf_size]. rewrite Z.add_0_l.
  eexists. split; [reflexivity |].
  cbn [file asize set_asize maxEntrySize baseOffset shm]. rewrite D1, D2, D3, D4.
  splits; auto.
  unfold stores. cbn [closed shm wr maxEntrySize baseOffset file asize set_asize].
  rewrite K7, K5, K1, K2, K3, D1.
  splits; auto; try apply Hbase.
  split; cbn [shm set_asize]; [rewrite K7; exact Hw | congruence].
Qed.

(** [OpenWithConfig] on a file that holds, after a prefix as long as the
    base offset, complete frames and nothing more, within one fill of the
    reader's buffer: it returns an open log and no error, the log stores the
    payloads of the frames, its size is the length of the frames, and the
    file has not been written to, whether it was opened read-only or not. *)
Theorem OpenWithConfig_on_whole_frames (pre : list byte) (ps : list (list byte))
      (script : list (option Z)) (cfg : Config) (hw : Z) :
  1 <= MaxEntrySize cfg < 2 ^ 63 ->
  entrySizeLen (MaxEntrySize cfg) = Some hw ->
  len pre = BaseOffset cfg ->
  Forall (fun p => len p < 256 ^ hw) ps ->
  totalLen hw ps <= Bufio.bufsz ->
  len pre + totalLen hw ps < 2 ^ 63 ->
  exists app,
    OpenWithConfig (pre ++ frames hw ps) script cfg = Some (Opened app None)
    /\ stores app ps
    /\ asize app = totalLen hw ps
    /\ OS.data (file app) = pre ++ frames hw ps
    /\ OS.writable (file app) = negb (ReadOnly cfg)
    /\ OS.faults (file app) = script /\ OS.nfail (file app) = 0%nat
    /\ maxEntrySize app = MaxEntrySize cfg /\ baseOffset app = BaseOffset cfg
    /\ len (bufRWEntrySize (shm app)) = hw.
Proof.
  intros Hm E Hpre Hfp Hfit Hb.
  destruct (open_stores pre ps script cfg hw Hm E Hpre Hfp Hfit Hb)
    as (app & O & St & Hs & Hd & Hw & Hf & Hn & Hmx & Hbo & Hhw).
  exists app. splits; assumption.
Qed.

Lemma OpenWithConfig_on_whole_frames_witness :
  exists app,
    OpenWithConfig ([xde; xad; xbe; xef] ++ frames 2 [[x07]; [x08; x09]; [x0a]])
                   [] prefixCfg
    = Some (Opened app None)
    /\ stores app [[x07]; [x08; x09]; [x0a]]
    /\ asize app = totalLen 2 [[x07]; [x08; x09]; [x0a]]
    /\ OS.data (file app)
       = [xde; xad; xbe; xef] ++ frames 2 [[x07]; [x08; x09]; [x0a]]
    /\ OS.writable (file app) = negb (ReadOnly prefixCfg)
    /\ OS.faults (file app) = [] /\ OS.nfail (file app) = 0%nat
    /\ maxEntrySize app = MaxEntrySize prefixCfg
    /\ baseOffset app = BaseOffset prefixCfg
    /\ len (bufRWEntrySize (shm app)) = 2.
Proof.
  apply (OpenWithConfig_on_whole_frames [xde; xad; xbe; xef]
           [[x07]; [x08; x09]; [x0a]] [] prefixCfg 2).
  - vm_compute. split; [discriminate | reflexivity].
  - vm_compute. reflexivity.
  - reflexivity.
  - repeat constructor.
  - vm_compute. discriminate.
  - vm_compute. reflexivity.
Defined.

(** ** A torn tail on a file opened read-only *)

(** The decode step on a file that ends inside the header. *)
Lemma Entry_read_short_header (e : Entry) (app app1 : Appender) (e1 : Entry)
      (mb : Z) (err : option error) :
  0 <= OS.pos (file app) -> WF app -> asnug app ->
  0 < len (astream app) < len (bufRWEntrySize (shm app)) ->
  Entry_read e app = (app1, e1, mb, err) ->
  0 < mb.
Proof.
  intros Hp Wf Sn Hl R.
  pose proof (WF_hw_pos _ Wf) as Hhw.
  unfold Entry_read in R.
  set (hw := len (bufRWEntrySize (shm app))) in *.
  rewrite (len_zeros hw) in R by lia.
  destruct (Bufio.Read (file app) (rd app) hw) as [[[f1 rb1] c] err1] eqn:BR.
  destruct (Bufio_Read_snug_err _ _ _ _ _ _ _ Hp Hhw Sn BR)
    as (Hc & Hs1 & Sn1 & Hp1 & _ & He).
  fold (astream app) in Hc, Hs1, He.
  rewrite take_all in Hc by lia.
  replace (len (astream app) =? 0) with false in He
    by (symmetry; apply Z.eqb_neq; lia).
  subst err1. cbn [unexpected] in R.
  assert (Hn : len c = len (astream app)) by (now rewrite Hc).
  replace (len c =? 0) with false in R by (symmetry; apply Z.eqb_neq; lia).
  rewrite len_copy, len_zeros in R by lia.
  replace (len c =? hw) with false in R by (symmetry; apply Z.eqb_neq; lia).
  set (hbuf := copy (zeros hw) c) in *.
  set (sz := readInt hbuf) in *.
  pose proof (readInt_nonneg hbuf) as Hsz. fold sz in Hsz.
  set (bs0 := if len (bytes e) <? sz then zeros sz else bytes e) in *.
  set (fbuf0 := clear0 (bufRWEntryFlag (shm app))) in *.
  destruct (if 0 =? sz
            then let '(f', rb', c', e') := Bufio.Read f1 rb1 (len fbuf0) in
                 (f', rb', copy fbuf0 c', e')
            else (f1, rb1, fbuf0, None))
    as [[[f3 rb3] fbuf] err3] eqn:FL.
  assert (Hu3 : unexpected err3 = false).
  { destruct (0 =? sz).
    - destruct (Bufio.Read f1 rb1 (len fbuf0)) as [[[f' rb'] c'] e'] eqn:BR3.
      injection FL as _ _ _ <-.
      now destruct (Bufio_Read_frame _ _ _ _ _ _ _ Hp1 (len_nonneg _) BR3)
        as (_ & _ & _ & Hu & _).
    - now injection FL as _ _ _ <-. }
  rewrite Hu3, andb_false_r in R.
  injection R as _ _ <- _.
  destruct (Byte.eqb (byte0 fbuf) x00); lia.
Qed.

(** A file that ends inside a frame: the decode step finds bytes missing. *)
Lemma Entry_read_torn_missing (e : Entry) (app app1 : Appender) (e1 : Entry)
      (mb : Z) (err : option error) :
  let hw := len (bufRWEntrySize (shm app)) in
  0 <= OS.pos (file app) -> WF app -> asnug app ->
  0 < len (astream app) ->
  len (astream app) < hw
  \/ len (astream app) < hw + readInt (take hw (astream app)) + 1 ->
  Entry_read e app = (app1, e1, mb, err) ->
  0 < mb.
Proof.
  intros hw Hp Wf Sn Hl Ht R.
  pose proof (WF_hw_pos _ Wf) as Hhw. fold hw in Hhw.
  destruct (Z.lt_ge_cases (len (astream app)) hw) as [Hlt | Hge].
  - apply (Entry_read_short_header e app app1 e1 mb err Hp Wf Sn); [| exact R].
    fold hw. lia.
  - destruct Ht as [Ht | Ht]; [lia |].
    assert (Hsplit : astream app = take hw (astream app) ++ drop hw (astream app))
      by (symmetry; apply take_drop).
    assert (Hh : len (take hw (astream app)) = len (bufRWEntrySize (shm app)))
      by (rewrite len_take by lia; fold hw; lia).
    assert (Hpl : len (drop hw (astream app)) <= readInt (take hw (astream app)))
      by (rewrite len_drop by lia; lia).
    destruct (Entry_read_snug_torn _ _ _ _ _ _ _ _ Hp Wf Sn Hsplit Hh Hpl R)
      as (_ & -> & _).
    pose proof (readInt_nonneg (take hw (astream app))).
    destruct (len (drop hw (astream app)) =? readInt (take hw (astream app))); lia.
Qed.

Lemma padding_nonnil (mb : Z) : padding mb <> [].
Proof. unfold padding. intro E. apply app_eq_nil in E. destruct E. discriminate. Qed.

Lemma Flush_ro_pending (f f' : OS.File) (w' : Bufio.Writer) (wb p : list byte)
                       (e : option error) :
  OS.writable f = false -> p <> [] ->
  Bufio.Flush f (Bufio.mkWriter (wb ++ p) None) = (f', w', e) ->
  e = Some EBADF /\ OS.data f' = OS.data f /\ OS.writable f' = false.
Proof.
  intros Hro Hp F.
  apply (Flush_ro f f' (Bufio.mkWriter (wb ++ p) None) w' e Hro eq_refl); [| exact F].
  cbn [Bufio.wbuf]. intro E. apply app_eq_nil in E. destruct E as [_ E].
  contradiction.
Qed.

(** The turn of the loop that meets the torn tail, when the file does not
    take writes. *)
Lemma FoldBody_torn_ro {H : Type} `{FoldHandler H} (app : Appender) (h : H) (o : Z)
      (app1 : Appender) (h1 : H) (evs : list Event) (ctl : LoopCtl) :
  let hw := len (bufRWEntrySize (shm app)) in
  0 <= OS.pos (file app) -> WF app -> asnug app ->
  0 < len (astream app) ->
  len (astream app) < hw
  \/ len (astream app) < hw + readInt (take hw (astream app)) + 1 ->
  OS.writable (file app) = false -> Bufio.werr (wr app) = None ->
  FoldBody app h o = (app1, h1, evs, ctl) ->
  h1 = h /\ ctl = Return (Some ErrCompletingLastEntry) /\ folds evs = []
  /\ closed app1 = true /\ aerr app1 = Some EBADF
  /\ OS.data (file app1) = OS.data (file app)
  /\ asize app1 = asize app.
Proof.
  intros hw Hp Wf Sn Hl Ht Hro We FB.
  pose proof (FoldBody_out _ _ _ _ _ _ _ FB) as B.
  destruct B as [a e0 mb err0 f2 w2 n werr ER Hmb W Hf
                | a e0 mb err0 f2 w2 f3 w3 ferr ER Hmb W F Hf
                | a e0 mb err0 a2 ER Rp EE
                | a e0 mb err0 a2 h2 cutoff herr ER Rp EE FE];
    assert (Hap : astream app = stream (file app) (rd app)) by reflexivity;
    pose proof (Entry_read_torn_missing _ _ _ _ _ _ Hp Wf Sn Hl Ht ER) as Hmb0;
    destruct (Entry_read_frame _ _ _ _ _ _ Hp ER)
      as ((K1 & K2 & K3 & K4 & K5 & K6 & K7 & K8 & K9) & (D1 & D2 & D3 & D4) & _);
    assert (Hro' : OS.writable (file a) = false) by congruence;
    assert (We' : Bufio.werr (wr a) = None) by congruence.
  - destruct (Write_ro _ _ _ _ _ _ _ Hro' We' W) as (Dw & Rw & [(-> & -> & _) | ->]).
    + exfalso. rewrite len_padding in Hf by assumption. destruct Hf; congruence.
    + cbn. splits; auto; congruence.
  - destruct (Write_ro _ _ _ _ _ _ _ Hro' We' W) as (Dw & Rw & [(_ & _ & ->) | Ew]);
      [| discriminate].
    destruct (Flush_ro_pending _ _ _ _ _ _ Rw (padding_nonnil mb) F) as (-> & Df & _).
    cbn. splits; auto; congruence.
  - exfalso. destruct Rp as [[Hle _] | (_ & f2 & w2 & f3 & w3 & W & F & _)]; [lia |].
    cbn [file wr set_sharedEntry set_shm] in W.
    destruct (Write_ro _ _ _ _ _ _ _ Hro' We' W) as (Dw & Rw & [(_ & _ & ->) | Ew]);
      [| discriminate].
    destruct (Flush_ro_pending _ _ _ _ _ _ Rw (padding_nonnil mb) F) as (Ef & _).
    discriminate.
  - exfalso. destruct Rp as [[Hle _] | (_ & f2 & w2 & f3 & w3 & W & F & _)]; [lia |].
    cbn [file wr set_sharedEntry set_shm] in W.
    destruct (Write_ro _ _ _ _ _ _ _ Hro' We' W) as (Dw & Rw & [(_ & _ & ->) | Ew]);
      [| discriminate].
    destruct (Flush_ro_pending _ _ _ _ _ _ Rw (padding_nonnil mb) F) as (Ef & _).
    discriminate.
Qed.

(** [OpenWithConfig] in read-only mode on a file whose last frame is torn
    (complete frames, within one fill of the reader's buffer, then the start
    of a frame): the padding cannot be written, the call returns
    [ErrCompletingLastEntry] together with a log that is closed and keeps
    the error of the write, the file is as it was, and the size of the log
    counts the complete frames. *)
Theorem OpenWithConfig_read_only_torn (pre tail : list byte)
      (ps : list (list byte)) (script : list (option Z)) (cfg : Config) (hw : Z) :
  ReadOnly cfg = true ->
  1 <= MaxEntrySize cfg ->
  entrySizeLen (MaxEntrySize cfg) = Some hw ->
  len pre = BaseOffset cfg ->
  Forall (fun p => len p < 256 ^ hw) ps ->
  0 < len tail ->
  len tail < hw \/ len tail < hw + readInt (take hw tail) + 1 ->
  totalLen hw ps + len tail <= Bufio.bufsz ->
  len pre + totalLen hw ps + len tail < 2 ^ 63 ->
  exists app,
    OpenWithConfig (pre ++ frames hw ps ++ tail) script cfg
    = Some (Opened app (Some ErrCompletingLastEntry))
    /\ closed app = true /\ aerr app = Some EBADF
    /\ OS.data (file app) = pre ++ frames hw ps ++ tail
    /\ asize app = totalLen hw ps.
Proof.
  intros Hr Hm E Hpre Hfp Hl Ht Hfit Hb.
  pose proof (entrySizeLen_cases _ _ E) as Hw.
  pose proof (len_nonneg pre) as Hp0.
  assert (Hh0 : 0 <= hw) by (destruct Hw; lia).
  pose proof (totalLen_nonneg hw ps Hh0) as Ht0.
  unfold OpenWithConfig.
  replace ((MaxEntrySize cfg <? 1) || (BaseOffset cfg <? 0)) with false
    by (symmetry; apply orb_false_iff; split; apply Z.ltb_ge; lia).
  rewrite E.
  destruct (newAppender_WF (pre ++ frames hw ps ++ tail) script cfg hw Hw) as [Wf Hl0].
  set (a0 := newAppender (pre ++ frames hw ps ++ tail) script cfg hw) in *.
  pose proof Wf as [_ Hfl]. rewrite Hl0, Hfl.
  unfold FoldWithHandler, seek. change (closed a0) with false. cbn iota.
  rewrite Z.add_0_r.
  change (baseOffset a0) with (BaseOffset cfg).
  rewrite wrap64_small by (change (2 ^ 63) with 9223372036854775808 in *; lia).
  replace (BaseOffset cfg <? 0) with false by (symmetry; apply Z.ltb_ge; lia).
  set (a1 := set_io a0 (OS.Seek (file a0) (BaseOffset cfg)) [] (wr a0)).
  assert (Hs : astream a1 = frames hw ps ++ tail).
  { unfold astream, stream. cbn. rewrite <- Hpre. apply drop_app_len. }
  assert (Sn : asnug a1).
  { right. split; [reflexivity |]. unfold astream, stream in Hs. cbn in Hs |- *.
    rewrite Hs, len_app, len_frames by assumption. exact Hfit. }
  assert (Hp : 0 <= OS.pos (file a1)) by (cbn; lia).
  assert (Wf1 : WF a1) by exact Wf.
  assert (Ehw1 : hw = len (bufRWEntrySize (shm a1))) by (symmetry; exact Hl0).
  assert (Hob : 0 + len (astream a1) < 2 ^ 63).
  { rewrite Hs, len_app, len_frames by assumption. lia. }
  destruct (FoldLoop_prefix ps a1 (mkSizeFold hw 1 0) _ 0 hw tail Ehw1 Hp Wf1 Sn Hs Hfp
              (Z.le_refl 0) Hob
              (sizeFold_feed hw ps 0 0 _ Hh0 (Z.le_refl 0) ltac:(lia)))
    as (a2 & evs & L & Hs2 & Sn2 & Hp2 & (D1 & D2 & D3 & D4) & K1 & K2 & K3 & K4
        & K5 & K6 & K7 & K8).
  assert (Hfu : exists k, fold_fuel a1 = (length ps + S k)%nat).
  { unfold fold_fuel. cbn.
    pose proof (frames_count hw ps tail Hh0) as Hc1.
    rewrite !length_app. unfold frames in Hc1.
    fold (frames hw ps) in Hc1. rewrite len_app in Hc1.
    unfold len in Hc1, Hl.
    exists (length pre + length (frames hw ps) + length tail - length ps)%nat.
    lia. }
  destruct Hfu as [k ->]. rewrite L. cbn [FoldLoop].
  destruct (FoldBody a2 (mkSizeFold hw 1 (0 + totalLen hw ps)) (0 + totalLen hw ps))
    as [[[a3 h3] evs3] ctl] eqn:FB.
  assert (Wf2 : WF a2).
  { split; [rewrite K7; exact Hw | rewrite K8; exact Hfl]. }
  assert (Hl2 : 0 < len (astream a2)) by (rewrite Hs2; exact Hl).
  assert (Ht2 : len (astream a2) < len (bufRWEntrySize (shm a2))
                \/ len (astream a2)
                   < len (bufRWEntrySize (shm a2))
                     + readInt (take (len (bufRWEntrySize (shm a2))) (astream a2)) + 1)
    by (rewrite Hs2, K7; exact Ht).
  assert (Hro : OS.writable (file a2) = false).
  { rewrite D2. cbn. now rewrite Hr. }
  assert (We : Bufio.werr (wr a2) = None) by (now rewrite K1).
  destruct (FoldBody_torn_ro a2 _ _ _ _ _ _ Hp2 Wf2 Sn2 Hl2 Ht2 Hro We FB)
    as (-> & -> & _ & Hcl & Hae & Hda & Hsz).
  cbn [emit]. eexists. split; [reflexivity |].
  cbn [closed aerr file asize set_asize sf_size]. rewrite Hda, D1.
  splits; auto.
Qed.

Lemma OpenWithConfig_read_only_torn_witness :
  exists app,
    OpenWithConfig ([] ++ frames 2 [[x55]] ++ [x02; x00; xaa]) [] readOnlyCfg
    = Some (Opened app (Some ErrCompletingLastEntry))
    /\ closed app = true /\ aerr app = Some EBADF
    /\ OS.data (file app) = [] ++ frames 2 [[x55]] ++ [x02; x00; xaa]
    /\ asize app = totalLen 2 [[x55]].
Proof.
  apply (OpenWithConfig_read_only_torn [] [x02; x00; xaa] [[x55]] [] readOnlyCfg 2).
  - reflexivity.
  - vm_compute. discriminate.
  - vm_compute. reflexivity.
  - reflexivity.
  - repeat constructor.
  - vm_compute. reflexivity.
  - right. vm_compute. reflexivity.
  - vm_compute. discriminate.
  - vm_compute. reflexivity.
Defined.

(** ** What the traversal keeps, whatever the file holds *)

Lemma FoldLoop_config {H : Type} `{FoldHandler H} (fuel : nat) :
  forall (app : Appender) (h : H) (o : Z) (app' : Appender) (h' : H)
         (err : option error) (tr : list Event),
  0 <= OS.pos (file app) ->
  FoldLoop fuel app h o = Some (app', h', err, tr) ->
  maxEntrySize app' = maxEntrySize app /\ baseOffset app' = baseOffset app
  /\ asize app' = asize app
  /\ exists s, OS.data (file app') = OS.data (file app) ++ s.
Proof.
  induction fuel as [| fuel IH]; intros app h o app' h' err tr Hp L;
    [discriminate |].
  cbn [FoldLoop] in L.
  destruct (FoldBody app h o) as [[[app1 h1] evs] ctl] eqn:FB.
  pose proof (FoldBody_out _ _ _ _ _ _ _ FB) as B.
  destruct (BodyOut_continue _ _ _ _ _ _ _ Hp B) as (Hp1 & _).
  assert (Step : maxEntrySize app1 = maxEntrySize app
                 /\ baseOffset app1 = baseOffset app /\ asize app1 = asize app
                 /\ exists s, OS.data (file app1) = OS.data (file app) ++ s).
  { destruct B as [a e0 mb err0 f2 w2 n werr ER Hmb W Hf
                  | a e0 mb err0 f2 w2 f3 w3 ferr ER Hmb W F Hf
                  | a e0 mb err0 a2 ER Rp EE
                  | a e0 mb err0 a2 h2 cutoff herr ER Rp EE FE];
      destruct (Entry_read_frame _ _ _ _ _ _ Hp ER)
        as ((K1 & K2 & K3 & K4 & _) & (D1 & _) & _).
    - destruct (Write_spec _ _ _ _ _ _ _ W) as ((_ & _ & _ & _ & (s & G)) & _).
      cbn. splits; auto. exists s. congruence.
    - destruct (Write_spec _ _ _ _ _ _ _ W) as ((_ & _ & _ & _ & (s & G)) & _).
      destruct (Flush_spec _ _ _ _ _ F) as ((_ & _ & _ & _ & (s' & G')) & _).
      cbn. splits; auto. exists (s ++ s'). rewrite G', G, D1. apply eq_sym, app_assoc.
    - destruct (repaired_spec _ _ _ Rp)
        as ((_ & _ & _ & _ & (s & G)) & _ & _ & _ & _ & _ & R5 & R6 & R7).
      cbn in G, R5, R6, R7. splits; try congruence. exists s. congruence.
    - destruct (repaired_spec _ _ _ Rp)
        as ((_ & _ & _ & _ & (s & G)) & _ & _ & _ & _ & _ & R5 & R6 & R7).
      cbn in G, R5, R6, R7. splits; try congruence. exists s. congruence. }
  destruct Step as (S1 & S2 & S3 & (s & S4)).
  destruct ctl as [e1 | o'].
  - injection L as <- _ _ _. splits; auto. now exists s.
  - destruct (FoldLoop fuel app1 h1 o') as [[[[a2 h2] e2] tr2] |] eqn:L';
      [| discriminate].
    cbn in L. injection L as <- _ _ _.
    destruct (IH _ _ _ _ _ _ _ Hp1 L') as (I1 & I2 & I3 & (s' & I4)).
    splits; try congruence. exists (s ++ s'). rewrite I4, S4. apply eq_sym, app_assoc.
Qed.

(** ** An error of the reducer *)

Lemma FoldLoop_error {H : Type} `{FoldHandler H} (fuel : nat) :
  forall (app : Appender) (h : H) (o : Z) (app' : Appender) (h' : H)
         (err : option error) (tr : list Event) (k : nat) (e : Entry)
         (c : bool) (x : error),
  0 <= OS.pos (file app) ->
  FoldLoop fuel app h o = Some (app', h', err, tr) ->
  nth_error (folds tr) k = Some (e, c, Some x) ->
  length (folds tr) = S k /\ err = Some x /\ closed app' = closed app.
Proof.
  induction fuel as [| fuel IH]; intros app h o app' h' err tr k e c x Hp L Hk;
    [discriminate |].
  cbn [FoldLoop] in L.
  destruct (FoldBody app h o) as [[[app1 h1] evs] ctl] eqn:FB.
  pose proof (FoldBody_out _ _ _ _ _ _ _ FB) as B.
  destruct (BodyOut_continue _ _ _ _ _ _ _ Hp B) as (Hp1 & _).
  destruct B as [a e0 mb err0 f2 w2 n werr ER Hmb W Hf
                | a e0 mb err0 f2 w2 f3 w3 ferr ER Hmb W F Hf
                | a e0 mb err0 a2 ER Rp EE
                | a e0 mb err0 a2 h2 cutoff herr ER Rp EE FE].
  - injection L as _ _ _ <-. destruct k; discriminate.
  - injection L as _ _ _ <-. destruct k; discriminate.
  - injection L as _ _ _ <-. destruct k; discriminate.
  - destruct (Entry_read_frame _ _ _ _ _ _ Hp ER)
      as ((_ & _ & _ & _ & K5 & _) & _).
    destruct (repaired_spec _ _ _ Rp) as (_ & _ & _ & _ & R3 & _).
    cbn in R3.
    unfold afterFold in L.
    destruct herr as [y |]; [| destruct cutoff].
    + injection L as <- _ <- <-. cbn in Hk |- *.
      destruct k as [| [| k]]; [| discriminate ..].
      injection Hk as _ _ <-. splits; auto. congruence.
    + injection L as _ _ _ <-. cbn in Hk. destruct k as [| [| k]]; discriminate.
    + destruct (FoldLoop fuel a2 h2 _) as [[[[a3 h3] e3] tr3] |] eqn:L3;
        [| discriminate].
      cbn in L. injection L as <- _ <- <-. cbn in Hk |- *.
      destruct k as [| k]; [discriminate |].
      cbn in Hk. destruct (IH _ _ _ _ _ _ _ _ _ _ _ Hp1 L3 Hk) as (Hlen & -> & Hcl).
      splits; auto. congruence.
Qed.

(** When a call of the reducer returns an error, whatever it says of the
    cutoff, the traversal makes no further call and returns that very error;
    the log is not closed by it. *)
Theorem reducer_error_stops {H : Type} `{FoldHandler H} (app : Appender) (h : H) :
  WF app ->
  exists app' h' err tr,
    FoldWithHandler app h = Some (app', h', err, tr)
    /\ forall (k : nat) (e : Entry) (c : bool) (x : error),
         nth_error (folds tr) k = Some (e, c, Some x) ->
         length (folds tr) = S k /\ err = Some x /\ closed app' = closed app.
Proof.
  intro Wf.
  destruct (FoldWithHandler_returns app h Wf) as [[[[app' h'] err] tr] E].
  exists app', h', err, tr. split; [exact E |].
  intros k e c x Hn. unfold FoldWithHandler in E.
  destruct (closed app) eqn:Hc.
  { injection E as _ _ _ <-. destruct k; discriminate. }
  destruct (seek app 0) as [app1 [y |]] eqn:S.
  { injection E as _ _ _ <-. destruct k; discriminate. }
  destruct (seek_spec _ _ _ S) as [-> Hp].
  match type of E with
  | FoldLoop _ ?a _ _ = _ => assert (Hp' : 0 <= OS.pos (file a)) by exact Hp
  end.
  destruct (FoldLoop_error _ _ _ _ _ _ _ _ _ _ _ _ Hp' E Hn) as (A1 & A2 & A3).
  cbn in A3. splits; auto. congruence.
Qed.

Lemma reducer_error_stops_witness :
  exists app' h' tr e,
    FoldWithHandler threeLog (mkForEach failAtSecond 0%nat)
    = Some (app', h', Some (ErrUser 7), tr)
    /\ nth_error (folds tr) 1 = Some (e, false, Some (ErrUser 7))
    /\ length (folds tr) = 2%nat
    /\ closed app' = false.
Proof.
  assert (Wf : WF threeLog) by (split; [left |]; reflexivity).
  destruct (reducer_error_stops threeLog (mkForEach failAtSecond 0%nat) Wf)
    as (app' & h' & err & tr & E & Hk).
  assert (Hn : exists e,
             option_map (fun out => nth_error (folds (snd out)) 1)
                        (FoldWithHandler threeLog (mkForEach failAtSecond 0%nat))
             = Some (Some (e, false, Some (ErrUser 7))))
    by (vm_compute; eexists; reflexivity).
  destruct Hn as [e Hn]. rewrite E in Hn. cbn [option_map snd] in Hn.
  injection Hn as Hn.
  destruct (Hk 1%nat e false (ErrUser 7) Hn) as (Hl & -> & Hc).
  exists app', h', tr, e. splits; auto.
Defined.

(** ** The operators on a log that stores payloads *)

Lemma drive_mapHandler {S V : Type} (f : MapFn S V) (es : list Entry) :
  forall (s : S) (acc : list V),
  mh_ls (fst (drive (mkMap f s acc) es)) = acc ++ fst (mapped f s es)
  /\ snd (drive (mkMap f s acc) es) = snd (mapped f s es).
Proof.
  induction es as [| e es IH]; intros s acc; cbn [drive mapped].
  { cbn. now rewrite app_nil_r. }
  cbn [Fold mapHandler_FoldHandler mh_f mh_env mh_ls].
  destruct (f s e) as [[[s' l] cutoff] err].
  destruct err as [x |]; destruct cutoff; cbn [is_none is_some negb fst snd mh_ls];
    try (rewrite app_nil_r; auto); auto.
  destruct (IH s' (acc ++ [l])) as [I1 I2].
  destruct (mapped f s' es) as [ls r]. cbn [fst snd] in *.
  rewrite I1, I2, <- app_assoc. auto.
Qed.

Lemma drive_filteredMapHandler {S V : Type} (f : FilterFn S) (m : MapFn S V)
                               (es : list Entry) :
  forall (s : S) (acc : list V),
  fm_ls (fst (drive (mkFilteredMap f m s acc) es))
  = acc ++ fst (filteredMapped f m s es)
  /\ snd (drive (mkFilteredMap f m s acc) es) = snd (filteredMapped f m s es).
Proof.
  induction es as [| e es IH]; intros s acc; cbn [drive filteredMapped].
  { cbn. now rewrite app_nil_r. }
  cbn [Fold filteredMapHandler_FoldHandler fm_f fm_m fm_env fm_ls].
  destruct (f s e) as [[[s1 v] fcutoff] err].
  destruct err as [x |]; cbn [is_none is_some negb andb].
  { destruct fcutoff; cbn [fst snd fm_ls]; rewrite app_nil_r; auto. }
  destruct v.
  - destruct (m s1 e) as [[[s2 l] mcutoff] err'].
    destruct err' as [x |]; destruct (fcutoff || mcutoff);
      cbn [is_none is_some negb fst snd fm_ls];
      try (rewrite app_nil_r; auto); auto.
    destruct (IH s2 (acc ++ [l])) as [I1 I2].
    destruct (filteredMapped f m s2 es) as [ls r]. cbn [fst snd] in *.
    rewrite I1, I2, <- app_assoc. auto.
  - destruct fcutoff; cbn [fst snd fm_ls]; [rewrite app_nil_r; auto |].
    apply IH.
Qed.

Lemma drive_gFoldHandler {S V : Type} (f : FoldFn S V) (es : list Entry) :
  forall (s : S) (v : V),
  gf_v (fst (drive (mkGFold f s v) es)) = fst (folded f s v es)
  /\ snd (drive (mkGFold f s v) es) = snd (folded f s v es).
Proof.
  induction es as [| e es IH]; intros s v; cbn [drive folded].
  { cbn. auto. }
  cbn [Fold gFoldHandler_FoldHandler gf_f gf_env gf_v].
  destruct (f s e v) as [[[s' nv] cutoff] err].
  destruct err as [x |]; destruct cutoff;
    cbn [is_none is_some negb fst snd gf_v]; auto.
Qed.

Lemma drive_forEachHandler {S : Type} (f : ForEachFn S) (es : list Entry) :
  forall (s : S), snd (drive (mkForEach f s) es) = visited f s es.
Proof.
  induction es as [| e es IH]; intros s; cbn [drive visited]; [reflexivity |].
  cbn [Fold forEachHandler_FoldHandler fe_f fe_env].
  destruct (f s e) as [[s' cutoff] err].
  destruct err as [x |]; destruct cutoff; cbn [fst snd]; auto.
Qed.

(** A traversal of a log that stores [ps], ready for the operators. *)
Lemma FoldWithHandler_stored {H : Type} `{FoldHandler H} (app : Appender) (h : H)
      (ps : list (list byte)) :
  stores app ps ->
  totalLen (len (bufRWEntrySize (shm app))) ps <= Bufio.bufsz ->
  exists app' tr,
    FoldWithHandler app h
    = Some (app',
            fst (drive h (delivered (len (bufRWEntrySize (shm app))) 0
                            (bytes (sharedEntry (shm app))) ps)),
            snd (drive h (delivered (len (bufRWEntrySize (shm app))) 0
                            (bytes (sharedEntry (shm app))) ps)),
            tr)
    /\ stores app' ps.
Proof.
  intros St Hfit.
  pose proof St as (Hc & Wf & Hwr & Hmax & Hbase & Hfile & Hd & Hfp & Hsz).
  destruct (FoldWithHandler_frames app h ps _ eq_refl Hc Wf Hbase Hfile Hd Hfp Hfit)
    as (app' & tr & L & Hfo & Hd' & K1 & K2 & K3 & K4 & K5 & K6 & K7 & K8).
  exists app', tr. split; [exact L |].
  apply (stores_kept app); auto.
Qed.

(** [Map] on a log that stores [ps], within one fill of the reader's buffer:
    the list it returns holds the values of the callback on the entries of
    [ps], in the order of the file, up to and with the entry at which the
    callback asks for the cutoff; the value that comes with an error is left
    out, and the error is returned with the values before it. *)
Theorem Map_on_stored_log {S V : Type} (app : Appender) (f : MapFn S V) (s : S)
      (ps : list (list byte)) :
  let hw := len (bufRWEntrySize (shm app)) in
  let es := delivered hw 0 (bytes (sharedEntry (shm app))) ps in
  stores app ps -> totalLen hw ps <= Bufio.bufsz ->
  exists app',
    Map app f s = Some (app', fst (mapped f s es), snd (mapped f s es))
    /\ stores app' ps.
Proof.
  intros hw es St Hfit.
  destruct (FoldWithHandler_stored app (mkMap f s []) ps St Hfit)
    as (app' & tr & L & St').
  destruct (drive_mapHandler f es s []) as [D1 D2].
  exists app'. split; [| exact St'].
  unfold Map. fold hw in L. fold es in L. rewrite L.
  cbn [Values mapHandler_FoldHandler]. rewrite D1, D2. reflexivity.
Qed.

Lemma Map_on_stored_log_witness :
  let es := delivered 2 0 (bytes (sharedEntry (shm someLog))) somePayloads in
  exists app',
    Map someLog upTo9 tt
    = Some (app', fst (mapped upTo9 tt es), snd (mapped upTo9 tt es))
    /\ stores app' somePayloads.
Proof.
  apply (Map_on_stored_log someLog upTo9 tt somePayloads).
  - exact stores_someLog.
  - vm_compute. discriminate.
Defined.

(** [FilteredMap] on such a log: the values of the map callback on the
    entries the filter includes, in the order of the file; the traversal
    ends at the first entry at which the filter or the map asks for the
    cutoff, and at the first error of either, which is returned. *)
Theorem FilteredMap_on_stored_log {S V : Type} (app : Appender) (f : FilterFn S)
      (m : MapFn S V) (s : S) (ps : list (list byte)) :
  let hw := len (bufRWEntrySize (shm app)) in
  let es := delivered hw 0 (bytes (sharedEntry (shm app))) ps in
  stores app ps -> totalLen hw ps <= Bufio.bufsz ->
  exists app',
    FilteredMap app f m s
    = Some (app', fst (filteredMapped f m s es), snd (filteredMapped f m s es))
    /\ stores app' ps.
Proof.
  intros hw es St Hfit.
  destruct (FoldWithHandler_stored app (mkFilteredMap f m s []) ps St Hfit)
    as (app' & tr & L & St').
  destruct (drive_filteredMapHandler f m es s []) as [D1 D2].
  exists app'. split; [| exact St'].
  unfold FilteredMap. fold hw in L. fold es in L. rewrite L.
  cbn [Values filteredMapHandler_FoldHandler]. rewrite D1, D2. reflexivity.
Qed.

Lemma FilteredMap_on_stored_log_witness :
  let es := delivered 2 0 (bytes (sharedEntry (shm someLog))) somePayloads in
  exists app',
    FilteredMap someLog oneByte upTo9 tt
    = Some (app', fst (filteredMapped oneByte upTo9 tt es),
            snd (filteredMapped oneByte upTo9 tt es))
    /\ stores app' somePayloads.
Proof.
  apply (FilteredMap_on_stored_log someLog oneByte upTo9 tt somePayloads).
  - exact stores_someLog.
  - vm_compute. discriminate.
Defined.

(** [Fold] on such a log: the value returned is the initial value taken
    through the callback over the entries of [ps], in the order of the file,
    up to and with the entry at which the callback asks for the cutoff; at an
    error the traversal ends with the value reached before it, and the
    error. *)
Theorem Fold_on_stored_log {S V : Type} (app : Appender) (f : FoldFn S V) (s : S)
      (v : V) (ps : list (list byte)) :
  let hw := len (bufRWEntrySize (shm app)) in
  let es := delivered hw 0 (bytes (sharedEntry (shm app))) ps in
  stores app ps -> totalLen hw ps <= Bufio.bufsz ->
  exists app',
    Fold_ app f s v
    = Some (app', Some (fst (folded f s v es)), snd (folded f s v es))
    /\ stores app' ps.
Proof.
  intros hw es St Hfit.
  destruct (FoldWithHandler_stored app (mkGFold f s v) ps St Hfit)
    as (app' & tr & L & St').
  destruct (drive_gFoldHandler f es s v) as [D1 D2].
  exists app'. split; [| exact St'].
  unfold Fold_. fold hw in L. fold es in L. rewrite L.
  cbn [Value gFoldHandler_FoldHandler]. rewrite D1, D2. reflexivity.
Qed.

Lemma Fold_on_stored_log_witness :
  let es := delivered 2 0 (bytes (sharedEntry (shm someLog))) somePayloads in
  exists app',
    Fold_ someLog sumSizes tt 0
    = Some (app', Some (fst (folded sumSizes tt 0 es)),
            snd (folded sumSizes tt 0 es))
    /\ stores app' somePayloads.
Proof.
  apply (Fold_on_stored_log someLog sumSizes tt 0 somePayloads).
  - exact stores_someLog.
  - vm_compute. discriminate.
Defined.

(** [ForEach] on such a log returns the error of the first call of the
    callback that returns one, and none when no call does; the callback is
    not called after that call, nor after one that asks for the cutoff. *)
Theorem ForEach_on_stored_log {S : Type} (app : Appender) (f : ForEachFn S) (s : S)
      (ps : list (list byte)) :
  let hw := len (bufRWEntrySize (shm app)) in
  let es := delivered hw 0 (bytes (sharedEntry (shm app))) ps in
  stores app ps -> totalLen hw ps <= Bufio.bufsz ->
  exists app',
    ForEach app f s = Some (app', visited f s es)
    /\ stores app' ps.
Proof.
  intros hw es St Hfit.
  destruct (FoldWithHandler_stored app (mkForEach f s) ps St Hfit)
    as (app' & tr & L & St').
  exists app'. split; [| exact St'].
  unfold ForEach. fold hw in L. fold es in L. rewrite L.
  now rewrite drive_forEachHandler.
Qed.

Lemma ForEach_on_stored_log_witness :
  let es := delivered 2 0 (bytes (sharedEntry (shm someLog))) somePayloads in
  exists app',
    ForEach someLog failAtSecond 0%nat = Some (app', visited failAtSecond 0%nat es)
    /\ stores app' somePayloads.
Proof.
  apply (ForEach_on_stored_log someLog failAtSecond 0%nat somePayloads).
  - exact stores_someLog.
  - vm_compute. discriminate.
Defined.

Lemma mapped_copyBytes (es : list Entry) :
  mapped copyBytes tt es = (map Bytes es, None).
Proof.
  induction es as [| e es IH]; cbn [mapped map copyBytes]; [reflexivity |].
  fold copyBytes. now rewrite IH.
Qed.

(** ** The array of the shared entry *)

Lemma last_cons {A : Type} (l : list A) :
  forall (x d : A), last (x :: l) d = last l x.
Proof.
  induction l as [| y l IH]; intros x d; [reflexivity |].
  change (last (x :: y :: l) d) with (last (y :: l) d).
  now rewrite !IH.
Qed.

Lemma FoldBody_end_bytes {H : Type} `{FoldHandler H} (app a : Appender)
      (h h1 : H) (o : Z) (evs : list Event) (ctl : LoopCtl) :
  0 <= OS.pos (file app) -> WF app -> astream app = [] ->
  FoldBody app h o = (a, h1, evs, ctl) ->
  bytes (sharedEntry (shm a)) = bytes (sharedEntry (shm app)).
Proof.
  intros Hp Wf Hs FB.
  pose proof (WF_hw_pos _ Wf) as Hhw.
  unfold FoldBody, Entry_read in FB.
  rewrite len_zeros in FB by lia.
  destruct (Bufio.Read (file app) (rd app) _) as [[[f1 rb1] c] err] eqn:BR.
  destruct (Bufio_Read_spec _ _ _ _ _ _ _ Hp Hhw BR) as (Hst & _ & _ & _ & Hnil & _).
  unfold astream in Hs. rewrite Hs in Hst. symmetry in Hst.
  apply app_eq_nil in Hst. destruct Hst as [-> _].
  destruct (Hnil eq_refl) as [-> _].
  cbn in FB. inversion FB; subst. reflexivity.
Qed.

Lemma FoldLoop_shared {H : Type} `{FoldHandler H} (ps : list (list byte)) :
  forall (fuel : nat) (app app' : Appender) (h hN h' : H) (o hw : Z)
         (err : option error) (tr : list Event),
  hw = len (bufRWEntrySize (shm app)) ->
  0 <= OS.pos (file app) -> WF app -> asnug app ->
  astream app = frames hw ps ->
  Forall (fun p => len p < 256 ^ hw) ps ->
  0 <= o -> o + len (astream app) < 2 ^ 63 ->
  feed h (delivered hw o (bytes (sharedEntry (shm app))) ps) = (hN, true) ->
  FoldLoop fuel app h o = Some (app', h', err, tr) ->
  bytes (sharedEntry (shm app'))
  = last (map bytes (delivered hw o (bytes (sharedEntry (shm app))) ps))
         (bytes (sharedEntry (shm app))).
Proof.
  induction ps as [| p ps IH];
    intros fuel app app' h hN h' o hw err tr Ehw Hp Wf Sn Hs Hfit Ho Hob Hfeed L;
    (destruct fuel as [| fuel]; [discriminate |]); cbn [FoldLoop] in L.
  - cbn [frames map concat] in Hs.
    destruct (FoldBody app h o) as [[[a h1] evs] ctl] eqn:FB.
    pose proof (FoldBody_end_bytes _ _ _ _ _ _ _ Hp Wf Hs FB) as Hb.
    destruct (FoldBody_end app h o Hp Wf Hs) as (a' & e & FB' & _).
    rewrite FB in FB'. inversion FB'; subst. inversion L; subst.
    cbn. exact Hb.
  - rewrite frames_cons in Hs.
    inversion Hfit as [| p' ps' Hfp Hfps]; subst p' ps'.
    destruct (FoldBody_frame app h o hw p (frames hw ps) Ehw Hp Wf Sn Hs Hfp)
      as (a & e & He & FB & Hse & Hs1 & Sn1 & Hp1 & Hd & K1 & K2 & K3 & K4 & K5
          & K6 & K7 & K8).
    rewrite FB in L. cbn [delivered] in Hfeed |- *. rewrite <- He in Hfeed |- *.
    destruct (feed_cons _ _ _ _ Hfeed) as (h1 & HF & Hfeed').
    rewrite HF in L. cbn [fst snd] in L. unfold afterFold in L.
    pose proof Wf as [_ Hfl].
    assert (Hh0 : 0 <= hw) by (rewrite Ehw; apply len_nonneg).
    assert (Hlen : len (astream app) = frameLen hw p + len (astream a)).
    { rewrite Hs, Hs1, len_app, len_frame by assumption. reflexivity. }
    pose proof (len_nonneg (astream a)) as Hla.
    pose proof (len_nonneg p) as Hlp.
    rewrite K7, K8, Hfl in L.
    assert (Ese : size e = len p) by (rewrite He; reflexivity).
    rewrite Ese in L. fold (frameLen hw p) in L.
    rewrite wrap64_small in L by (unfold frameLen in *; lia).
    assert (Wfa : WF a).
    { destruct Wf as [W1 W2]. split; [rewrite K7, Ehw; exact W1 | congruence]. }
    destruct (FoldLoop fuel a h1 (o + frameLen hw p))
      as [[[[a2 h2] e2] tr2] |] eqn:L2; [| discriminate].
    cbn in L. inversion L; subst a2 h2 e2 tr; clear L.
    assert (Eb : bytes e
                 = p ++ drop (len p)
                          (if len (bytes (sharedEntry (shm app))) <? len p
                           then zeros (len p) else bytes (sharedEntry (shm app))))
      by (rewrite He; reflexivity).
    assert (Hfeed2 : feed h1 (delivered hw (o + frameLen hw p)
                                (bytes (sharedEntry (shm a))) ps) = (hN, true))
      by (rewrite Hse, Eb; exact Hfeed').
    rewrite (IH fuel a app' h1 hN h' (o + frameLen hw p) hw err tr2
               (eq_sym K7) Hp1 Wfa Sn1 Hs1 Hfps) ; auto;
      [| unfold frameLen; lia | lia].
    rewrite Hse. cbn [map]. rewrite <- Eb. now rewrite last_cons.
Qed.

Lemma delivered_last (hw : Z) (ps : list (list byte)) :
  forall (o : Z) (arr : list byte),
  Forall (fun p => len p <= len arr) ps ->
  last (map bytes (delivered hw o arr ps)) arr = overlay arr ps.
Proof.
  induction ps as [| p ps IH]; intros o arr Hfit; [reflexivity |].
  inversion Hfit as [| p' ps' Hp Hps]; subst p' ps'.
  cbn [delivered map overlay fold_left].
  replace (len arr <? len p) with false by (symmetry; apply Z.ltb_ge; lia).
  set (arr' := p ++ drop (len p) arr).
  assert (Hl : len arr' = len arr).
  { subst arr'. rewrite len_app, len_drop by (pose proof (len_nonneg p); lia).
    lia. }
  fold (overlay arr' ps). rewrite <- (IH (o + frameLen hw p) arr')
    by (rewrite Hl; exact Hps).
  apply last_cons.
Qed.

Lemma feed_keepBytes (es : list Entry) :
  forall (acc : list Z),
  feed (mkMap keepBytes tt acc) es = (mkMap keepBytes tt (acc ++ map Size es), true).
Proof.
  induction es as [| e es IH]; intro acc; cbn [feed map].
  { now rewrite app_nil_r. }
  cbn [Fold mapHandler_FoldHandler mh_f mh_env mh_ls keepBytes].
  cbn [is_none is_some negb]. rewrite IH, <- app_assoc. reflexivity.
Qed.

Lemma FoldWithHandler_shared {H : Type} `{FoldHandler H} (app app' : Appender)
      (h hN h' : H) (ps : list (list byte)) (err : option error)
      (tr : list Event) :
  let hw := len (bufRWEntrySize (shm app)) in
  let arr := bytes (sharedEntry (shm app)) in
  stores app ps -> totalLen hw ps <= Bufio.bufsz ->
  feed h (delivered hw 0 arr ps) = (hN, true) ->
  FoldWithHandler app h = Some (app', h', err, tr) ->
  bytes (sharedEntry (shm app')) = last (map bytes (delivered hw 0 arr ps)) arr.
Proof.
  intros hw arr St Hfit Hfeed L.
  destruct St as (Hc & Wf & Hwr & Hmax & Hbase & Hfile & Hd & Hfp & Hsz).
  fold hw in Hd, Hfp.
  assert (Hh0 : 0 <= hw) by apply len_nonneg.
  unfold FoldWithHandler, seek in L. rewrite Hc, Z.add_0_r in L.
  rewrite wrap64_small in L
    by (change (2 ^ 63) with 9223372036854775808 in *; lia).
  replace (baseOffset app <? 0) with false in L
    by (symmetry; apply Z.ltb_ge; lia).
  set (a1 := set_io app (OS.Seek (file app) (baseOffset app)) [] (wr app)) in *.
  assert (Hs : astream a1 = frames hw ps) by exact Hd.
  assert (Sn : asnug a1).
  { right. split; [reflexivity |]. cbn. rewrite Hd, len_frames by assumption.
    exact Hfit. }
  assert (Hp : 0 <= OS.pos (file a1)) by (cbn; lia).
  assert (Hob : 0 + len (astream a1) < 2 ^ 63).
  { rewrite Hs, len_frames by assumption.
    change (2 ^ 63) with 9223372036854775808. unfold Bufio.bufsz in Hfit. lia. }
  exact (FoldLoop_shared ps _ a1 app' h hN h' 0 hw err tr eq_refl Hp Wf Sn Hs
           Hfp (Z.le_refl 0) Hob Hfeed L).
Qed.

(** The payloads come back through a callback that copies them, not through
    one that keeps the slices.  On a log that stores [ps], within one fill
    of the reader's buffer, [Map] with the callback that copies the bytes of
    each entry returns [ps], in order, and no error.  With the callback that
    returns the slice [e.Bytes()] itself, and payloads that fit the array of
    the shared entry, [Map] returns one slice for each payload, of the
    length of the payload, and all of them are slices of that one array,
    which holds, when [Map] returns, the payloads laid one over the other:
    the slice of a payload shows the start of that array. *)
Theorem Map_copies_or_keeps (app : Appender) (ps : list (list byte)) :
  let hw := len (bufRWEntrySize (shm app)) in
  let arr := bytes (sharedEntry (shm app)) in
  stores app ps -> totalLen hw ps <= Bufio.bufsz ->
  (exists app', Map app copyBytes tt = Some (app', ps, None) /\ stores app' ps)
  /\ (Forall (fun p => len p <= len arr) ps ->
      exists app',
        Map app keepBytes tt = Some (app', map len ps, None)
        /\ bytes (sharedEntry (shm app')) = overlay arr ps
        /\ map (shown (bytes (sharedEntry (shm app')))) (map len ps)
           = map (fun p => take (len p) (overlay arr ps)) ps
        /\ stores app' ps).
Proof.
  intros hw arr St Hfit. split.
  - destruct (FoldWithHandler_stored app (mkMap copyBytes tt []) ps St Hfit)
      as (app' & tr & L & St').
    set (es := delivered _ 0 _ ps) in L.
    destruct (drive_mapHandler copyBytes es tt []) as [D1 D2].
    exists app'. split; [| exact St'].
    unfold Map. rewrite L. cbn [Values mapHandler_FoldHandler].
    rewrite D1, D2, mapped_copyBytes. cbn [fst snd List.app].
    destruct (delivered_view (len (bufRWEntrySize (shm app))) ps 0
                (bytes (sharedEntry (shm app)))) as (V1 & _).
    subst es. now rewrite V1.
  - intro Hin.
    destruct (FoldWithHandler_stored app (mkMap keepBytes tt []) ps St Hfit)
      as (app' & tr & L & St').
    fold hw arr in L. set (es := delivered hw 0 arr ps) in L.
    pose proof (feed_keepBytes es []) as Hfeed.
    pose proof (FoldWithHandler_shared app app' _ _ _ ps _ tr St Hfit Hfeed L) as Hsh.
    fold hw arr in Hsh. rewrite (delivered_last hw ps 0 arr Hin) in Hsh.
    destruct (drive_mapHandler keepBytes es tt []) as [D1 D2].
    destruct (delivered_view hw ps 0 arr) as (_ & _ & V3 & _). fold es in V3.
    assert (Hm : mapped keepBytes tt es = (map Size es, None)).
    { clear. induction es as [| e es IH]; [reflexivity |].
      cbn [mapped map keepBytes]. fold keepBytes. now rewrite IH. }
    exists app'. split.
    + unfold Map. rewrite L. cbn [Values mapHandler_FoldHandler].
      rewrite D1, D2, Hm. cbn [fst snd List.app]. now rewrite V3.
    + split; [exact Hsh |]. split; [| exact St'].
      rewrite Hsh, map_map. reflexivity.
Qed.

Lemma Map_copies_or_keeps_witness :
  (exists app',
     Map someLog copyBytes tt = Some (app', somePayloads, None)
     /\ stores app' somePayloads)
  /\ (exists app',
        Map someLog keepBytes tt = Some (app', map len somePayloads, None)
        /\ map (shown (bytes (sharedEntry (shm app')))) (map len somePayloads)
           = map (fun p => take (len p)
                             (overlay (bytes (sharedEntry (shm someLog)))
                                      somePayloads))
                 somePayloads
        /\ map (fun p => take (len p)
                           (overlay (bytes (sharedEntry (shm someLog)))
                                    somePayloads))
               somePayloads
           <> somePayloads).
Proof.
  destruct (Map_copies_or_keeps someLog somePayloads stores_someLog) as [A B].
  { vm_compute. discriminate. }
  split; [exact A |].
  destruct B as (app' & M & _ & Hsh & _).
  { vm_compute. repeat constructor; discriminate. }
  exists app'. split; [exact M |]. split; [exact Hsh |].
  vm_compute. discriminate.
Defined.

(** ** The file is only ever appended to *)

Lemma wstep_extends (f f' : OS.File) (w' : Bufio.Writer) (e : option error) :
  wstep f f' w' e -> exists s, OS.data f' = OS.data f ++ s.
Proof. intros ((_ & _ & _ & _ & G) & _). exact G. Qed.

Lemma extends_trans (a b c : list byte) :
  (exists s, b = a ++ s) -> (exists s, c = b ++ s) -> exists s, c = a ++ s.
Proof.
  intros [s ->] [s' ->]. exists (s ++ s'). now rewrite app_assoc.
Qed.

Lemma AppendBulk_loop_extends (bss : list (list byte)) :
  forall (app app' : Appender) (offs : list Z) (wb : Z)
         (r : result (list Z * Z)),
  AppendBulk_loop app bss offs wb = (app', r) ->
  exists s, OS.data (file app') = OS.data (file app) ++ s.
Proof.
  induction bss as [| bs rest IH]; intros app app' offs wb r L;
    cbn [AppendBulk_loop] in L.
  { injection L as <- _. exists []. now rewrite app_nil_r. }
  destruct (len bs =? 0).
  { injection L as <- _. exists []. now rewrite app_nil_r. }
  destruct (maxEntrySize app <? len bs).
  { injection L as <- _. exists []. now rewrite app_nil_r. }
  set (hbuf := writeInt (bufRWEntrySize (shm app)) (len bs)) in *.
  cbn [file wr set_sizebuf set_shm] in L.
  destruct (Bufio.Write (file app) (wr app) hbuf) as [[[f1 w1] n1] e1] eqn:W1.
  pose proof (wstep_extends _ _ _ _ (Write_spec _ _ _ _ _ _ _ W1)) as G1.
  destruct (negb (n1 =? len hbuf) || is_some e1).
  { injection L as <- _. exact G1. }
  destruct (Bufio.Write f1 w1 bs) as [[[f2 w2] n2] e2] eqn:W2.
  pose proof (wstep_extends _ _ _ _ (Write_spec _ _ _ _ _ _ _ W2)) as G2.
  pose proof (extends_trans _ _ _ G1 G2) as G12.
  destruct (negb (n2 =? len bs) || is_some e2).
  { injection L as <- _. exact G12. }
  destruct (Bufio.WriteByte f2 w2 fCompleteEntry) as [[f3 w3] e3] eqn:W3.
  pose proof (wstep_extends _ _ _ _ (WriteByte_spec _ _ _ _ _ _ W3)) as G3.
  pose proof (extends_trans _ _ _ G12 G3) as G13.
  destruct (is_some e3).
  { injection L as <- _. exact G13. }
  apply IH in L. cbn in L. exact (extends_trans _ _ _ G13 L).
Qed.

Lemma AppendBulk_extends (app app' : Appender) (bss : list (list byte))
                         (r : result (list Z)) :
  AppendBulk app bss = (app', r) ->
  exists s, OS.data (file app') = OS.data (file app) ++ s.
Proof.
  intro A. unfold AppendBulk in A.
  destruct (closed app).
  { injection A as <- _. exists []. now rewrite app_nil_r. }
  destruct bss as [| bs rest].
  { injection A as <- _. exists []. now rewrite app_nil_r. }
  destruct (AppendBulk_loop app (bs :: rest) [] 0) as [app1 r1] eqn:L.
  pose proof (AppendBulk_loop_extends _ _ _ _ _ _ L) as G1.
  destruct r1 as [[offs wb] | e].
  - destruct (Bufio.Flush (file app1) (wr app1)) as [[f2 w2] e2] eqn:F.
    pose proof (wstep_extends _ _ _ _ (Flush_spec _ _ _ _ _ F)) as G2.
    destruct (is_some e2); injection A as <- _; cbn;
      exact (extends_trans _ _ _ G1 G2).
  - injection A as <- _. exact G1.
Qed.

Lemma FoldWithHandler_extends {H : Type} `{FoldHandler H} (app app' : Appender)
      (h h' : H) (err : option error) (tr : list Event) :
  FoldWithHandler app h = Some (app', h', err, tr) ->
  exists s, OS.data (file app') = OS.data (file app) ++ s.
Proof.
  intro F. unfold FoldWithHandler in F.
  destruct (closed app).
  { injection F as <- _ _ _. exists []. now rewrite app_nil_r. }
  destruct (seek app 0) as [app1 [x |]] eqn:S.
  { unfold seek in S. destruct (wrap64 (baseOffset app + 0) <? 0);
      [| discriminate].
    injection S as <- _. injection F as <- _ _ _. exists []. now rewrite app_nil_r. }
  destruct (seek_spec _ _ _ S) as [-> Hp].
  match type of F with
  | FoldLoop _ ?a _ _ = _ => assert (Hp' : 0 <= OS.pos (file a)) by exact Hp
  end.
  destruct (FoldLoop_config _ _ _ _ _ _ _ _ Hp' F) as (_ & _ & _ & G).
  exact G.
Qed.

(** No operation of the log changes or removes a byte that is in the file:
    after [AppendBulk], [Append], a traversal or [OpenWithConfig], whether it
    succeeds or fails, the file is what it was followed by what was written,
    if anything was. *)
Theorem file_only_grows :
  (forall app bss app' r,
      AppendBulk app bss = (app', r) ->
      exists s, OS.data (file app') = OS.data (file app) ++ s)
  /\ (forall app bs app' r,
      Append app bs = (app', r) ->
      exists s, OS.data (file app') = OS.data (file app) ++ s)
  /\ (forall (H : Type) (FH : FoldHandler H) app (h : H) app' h' err tr,
      FoldWithHandler app h = Some (app', h', err, tr) ->
      exists s, OS.data (file app') = OS.data (file app) ++ s)
  /\ (forall contents script cfg app err,
      OpenWithConfig contents script cfg = Some (Opened app err) ->
      exists s, OS.data (file app) = contents ++ s).
Proof.
  splits.
  - intros app bss app' r A. exact (AppendBulk_extends _ _ _ _ A).
  - intros app bs app' r A. unfold Append in A.
    destruct (AppendBulk app [bs]) as [a1 r1] eqn:AB.
    assert (a1 = app') by (destruct r1; inversion A; reflexivity). subst a1.
    exact (AppendBulk_extends _ _ _ _ AB).
  - intros H FH app h app' h' err tr F. exact (FoldWithHandler_extends _ _ _ _ _ _ F).
  - intros contents script cfg app err O. unfold OpenWithConfig in O.
    destruct ((MaxEntrySize cfg <? 1) || (BaseOffset cfg <? 0)); [discriminate |].
    destruct (entrySizeLen (MaxEntrySize cfg)) as [hw |]; [| discriminate].
    destruct (FoldWithHandler _ _) as [[[[a1 h1] e1] tr1] |] eqn:F; [| discriminate].
    injection O as <- _. apply FoldWithHandler_extends in F. exact F.
Qed.

Lemma file_only_grows_witness :
  exists s, OS.data (file (fst (AppendBulk someLog [[x08]; []])))
            = OS.data (file someLog) ++ s.
Proof.
  destruct file_only_grows as (HA & _).
  exact (HA someLog [[x08]; []] _ _ (surjective_pairing _)).
Defined.

(** ** A new file *)

(** [Open] on a file that does not exist yet, made empty by [O_CREATE], as
    in [TestEmptyFile]: the log is open, with the default limits and
    two-byte headers, and stores nothing.  The first [Append], of a payload
    of 1 to 65535 bytes, returns offset 0; the file is then the frame of the
    payload, which [Read] at offset 0 returns when the frame fits one fill
    of the reader's buffer; and [Close] closes the log. *)
Theorem first_append_on_a_new_file (p : list byte) :
  0 < len p <= DefaultMaxEntrySize ->
  exists app app',
    Open [] = Some (Opened app None)
    /\ stores app []
    /\ maxEntrySize app = DefaultMaxEntrySize
    /\ len (bufRWEntrySize (shm app)) = 2
    /\ Append app p = (app', Ok 0)
    /\ stores app' [p]
    /\ OS.data (file app') = frame 2 p
    /\ (len p + 3 <= Bufio.bufsz ->
        exists app'' e,
          Read app' 0 = (app'', Some e, None)
          /\ Bytes e = p /\ Size e = len p /\ Incomplete e = false)
    /\ closed (Close app') = true.
Proof.
  intro Hp.
  set (cfg := mkConfig DefaultMaxEntrySize DefaultBaseOffset DefaultReadOnly).
  assert (Hm : 1 <= MaxEntrySize cfg < 2 ^ 63) by (cbn; split; [lia | reflexivity]).
  assert (E : entrySizeLen (MaxEntrySize cfg) = Some 2).
  { rewrite entrySizeLen_eq by exact Hm. reflexivity. }
  destruct (open_stores [] [] [] cfg 2 Hm E eq_refl (Forall_nil _))
    as (app & O & St & Hs & Hd & Hw & Hf & Hn & Hmx & Hbo & Hhw).
  { cbn. unfold Bufio.bufsz. lia. }
  { reflexivity. }
  cbn [List.app frames map concat] in O, Hd. cbn in Hw, Hmx.
  assert (Hacc : Forall (accepted app) [p]).
  { constructor; [| constructor]. unfold accepted. rewrite Hmx. exact Hp. }
  assert (Hne : [p] <> []) by discriminate.
  assert (Hb : len (OS.data (file app))
               + totalLen (len (bufRWEntrySize (shm app))) [p] < 2 ^ 63).
  { rewrite Hd, Hhw. cbn [totalLen]. unfold frameLen.
    change (len (@nil byte)) with 0. unfold DefaultMaxEntrySize in Hp.
    change (2 ^ 63) with 9223372036854775808. lia. }
  destruct (AppendBulk_healthy app [] [p] St Hw Hf Hne Hacc Hb)
    as (app' & A & St' & Hd' & _).
  rewrite Hhw in A, Hd'. rewrite Hd in Hd'.
  cbn [totalLen offsetsFrom List.app frames map concat] in A, Hd', St'.
  rewrite app_nil_r in Hd'.
  exists app, app'. splits; auto.
  - unfold Append. rewrite A. reflexivity.
  - intro Hfit.
    assert (Hhw' : len (bufRWEntrySize (shm app')) = 2).
    { pose proof (AppendBulk_keeps app app' [] [p] _ St A) as K.
      cbv zeta in K. rewrite Hhw in K. destruct K as (_ & _ & _ & _ & K).
      - rewrite Hd. cbn [totalLen]. unfold frameLen.
        change (len (@nil byte)) with 0. unfold DefaultMaxEntrySize in Hp.
        change (2 ^ 63) with 9223372036854775808. lia.
      - exact K. }
    assert (Hfit' : totalLen (len (bufRWEntrySize (shm app'))) (p :: [])
                    <= Bufio.bufsz).
    { rewrite Hhw'. cbn [totalLen]. unfold frameLen. lia. }
    destruct (Read_stored app' [] [] p St' Hfit')
      as (app'' & e & R & Ho & Hsz & Hby & Hi & _).
    cbn [totalLen] in R. exists app'', e. splits; auto.
Qed.

Lemma first_append_on_a_new_file_witness :
  exists app app',
    Open [] = Some (Opened app None)
    /\ stores app []
    /\ maxEntrySize app = DefaultMaxEntrySize
    /\ len (bufRWEntrySize (shm app)) = 2
    /\ Append app [x2a] = (app', Ok 0)
    /\ stores app' [[x2a]]
    /\ OS.data (file app') = frame 2 [x2a]
    /\ (len [x2a] + 3 <= Bufio.bufsz ->
        exists app'' e,
          Read app' 0 = (app'', Some e, None)
          /\ Bytes e = [x2a] /\ Size e = len [x2a] /\ Incomplete e = false)
    /\ closed (Close app') = true.
Proof.
  apply (first_append_on_a_new_file [x2a]).
  vm_compute. split; [reflexivity | discriminate].
Defined.

(** ** A file system that fails *)

(** On a file system whose reads do not fail the read path is the one of the
    first part. *)
Lemma FS_fRead_quiet (v : FS.Env) (f : OS.File) (n : Z) :
  FS.quiet v ->
  FS.fRead v f n = (let '(f', c, e) := OS.Read f n in (v, f', c, e)).
Proof.
  intros [Q1 Q2]. unfold FS.fRead, OS.Read.
  destruct (n <=? 0); [reflexivity |]. rewrite Q1, Q2. reflexivity.
Qed.

Lemma FS_rRead_quiet (v : FS.Env) (f : OS.File) (rb : list byte) (n : Z) :
  FS.quiet v ->
  FS.rRead v f rb n
  = (let '(f', rb', c, e) := Bufio.Read f rb n in (v, f', rb', c, e)).
Proof.
  intro Q. unfold FS.rRead, Bufio.Read.
  destruct (n =? 0); [reflexivity |].
  destruct rb as [| b rb]; [| reflexivity].
  rewrite !(FS_fRead_quiet v) by exact Q.
  destruct (Bufio.bufsz <=? n).
  - destruct (OS.Read f n) as [[f' c] e]. reflexivity.
  - destruct (OS.Read f Bufio.bufsz) as [[f' c] e]. destruct c; reflexivity.
Qed.

Lemma FS_read_payload_quiet (v : FS.Env) (fuel : nat) :
  FS.quiet v ->
  forall (f : OS.File) (rb bs : list byte) (sz rc : Z) (err : option error),
  FS.read_payload fuel v f rb bs sz rc err
  = (let '(f', rb', bs', rc', err', bad) := read_payload fuel f rb bs sz rc err in
     (v, f', rb', bs', rc', err', bad)).
Proof.
  intro Q. induction fuel as [| fuel IH]; intros f rb bs sz rc err;
    cbn [FS.read_payload read_payload]; [reflexivity |].
  destruct ((rc <? sz) && is_none err); [| reflexivity].
  rewrite FS_rRead_quiet by exact Q.
  destruct (Bufio.Read f rb (len (take sz bs))) as [[[f' rb'] c] err'].
  destruct (unexpected err'); [reflexivity |]. apply IH.
Qed.

Lemma FS_Entry_read_quiet (v : FS.Env) (e : Entry) (app : Appender) :
  FS.quiet v ->
  FS.Entry_read v e app
  = (let '(a, e', mb, err) := Entry_read e app in (v, a, e', mb, err)).
Proof.
  intro Q. unfold FS.Entry_read, Entry_read.
  rewrite FS_rRead_quiet by exact Q.
  destruct (Bufio.Read (file app) (rd app) _) as [[[f1 rb1] c] err].
  destruct (unexpected err); [reflexivity |].
  destruct (len c =? 0); [reflexivity |].
  rewrite FS_read_payload_quiet by exact Q.
  destruct (len c =? len (copy _ c)).
  - destruct (read_payload _ f1 rb1 _ _ 0 err) as [[[[[f2 rb2] bs] rc] err2] bad].
    destruct bad; [reflexivity |].
    rewrite FS_rRead_quiet by exact Q.
    destruct (rc =? _).
    + destruct (Bufio.Read f2 rb2 _) as [[[f3 rb3] c3] e3].
      destruct (true && unexpected e3); reflexivity.
    + reflexivity.
  - rewrite FS_rRead_quiet by exact Q.
    destruct (0 =? _).
    + destruct (Bufio.Read f1 rb1 _) as [[[f3 rb3] c3] e3].
      destruct (true && unexpected e3); reflexivity.
    + reflexivity.
Qed.

Lemma FS_FoldBody_quiet {H : Type} `{FoldHandler H} (v : FS.Env) (app : Appender)
      (h : H) (o : Z) :
  FS.quiet v ->
  FS.FoldBody v app h o
  = (let '(a, h', evs, ctl) := FoldBody app h o in (v, a, h', evs, ctl)).
Proof.
  intro Q. unfold FS.FoldBody, FoldBody.
  rewrite FS_Entry_read_quiet by exact Q.
  destruct (Entry_read _ app) as [[[a e] mb] err].
  destruct (0 <? mb).
  - destruct (Bufio.Write _ _ _) as [[[f2 w2] n] werr].
    destruct (negb (n =? mb) || is_some werr); [reflexivity |].
    destruct (Bufio.Flush f2 w2) as [[f3 w3] ferr].
    destruct (is_some ferr); [reflexivity |].
    destruct (is_EOF err); [reflexivity |].
    destruct (Fold h e) as [[h' cutoff] herr].
    destruct herr; [reflexivity |]. destruct cutoff; reflexivity.
  - destruct (is_EOF err); [reflexivity |].
    destruct (Fold h e) as [[h' cutoff] herr].
    destruct herr; [reflexivity |]. destruct cutoff; reflexivity.
Qed.

Lemma FS_FoldLoop_quiet {H : Type} `{FoldHandler H} (v : FS.Env) (fuel : nat) :
  FS.quiet v ->
  forall (app : Appender) (h : H) (o : Z) (app' : Appender) (h' : H)
         (err : option error) (tr : list Event),
  FoldLoop fuel app h o = Some (app', h', err, tr) ->
  FS.FoldLoop fuel v app h o = (v, app', h', tr, Some err).
Proof.
  intro Q. induction fuel as [| fuel IH]; intros app h o app' h' err tr L;
    [discriminate |].
  cbn [FoldLoop FS.FoldLoop] in *.
  rewrite FS_FoldBody_quiet by exact Q.
  destruct (FoldBody app h o) as [[[a1 h1] evs] ctl].
  destruct ctl as [r | o'].
  - now inversion L.
  - destruct (FoldLoop fuel a1 h1 o') as [[[[a2 h2] e2] tr2] |] eqn:L2;
      [| discriminate].
    cbn in L. inversion L; subst; clear L.
    now rewrite (IH _ _ _ _ _ _ _ L2).
Qed.

(** The errors of the read path: a read of the file fails with [EIO], and
    only when the file system makes it fail. *)
Lemma FS_fRead_err (v v' : FS.Env) (f f' : OS.File) (n : Z) (c : list byte)
                   (e : option error) :
  FS.fRead v f n = (v', f', c, e) ->
  (unexpected e = false \/ (e = Some EIO /\ c = []))
  /\ (FS.quiet v -> v' = v /\ unexpected e = false).
Proof.
  unfold FS.fRead, OS.Read. intro R.
  destruct (n <=? 0).
  { inversion R; subst. split; [now left | now split]. }
  destruct (FS.readErrs v) as [| b r] eqn:Er.
  - destruct (FS.readDead v) eqn:Ed.
    + inversion R; subst. split; [now right |]. intros [_ Q]. congruence.
    + destruct (take n (drop (OS.pos f) (OS.data f))); inversion R; subst;
        (split; [now left | now split]).
  - split.
    + destruct b; [inversion R; subst; now right |].
      destruct (take n (drop (OS.pos f) (OS.data f))); inversion R; subst;
        now left.
    + intros [Q _]. congruence.
Qed.

Lemma FS_rRead_err (v v' : FS.Env) (f f' : OS.File) (rb rb' : list byte)
                   (n : Z) (c : list byte) (e : option error) :
  FS.rRead v f rb n = (v', f', rb', c, e) ->
  (unexpected e = false \/ (e = Some EIO /\ c = []))
  /\ (FS.quiet v -> v' = v /\ unexpected e = false).
Proof.
  unfold FS.rRead. intro R.
  destruct (n =? 0).
  { inversion R; subst. split; [now left | now split]. }
  destruct rb as [| b rb].
  2: { inversion R; subst. split; [now left | now split]. }
  destruct (Bufio.bufsz <=? n).
  - destruct (FS.fRead v f n) as [[[v1 f1] c1] e1] eqn:FR.
    inversion R; subst. exact (FS_fRead_err _ _ _ _ _ _ _ FR).
  - destruct (FS.fRead v f Bufio.bufsz) as [[[v1 f1] c1] e1] eqn:FR.
    destruct (FS_fRead_err _ _ _ _ _ _ _ FR) as [E1 E2].
    destruct c1 as [| b1 c1]; inversion R; subst.
    + split; [| exact E2]. destruct E1 as [E1 | [E1 _]]; [now left | now right].
    + split; [now left |]. intro Q. destruct (E2 Q) as [-> _]. now split.
Qed.

Lemma FS_read_payload_err (fuel : nat) :
  forall (v v' : FS.Env) (f f' : OS.File) (rb rb' bs bs' : list byte)
         (sz rc rc' : Z) (err err' : option error) (bad : bool),
  unexpected err = false ->
  FS.read_payload fuel v f rb bs sz rc err = (v', f', rb', bs', rc', err', bad) ->
  (bad = false -> unexpected err' = false)
  /\ (FS.quiet v -> v' = v /\ bad = false).
Proof.
  induction fuel as [| fuel IH];
    intros v v' f f' rb rb' bs bs' sz rc rc' err err' bad Hu R;
    cbn [FS.read_payload] in R.
  { inversion R; subst. split; [auto | now split]. }
  destruct ((rc <? sz) && is_none err).
  2: { inversion R; subst. split; [auto | now split]. }
  destruct (FS.rRead v f rb (len (take sz bs))) as [[[[v1 f1] rb1] c1] e1] eqn:RR.
  destruct (FS_rRead_err _ _ _ _ _ _ _ _ _ RR) as [E1 E2].
  destruct (unexpected e1) eqn:U1.
  - inversion R; subst. split; [discriminate |].
    intro Q. destruct (E2 Q) as [_ Cn]. congruence.
  - destruct (IH _ _ _ _ _ _ _ _ _ _ _ _ _ _ U1 R) as [I1 I2].
    split; [exact I1 |]. intro Q. destruct (E2 Q) as [-> _]. exact (I2 Q).
Qed.

Lemma FS_Entry_read_err (v v' : FS.Env) (e e' : Entry) (app app' : Appender)
                        (mb : Z) (err : option error) :
  FS.Entry_read v e app = (v', app', e', mb, err) ->
  (unexpected err = false \/ (err = Some ErrUnexpectedReadError /\ mb = 0))
  /\ (FS.quiet v -> v' = v /\ unexpected err = false)
  /\ kept app app' /\ off e' = off e.
Proof.
  unfold FS.Entry_read. intro R.
  assert (K : forall f rb hb fb,
             len hb = len (bufRWEntrySize (shm app)) ->
             len fb = len (bufRWEntryFlag (shm app)) ->
             kept app (set_flagbuf
                         (set_io (set_io (set_sizebuf (set_io app f rb (wr app)) hb)
                                         f rb (wr app)) f rb (wr app)) fb)).
  { intros f rb hb fb Hh Hf. unfold kept. cbn. splits; auto. }
  assert (K1 : forall f rb hb,
             len hb = len (bufRWEntrySize (shm app)) ->
             kept app (set_sizebuf (set_io app f rb (wr app)) hb)).
  { intros f rb hb Hh. unfold kept. cbn. splits; auto. }
  assert (K2 : forall f rb f2 rb2 hb,
             len hb = len (bufRWEntrySize (shm app)) ->
             kept app (set_io (set_sizebuf (set_io app f rb (wr app)) hb)
                              f2 rb2 (wr app))).
  { intros f rb f2 rb2 hb Hh. unfold kept. cbn. splits; auto. }
  assert (K3 : forall f rb f2 rb2 f3 rb3 hb fb,
             len hb = len (bufRWEntrySize (shm app)) ->
             len fb = len (bufRWEntryFlag (shm app)) ->
             kept app (set_flagbuf
                         (set_io (set_io (set_sizebuf (set_io app f rb (wr app)) hb)
                                         f2 rb2 (wr app)) f3 rb3 (wr app)) fb)).
  { intros f rb f2 rb2 f3 rb3 hb fb Hh Hf. unfold kept. cbn. splits; auto. }
  pose proof (len_nonneg (bufRWEntrySize (shm app))) as Hhw.
  assert (Hcp : forall c, len (copy (zeros (len (bufRWEntrySize (shm app)))) c)
                          = len (bufRWEntrySize (shm app)))
    by (intro c; rewrite len_copy, len_zeros; auto).
  destruct (FS.rRead v (file app) (rd app) _) as [[[[v1 f1] rb1] c] err1] eqn:R1.
  destruct (FS_rRead_err _ _ _ _ _ _ _ _ _ R1) as [E1 Q1].
  destruct (unexpected err1) eqn:U1.
  { inversion R; subst. splits; auto.
    all: intro Q; destruct (Q1 Q) as [_ Cn]; congruence. }
  destruct (len c =? 0).
  { inversion R; subst. splits; auto.
    intro Q. destruct (Q1 Q) as [-> _]. now split. }
  destruct (if len c =? _ then _ else _)
    as [[[[[[v2 f2] rb2] bs] rc] err2] bad] eqn:PL.
  assert (P : (bad = false -> unexpected err2 = false)
              /\ (FS.quiet v1 -> v2 = v1 /\ bad = false)).
  { destruct (len c =? _).
    - exact (FS_read_payload_err _ _ _ _ _ _ _ _ _ _ _ _ _ _ _ U1 PL).
    - inversion PL; subst. split; [auto | now split]. }
  destruct P as [P1 P2].
  destruct bad.
  { inversion R; subst. splits; auto.
    all: intro Q; destruct (Q1 Q) as [-> _]; destruct (P2 Q) as [_ Cn];
      discriminate. }
  specialize (P1 eq_refl).
  destruct (if rc =? _ then _ else _)
    as [[[[v3 f3] rb3] fbuf] err3] eqn:FL.
  assert (F : (unexpected err3 = false \/ (rc =? readInt (copy (zeros (len (bufRWEntrySize (shm app)))) c)) = true)
              /\ (FS.quiet v2 -> v3 = v2 /\ unexpected err3 = false)
              /\ len fbuf = len (bufRWEntryFlag (shm app))).
  { destruct (rc =? _) eqn:Er.
    - destruct (FS.rRead v2 f2 rb2 _) as [[[[v4 f4] rb4] c4] e4] eqn:R4.
      inversion FL; subst.
      destruct (FS_rRead_err _ _ _ _ _ _ _ _ _ R4) as [_ Q4].
      splits; [now right | exact Q4 |].
      now rewrite len_copy, len_clear0.
    - inversion FL; subst. splits; [now left | now split | apply len_clear0]. }
  destruct F as (F1 & F2 & F3).
  assert (Qall : FS.quiet v -> v3 = v /\ unexpected err3 = false).
  { intro Q. destruct (Q1 Q) as [-> _]. destruct (P2 Q) as [-> _].
    exact (F2 Q). }
  destruct ((rc =? _) && unexpected err3) eqn:Cnd.
  - inversion R; subst. splits; auto.
    all: intro Q; destruct (Qall Q) as [_ U3];
      rewrite U3, andb_false_r in Cnd; discriminate.
  - inversion R; subst. splits; auto.
    apply andb_false_iff in Cnd.
    destruct Cnd as [Cnd | Cnd]; [| now left].
    destruct F1 as [F1 | F1]; [now left | congruence].
Qed.

(** One turn of the loop, whatever the file system does: the turn ends the
    traversal before the reducer is called, or it calls the reducer on the
    entry the decode step left; that step then returned no error, or the
    error of a read that failed. *)
Lemma FS_FoldBody_out {H : Type} `{FoldHandler H} (v v1 : FS.Env)
      (app a1 : Appender) (h h1 : H) (o : Z) (evs : list Event) (ctl : LoopCtl) :
  FS.FoldBody v app h o = (v1, a1, h1, evs, ctl) ->
  (FS.quiet v -> v1 = v)
  /\ maxEntrySize a1 = maxEntrySize app /\ baseOffset a1 = baseOffset app
  /\ len (bufRWEntrySize (shm a1)) = len (bufRWEntrySize (shm app))
  /\ len (bufRWEntryFlag (shm a1)) = len (bufRWEntryFlag (shm app))
  /\ asize a1 = asize app
  /\ exists e mb err,
       (evs = [EvRead e mb err] /\ h1 = h
        /\ ((ctl = Return (Some ErrCompletingLastEntry) /\ closed a1 = true)
            \/ (ctl = Return None /\ closed a1 = closed app
                /\ aerr a1 = aerr app)))
       \/ (exists c herr,
            evs = [EvRead e mb err; EvFold e c herr]
            /\ Fold h e = (h1, c, herr)
            /\ ctl = afterFold a1 o e err c herr
            /\ closed a1 = closed app /\ aerr a1 = aerr app
            /\ (err = None \/ (err = Some ErrUnexpectedReadError /\ mb = 0))
            /\ (FS.quiet v -> err = None)).
Proof.
  unfold FS.FoldBody. intro B.
  destruct (FS.Entry_read v _ app) as [[[[v0 a0] e] mb] err] eqn:ER.
  destruct (FS_Entry_read_err _ _ _ _ _ _ _ _ ER)
    as (E1 & Q1 & (K1 & K2 & K3 & K4 & K5 & K6 & K7 & K8 & K9) & _).
  assert (Ecl : is_EOF err = false ->
                (err = None \/ (err = Some ErrUnexpectedReadError /\ mb = 0))
                /\ (FS.quiet v -> err = None)).
  { intro Ne. split.
    - destruct E1 as [E1 | E1]; [| now right].
      destruct (unexpected_EOF_or_nil _ E1) as [-> | ->]; [now left | discriminate].
    - intro Q. destruct (Q1 Q) as [_ U].
      destruct (unexpected_EOF_or_nil _ U) as [-> | ->]; [reflexivity | discriminate]. }
  assert (Qv : FS.quiet v -> v0 = v) by (intro Q; now destruct (Q1 Q)).
  cbv zeta in B.
  destruct (0 <? mb).
  - destruct (Bufio.Write _ _ _) as [[[f2 w2] n] werr].
    destruct (negb (n =? mb) || is_some werr).
    { inversion B; subst. cbn. splits; auto.
      exists e, mb, err. left. splits; auto. }
    destruct (Bufio.Flush f2 w2) as [[f3 w3] ferr].
    destruct (is_some ferr).
    { inversion B; subst. cbn. splits; auto.
      exists e, mb, err. left. splits; auto. }
    destruct (is_EOF err) eqn:EE.
    { inversion B; subst. cbn. splits; auto.
      exists e, mb, err. left. splits; auto. }
    destruct (Ecl eq_refl) as [C1 C2].
    destruct (Fold h e) as [[h' cutoff] herr] eqn:FE.
    destruct herr as [x |]; [| destruct cutoff];
      inversion B; subst; cbn; splits; auto;
      exists e, mb, err; right; eexists _, _; splits; eauto.
  - destruct (is_EOF err) eqn:EE.
    { inversion B; subst. cbn. splits; auto.
      exists e, mb, err. left. splits; auto. }
    destruct (Ecl eq_refl) as [C1 C2].
    destruct (Fold h e) as [[h' cutoff] herr] eqn:FE.
    destruct herr as [x |]; [| destruct cutoff];
      inversion B; subst; cbn; splits; auto;
      exists e, mb, err; right; eexists _, _; splits; eauto.
Qed.

(** More turns do not change what the loop returned. *)
Lemma FS_FoldLoop_more {H : Type} `{FoldHandler H} (fuel : nat) :
  forall (n : nat) (v v' : FS.Env) (app app' : Appender) (h h' : H) (o : Z)
         (tr : list Event) (r : option error),
  FS.FoldLoop fuel v app h o = (v', app', h', tr, Some r) ->
  FS.FoldLoop (fuel + n) v app h o = (v', app', h', tr, Some r).
Proof.
  induction fuel as [| fuel IH]; intros n v v' app app' h h' o tr r L;
    [discriminate |].
  cbn [FS.FoldLoop Nat.add] in *.
  destruct (FS.FoldBody v app h o) as [[[[v1 a1] h1] evs] ctl].
  destruct ctl as [x | o']; [exact L |].
  destruct (FS.FoldLoop fuel v1 a1 h1 o') as [[[[v2 a2] h2] tr2] r2] eqn:L2.
  inversion L; subst; clear L.
  now rewrite (IH n _ _ _ _ _ _ _ _ _ L2).
Qed.

(** The turn where the reducer asks for the cutoff is the last. *)
Lemma FS_FoldLoop_cutoff {H : Type} `{FoldHandler H} (fuel : nat) :
  forall (v v' : FS.Env) (app app' : Appender) (h h' : H) (o : Z)
         (tr : list Event) (r : option (option error)) (k : nat) (e : Entry),
  FS.FoldLoop fuel v app h o = (v', app', h', tr, r) ->
  nth_error (folds tr) k = Some (e, true, None) ->
  length (folds tr) = S k
  /\ exists rerr mb tr0,
       r = Some rerr
       /\ tr = tr0 ++ [EvRead e mb rerr; EvFold e true None]
       /\ (rerr = None \/ rerr = Some ErrUnexpectedReadError)
       /\ (FS.quiet v -> rerr = None).
Proof.
  induction fuel as [| fuel IH]; intros v v' app app' h h' o tr r k e L Hk;
    cbn [FS.FoldLoop] in L.
  { inversion L; subst. destruct k; discriminate. }
  destruct (FS.FoldBody v app h o) as [[[[v1 a1] h1] evs] ctl] eqn:FB.
  destruct (FS_FoldBody_out _ _ _ _ _ _ _ _ _ FB)
    as (Qv & _ & _ & _ & _ & _ & e0 & mb & err
        & [(-> & _ & [(-> & _) | (-> & _)])
          | (c & herr & -> & FE & -> & _ & _ & Er & Qe)]).
  - inversion L; subst. destruct k; discriminate.
  - inversion L; subst. destruct k; discriminate.
  - unfold afterFold in L. destruct herr as [x |]; [| destruct c].
    + inversion L; subst. cbn in Hk. destruct k as [| [| k]]; discriminate.
    + inversion L; subst; clear L. cbn in Hk |- *.
      destruct k as [| [| k]]; [| discriminate ..].
      injection Hk as <-. split; [reflexivity |].
      exists err, mb, []. splits; auto.
      destruct Er as [-> | [-> _]]; auto.
    + destruct (FS.FoldLoop fuel v1 a1 h1 _) as [[[[v2 a2] h2] tr2] r2] eqn:L2.
      inversion L; subst; clear L.
      change (folds (EvRead e0 mb err :: EvFold e0 false None :: tr2))
        with ((e0, false, None) :: folds tr2) in *.
      destruct k as [| k]; [discriminate |]. cbn [nth_error] in Hk.
      destruct (IH _ _ _ _ _ _ _ _ _ _ _ L2 Hk)
        as (Hl & rerr & mb2 & tr0 & Hr & Htr & R1 & R2).
      split; [cbn [length]; now rewrite Hl |]. subst.
      exists rerr, mb2, ([EvRead e0 mb err; EvFold e0 false None] ++ tr0).
      splits; auto. intro Q. apply R2. now rewrite (Qv Q).
Qed.

(** What a traversal leaves of the log, and how it can end when the reducer
    neither stops it nor fails. *)
Lemma FS_FoldLoop_config {H : Type} `{FoldHandler H} (I : H -> Prop)
      (fuel : nat) :
  forall (v v' : FS.Env) (app app' : Appender) (h h' : H) (o : Z)
         (tr : list Event) (r : option (option error)),
  (forall h0 e, I h0 ->
     I (fst (fst (Fold h0 e)))
     /\ snd (fst (Fold h0 e)) = false /\ snd (Fold h0 e) = None) ->
  I h ->
  FS.FoldLoop fuel v app h o = (v', app', h', tr, r) ->
  maxEntrySize app' = maxEntrySize app /\ baseOffset app' = baseOffset app
  /\ len (bufRWEntrySize (shm app')) = len (bufRWEntrySize (shm app))
  /\ len (bufRWEntryFlag (shm app')) = len (bufRWEntryFlag (shm app))
  /\ asize app' = asize app
  /\ (r = Some (Some ErrCompletingLastEntry) /\ closed app' = true
      \/ (r = None \/ r = Some None)
         /\ closed app' = closed app /\ aerr app' = aerr app).
Proof.
  induction fuel as [| fuel IH]; intros v v' app app' h h' o tr r Hq Hi L;
    cbn [FS.FoldLoop] in L.
  { inversion L; subst. splits; auto. }
  destruct (FS.FoldBody v app h o) as [[[[v1 a1] h1] evs] ctl] eqn:FB.
  destruct (FS_FoldBody_out _ _ _ _ _ _ _ _ _ FB)
    as (_ & B1 & B2 & B3 & B4 & B5 & e0 & mb & err
        & [(-> & _ & [(-> & Hc) | (-> & Hc & Ha)])
          | (c & herr & -> & FE & -> & Hc & Ha & _)]).
  - inversion L; subst. splits; auto.
  - inversion L; subst. splits; auto.
  - destruct (Hq h e0 Hi) as (Q0 & Q1 & Q2). rewrite FE in Q0, Q1, Q2.
    cbn in Q0, Q1, Q2. subst c herr.
    unfold afterFold in L.
    destruct (FS.FoldLoop fuel v1 a1 h1 _) as [[[[v2 a2] h2] tr2] r2] eqn:L2.
    inversion L; subst; clear L.
    destruct (IH _ _ _ _ _ _ _ _ _ Hq Q0 L2) as (I1 & I2 & I3 & I4 & I5 & I6).
    splits; try congruence.
    all: destruct I6 as [I6 | (I6 & I7 & I8)]; [now left | right];
      splits; auto; congruence.
Qed.

(** Reads that fail for ever: the decode step returns at its first read and
    the loop turns on, calling the reducer each time. *)
Lemma FS_FoldLoop_dead {H : Type} `{FoldHandler H} (I : H -> Prop)
      (fuel : nat) :
  forall (v : FS.Env) (app : Appender) (h : H) (o : Z),
  (forall h0 e, I h0 ->
     I (fst (fst (Fold h0 e)))
     /\ snd (fst (Fold h0 e)) = false /\ snd (Fold h0 e) = None) ->
  I h ->
  FS.readErrs v = [] -> FS.readDead v = true ->
  rd app = [] -> 0 < len (bufRWEntrySize (shm app)) ->
  exists app' h' tr,
    FS.FoldLoop fuel v app h o = (v, app', h', tr, None)
    /\ length (folds tr) = fuel
    /\ file app' = file app /\ wr app' = wr app.
Proof.
  induction fuel as [| fuel IH]; intros v app h o Hq Hi Hs Hd Hrd Hhw;
    cbn [FS.FoldLoop].
  { exists app, h, []. auto. }
  assert (ER : forall e,
             FS.Entry_read v e app
             = (v, set_sizebuf (set_io app (file app) [] (wr app))
                     (copy (zeros (len (bufRWEntrySize (shm app)))) []),
                e, 0, Some ErrUnexpectedReadError)).
  { intro e. unfold FS.Entry_read, FS.rRead, FS.fRead.
    rewrite Hrd, Hs, Hd, len_zeros by lia.
    replace (len (bufRWEntrySize (shm app)) =? 0) with false
      by (symmetry; apply Z.eqb_neq; lia).
    replace (len (bufRWEntrySize (shm app)) <=? 0) with false
      by (symmetry; apply Z.leb_gt; lia).
    change (Bufio.bufsz <=? 0) with false.
    destruct (Bufio.bufsz <=? len (bufRWEntrySize (shm app))); reflexivity. }
  unfold FS.FoldBody. rewrite ER. cbv zeta.
  change (0 <? 0) with false. cbn [is_EOF error_eqb].
  set (e := mkEntry o _ _ _).
  destruct (Hq h e Hi) as (Q0 & Q1 & Q2).
  destruct (Fold h e) as [[h1 c] herr]. cbn in Q0, Q1, Q2. subst c herr.
  set (a1 := set_sharedEntry _ e).
  destruct (IH v a1 h1
              (wrap64 (o + (len (bufRWEntrySize (shm a1)) + size e
                            + len (bufRWEntryFlag (shm a1))))) Hq Q0 Hs Hd)
    as (app' & h' & tr & L & Hl & Hf & Hw).
  { reflexivity. }
  { cbn. rewrite len_copy, len_zeros by lia. exact Hhw. }
  rewrite L. exists app', h', ([EvRead e 0 (Some ErrUnexpectedReadError);
                                EvFold e false None] ++ tr).
  splits; auto. rewrite folds_app, length_app, Hl. reflexivity.
Qed.

(** A read of the reader is a read of the first part, or it failed and
    changed nothing. *)
Lemma FS_rRead_cases (v v' : FS.Env) (f f' : OS.File) (rb rb' : list byte)
                     (n : Z) (c : list byte) (e : option error) :
  FS.rRead v f rb n = (v', f', rb', c, e) ->
  Bufio.Read f rb n = (f', rb', c, e)
  \/ (e = Some EIO /\ c = [] /\ f' = f /\ rb' = rb).
Proof.
  unfold FS.rRead, Bufio.Read, FS.fRead. intro R.
  destruct (n =? 0) eqn:E0; [inversion R; subst; now left |].
  destruct rb as [| b rb]; [| inversion R; subst; now left].
  assert (Hn : (n <=? 0) = false \/ (n <=? 0) = true)
    by (destruct (n <=? 0); auto).
  change (Bufio.bufsz <=? 0) with false in R.
  destruct (Bufio.bufsz <=? n) eqn:Eb.
  - assert (En : (n <=? 0) = false)
      by (apply Z.leb_gt; apply Z.leb_le in Eb; unfold Bufio.bufsz in Eb; lia).
    rewrite En in R.
    destruct (match FS.readErrs v with
              | b :: r => (b, FS.mkEnv (FS.openErr v) (FS.seekMax v) r (FS.readDead v))
              | [] => (FS.readDead v, v)
              end) as [fails v1].
    destruct fails; [inversion R; subst; now right |].
    destruct (OS.Read f n) as [[f1 c1] e1]. inversion R; subst. now left.
  - destruct (match FS.readErrs v with
              | b :: r => (b, FS.mkEnv (FS.openErr v) (FS.seekMax v) r (FS.readDead v))
              | [] => (FS.readDead v, v)
              end) as [fails v1].
    destruct fails; [inversion R; subst; now right |].
    destruct (OS.Read f Bufio.bufsz) as [[f1 c1] e1].
    destruct c1; inversion R; subst; now left.
Qed.

Lemma FS_read_payload_done (fuel : nat) (v : FS.Env) (f : OS.File)
      (rb bs : list byte) (sz rc : Z) (err : option error) :
  (rc <? sz) && is_none err = false ->
  FS.read_payload fuel v f rb bs sz rc err = (v, f, rb, bs, rc, err, false).
Proof. intro C. destruct fuel; cbn [FS.read_payload]; [| rewrite C]; reflexivity. Qed.

(** The turns [Entry_read] gives the payload loop are enough here too: a
    turn that does not end the loop has taken a byte. *)
Lemma FS_read_payload_fuel (fuel : nat) :
  forall (k : nat) (v : FS.Env) (f : OS.File) (rb bs : list byte) (sz rc : Z)
         (err : option error),
  0 <= OS.pos f -> 0 <= rc -> sz <= len bs ->
  len (stream f rb) < Z.of_nat fuel ->
  FS.read_payload (fuel + k) v f rb bs sz rc err
  = FS.read_payload fuel v f rb bs sz rc err.
Proof.
  induction fuel as [| fuel IH]; intros k v f rb bs sz rc err Hp Hrc Hb Hl.
  { pose proof (len_nonneg (stream f rb)). lia. }
  cbn [Nat.add FS.read_payload].
  destruct ((rc <? sz) && is_none err) eqn:Cnd; [| reflexivity].
  apply andb_true_iff in Cnd. destruct Cnd as [Cr Ce].
  apply Z.ltb_lt in Cr.
  assert (Ht : len (take sz bs) = sz) by (rewrite len_take; lia).
  rewrite Ht.
  destruct (FS.rRead v f rb sz) as [[[[v1 f1] rb1] c] e1] eqn:RR.
  assert (Hsz : 0 < sz) by lia.
  destruct (unexpected e1) eqn:U1; [reflexivity |].
  destruct (FS_rRead_cases _ _ _ _ _ _ _ _ _ RR) as [BR | (-> & _)];
    [| discriminate].
  destruct (Bufio_Read_spec _ _ _ _ _ _ _ Hp Hsz BR)
    as (Hs & _ & Hp1 & _ & Hnil & Hcons).
  destruct c as [| y l].
  - destruct (Hnil eq_refl) as [-> _].
    now rewrite !FS_read_payload_done by (cbn; apply andb_false_r).
  - assert (Hb1 : sz <= len (copy (take sz bs) (y :: l) ++ drop sz bs)).
    { rewrite len_app, len_copy, <- len_app, take_drop. exact Hb. }
    apply IH; auto; try apply len_nonneg.
    rewrite Hs, len_app, len_cons in Hl. pose proof (len_nonneg l). lia.
Qed.

(** ** Cutoff, whatever the file system does *)

(** C8, as amended.  Take a traversal, on any file system, after any number
    of turns of its loop.  If by then the reducer has asked for the cutoff,
    without error, at its k-th call (k counted from 1), then the traversal
    has returned, that call was the last one, so the reducer was called
    exactly k times, and the traversal returned the error of the decode step
    of that turn: none, or [ErrUnexpectedReadError] when a read of that
    step failed; it is none when no read of the file fails. *)
Theorem C8_cutoff_stops {H : Type} `{FoldHandler H} (fuel : nat)
      (v v' : FS.Env) (app app' : Appender) (h h' : H) (tr : list Event)
      (r : option (option error)) (k : nat) (e : Entry) :
  FS.FoldWithHandler fuel v app h = (v', app', h', tr, r) ->
  (1 <= k)%nat ->
  nth_error (folds tr) (k - 1) = Some (e, true, None) ->
  length (folds tr) = k
  /\ exists rerr mb tr0,
       r = Some rerr
       /\ tr = tr0 ++ [EvRead e mb rerr; EvFold e true None]
       /\ (rerr = None \/ rerr = Some ErrUnexpectedReadError)
       /\ (FS.quiet v -> rerr = None).
Proof.
  intros E Hk Hn. unfold FS.FoldWithHandler in E.
  destruct (closed app).
  { inversion E; subst. destruct (k - 1)%nat; discriminate. }
  destruct (FS.seek v app 0) as [app1 [x |]].
  { inversion E; subst. destruct (k - 1)%nat; discriminate. }
  destruct (FS_FoldLoop_cutoff _ _ _ _ _ _ _ _ _ _ _ _ E Hn) as [Hl Hr].
  split; [lia | exact Hr].
Qed.

Lemma C8_cutoff_stops_witness :
  let res := FS.FoldWithHandler 5 FS.sound threeLog (mkForEach stopAtSecond 0%nat) in
  (exists e, nth_error (folds (snd (fst res))) 1 = Some (e, true, None))
  /\ length (folds (snd (fst res))) = 2%nat
  /\ snd res = Some None.
Proof.
  intro res.
  assert (E : FS.FoldWithHandler 5 FS.sound threeLog (mkForEach stopAtSecond 0%nat)
              = (fst (fst (fst (fst res))), snd (fst (fst (fst res))),
                 snd (fst (fst res)), snd (fst res), snd res))
    by (subst res; destruct (FS.FoldWithHandler _ _ _ _) as [[[[? ?] ?] ?] ?];
        reflexivity).
  assert (Hk : exists e, nth_error (folds (snd (fst res))) (2 - 1)
                         = Some (e, true, None))
    by (vm_compute; eexists; reflexivity).
  destruct Hk as [e Hk].
  destruct (C8_cutoff_stops 5 FS.sound _ threeLog _ _ _ _ _ 2%nat e E (le_n_S _ _ (le_0_n 1)) Hk)
    as (Hl & rerr & mb & tr0 & Hr & _ & _ & Hq).
  split; [exists e; exact Hk |]. split; [exact Hl |].
  rewrite Hr, Hq; [reflexivity | split; reflexivity].
Defined.

(** C8, as stated, fails when a read of the file fails: with the first two
    read calls failing, the reducer is called twice, on the entry the log
    held before, asks for the cutoff at the second call, and the traversal
    returns [ErrUnexpectedReadError]. *)
Lemma C8_counterexample :
  exists v' app' h' tr e1 e2,
    FS.FoldWithHandler 2 FS.failsTwice threeLog (mkForEach stopAtSecond 0%nat)
    = (v', app', h', tr, Some (Some ErrUnexpectedReadError))
    /\ folds tr = [(e1, false, None); (e2, true, None)]
    /\ map snd (reads tr)
       = [Some ErrUnexpectedReadError; Some ErrUnexpectedReadError].
Proof.
  do 6 eexists. split; [vm_compute; reflexivity |]. split; reflexivity.
Qed.

(** ** Every turn takes a byte of the file or a failure of the script *)

Ltac simp_io :=
  cbn [file rd set_io set_sizebuf set_flagbuf set_shm];
  change (len (@nil byte)) with 0 in *.

Lemma FS_fRead_script (v v' : FS.Env) (f f' : OS.File) (n : Z) (c : list byte)
                      (e : option error) :
  FS.fRead v f n = (v', f', c, e) ->
  FS.readDead v' = FS.readDead v
  /\ (length (FS.readErrs v') <= length (FS.readErrs v))%nat
  /\ (e = Some EIO -> FS.readDead v = false ->
      (length (FS.readErrs v') < length (FS.readErrs v))%nat).
Proof.
  unfold FS.fRead, OS.Read. intro R.
  destruct (n <=? 0).
  { inversion R; subst. splits; auto. discriminate. }
  destruct (FS.readErrs v) as [| b r] eqn:Er.
  - destruct (FS.readDead v) eqn:Ed.
    + inversion R; subst. rewrite Er. splits; auto. discriminate.
    + destruct (take n (drop (OS.pos f) (OS.data f))); inversion R; subst;
        rewrite Er; splits; auto; discriminate.
  - destruct b.
    + inversion R; subst. cbn. splits; auto.
    + destruct (take n (drop (OS.pos f) (OS.data f))); inversion R; subst;
        cbn; splits; auto; discriminate.
Qed.

Lemma FS_rRead_frame (v v' : FS.Env) (f f' : OS.File) (rb rb' : list byte)
                     (n : Z) (c : list byte) (e : option error) :
  0 <= OS.pos f -> 0 < n ->
  FS.rRead v f rb n = (v', f', rb', c, e) ->
  stream f rb = c ++ stream f' rb'
  /\ same_disk f f' /\ 0 <= OS.pos f'
  /\ (c = [] -> e = Some EOF \/ e = Some EIO)
  /\ FS.readDead v' = FS.readDead v
  /\ (length (FS.readErrs v') <= length (FS.readErrs v))%nat
  /\ (e = Some EIO -> FS.readDead v = false ->
      (length (FS.readErrs v') < length (FS.readErrs v))%nat).
Proof.
  intros Hp Hn R.
  assert (Hsc : FS.readDead v' = FS.readDead v
                /\ (length (FS.readErrs v') <= length (FS.readErrs v))%nat
                /\ (e = Some EIO -> FS.readDead v = false ->
                    (length (FS.readErrs v') < length (FS.readErrs v))%nat)).
  { unfold FS.rRead in R.
    destruct (n =? 0); [inversion R; subst; splits; auto; discriminate |].
    destruct rb as [| b rb]; [| inversion R; subst; splits; auto; discriminate].
    destruct (Bufio.bufsz <=? n).
    - destruct (FS.fRead v f n) as [[[v1 f1] c1] e1] eqn:FR.
      inversion R; subst. exact (FS_fRead_script _ _ _ _ _ _ _ FR).
    - destruct (FS.fRead v f Bufio.bufsz) as [[[v1 f1] c1] e1] eqn:FR.
      destruct (FS_fRead_script _ _ _ _ _ _ _ FR) as (S1 & S2 & S3).
      destruct c1; inversion R; subst; splits; auto. discriminate. }
  destruct Hsc as (S1 & S2 & S3).
  destruct (FS_rRead_cases _ _ _ _ _ _ _ _ _ R) as [BR | (-> & -> & -> & ->)].
  - destruct (Bufio_Read_spec _ _ _ _ _ _ _ Hp Hn BR)
      as (Hs & Hd & Hp1 & _ & Hnil & _).
    splits; auto. intro Hc. left. now destruct (Hnil Hc).
  - splits; auto. apply same_disk_refl.
Qed.

Lemma FS_read_payload_frame (fuel : nat) :
  forall (v v' : FS.Env) (f f' : OS.File) (rb rb' bs bs' : list byte)
         (sz rc rc' : Z) (err err' : option error) (bad : bool),
  0 <= OS.pos f ->
  FS.read_payload fuel v f rb bs sz rc err = (v', f', rb', bs', rc', err', bad) ->
  len (stream f' rb') <= len (stream f rb)
  /\ same_disk f f' /\ 0 <= OS.pos f'
  /\ FS.readDead v' = FS.readDead v
  /\ (length (FS.readErrs v') <= length (FS.readErrs v))%nat.
Proof.
  induction fuel as [| fuel IH];
    intros v v' f f' rb rb' bs bs' sz rc rc' err err' bad Hp R;
    cbn [FS.read_payload] in R.
  { inversion R; subst. splits; auto; [lia | apply same_disk_refl]. }
  destruct ((rc <? sz) && is_none err) eqn:Cnd.
  2: { inversion R; subst. splits; auto; [lia | apply same_disk_refl]. }
  apply andb_true_iff in Cnd. destruct Cnd as [Cr _]. apply Z.ltb_lt in Cr.
  destruct (FS.rRead v f rb (len (take sz bs))) as [[[[v1 f1] rb1] c1] e1] eqn:RR.
  destruct (Z.eq_dec (len (take sz bs)) 0) as [E0 | N0].
  - (* an empty array: nothing is read *)
    unfold FS.rRead in RR. rewrite E0 in RR. cbn in RR.
    inversion RR; subst v1 f1 rb1 c1 e1; clear RR.
    cbn [unexpected] in R.
    destruct (IH _ _ _ _ _ _ _ _ _ _ _ _ _ _ Hp R) as (I1 & I2 & I3 & I4 & I5).
    splits; auto.
  - assert (Hn : 0 < len (take sz bs)) by (pose proof (len_nonneg (take sz bs)); lia).
    destruct (FS_rRead_frame _ _ _ _ _ _ _ _ _ Hp Hn RR)
      as (Hs & Hd & Hp1 & _ & S1 & S2 & _).
    assert (Hl : len (stream f1 rb1) <= len (stream f rb))
      by (rewrite Hs, len_app; pose proof (len_nonneg c1); lia).
    destruct (unexpected e1).
    + inversion R; subst. splits; auto.
    + destruct (IH _ _ _ _ _ _ _ _ _ _ _ _ _ _ Hp1 R) as (I1 & I2 & I3 & I4 & I5).
      splits; auto; try lia; try congruence.
      eapply same_disk_trans; eauto.
Qed.

Lemma FS_Entry_read_measure (v v' : FS.Env) (e e' : Entry) (app app' : Appender)
                            (mb : Z) (err : option error) :
  0 <= OS.pos (file app) -> WF app ->
  FS.Entry_read v e app = (v', app', e', mb, err) ->
  0 <= OS.pos (file app')
  /\ same_disk (file app) (file app')
  /\ FS.readDead v' = FS.readDead v
  /\ len (astream app') + Z.of_nat (length (FS.readErrs v'))
     <= len (astream app) + Z.of_nat (length (FS.readErrs v))
  /\ (FS.readDead v = false -> is_EOF err = false ->
      len (astream app') + Z.of_nat (length (FS.readErrs v'))
      < len (astream app) + Z.of_nat (length (FS.readErrs v))).
Proof.
  intros Hp Wf R.
  pose proof (WF_hw_pos _ Wf) as Hhw. destruct Wf as [_ Hfl].
  unfold FS.Entry_read in R. rewrite len_zeros in R by lia.
  unfold astream.
  destruct (FS.rRead v (file app) (rd app) _) as [[[[v1 f1] rb1] c] err1] eqn:R1.
  destruct (FS_rRead_frame _ _ _ _ _ _ _ _ _ Hp Hhw R1)
    as (Hs1 & Hd1 & Hp1 & Hnil1 & S1 & S2 & S3).
  destruct (FS_rRead_err _ _ _ _ _ _ _ _ _ R1) as [E1 _].
  assert (L1 : len (stream (file app) (rd app)) = len c + len (stream f1 rb1))
    by (rewrite Hs1, len_app; reflexivity).
  pose proof (len_nonneg c) as Hc0.
  destruct (unexpected err1) eqn:U1.
  { destruct E1 as [E1 | [-> ->]]; [discriminate |].
    inversion R; subst. simp_io. splits; auto; try lia.
    intros Hd _. specialize (S3 eq_refl Hd). lia. }
  destruct (len c =? 0) eqn:Ec.
  { apply Z.eqb_eq, len_nil_iff in Ec. subst c.
    inversion R; subst. simp_io. splits; auto; try lia.
    intros _ Ne. destruct (Hnil1 eq_refl) as [-> | ->]; discriminate. }
  apply Z.eqb_neq in Ec.
  destruct (if len c =? _ then _ else _)
    as [[[[[[v2 f2] rb2] bs] rc] err2] bad] eqn:PL.
  assert (P : len (stream f2 rb2) <= len (stream f1 rb1)
              /\ same_disk f1 f2 /\ 0 <= OS.pos f2
              /\ FS.readDead v2 = FS.readDead v1
              /\ (length (FS.readErrs v2) <= length (FS.readErrs v1))%nat).
  { destruct (len c =? _).
    - exact (FS_read_payload_frame _ _ _ _ _ _ _ _ _ _ _ _ _ _ _ Hp1 PL).
    - inversion PL; subst. splits; auto; [lia | apply same_disk_refl]. }
  destruct P as (P1 & P2 & P3 & P4 & P5).
  destruct bad.
  { inversion R; subst. simp_io. splits; auto; try lia; try congruence.
    eapply same_disk_trans; eauto. }
  destruct (if rc =? _ then _ else _)
    as [[[[v3 f3] rb3] fbuf] err3] eqn:FL.
  assert (F : len (stream f3 rb3) <= len (stream f2 rb2)
              /\ same_disk f2 f3 /\ 0 <= OS.pos f3
              /\ FS.readDead v3 = FS.readDead v2
              /\ (length (FS.readErrs v3) <= length (FS.readErrs v2))%nat).
  { destruct (rc =? _).
    - destruct (FS.rRead v2 f2 rb2 _) as [[[[v4 f4] rb4] c4] e4] eqn:R4.
      inversion FL; subst.
      assert (Hf1 : 0 < len (clear0 (bufRWEntryFlag (shm app))))
        by (rewrite len_clear0; lia).
      destruct (FS_rRead_frame _ _ _ _ _ _ _ _ _ P3 Hf1 R4)
        as (Hs4 & Hd4 & Hp4 & _ & T1 & T2 & _).
      splits; auto. rewrite Hs4, len_app. pose proof (len_nonneg c4). lia.
    - inversion FL; subst. splits; auto; [lia | apply same_disk_refl]. }
  destruct F as (F1 & F2 & F3 & F4 & F5).
  assert (Dk : same_disk (file app) f3)
    by (eapply same_disk_trans; [exact Hd1 |];
        eapply same_disk_trans; [exact P2 | exact F2]).
  destruct ((rc =? _) && unexpected err3);
    inversion R; subst; simp_io; splits; auto; try lia; try congruence.
Qed.

Lemma FS_FoldBody_measure {H : Type} `{FoldHandler H} (v v1 : FS.Env)
      (app a1 : Appender) (h h1 : H) (o o' : Z) (evs : list Event) :
  0 <= OS.pos (file app) -> WF app -> FS.readDead v = false ->
  FS.FoldBody v app h o = (v1, a1, h1, evs, Continue o') ->
  0 <= OS.pos (file a1) /\ WF a1 /\ FS.readDead v1 = false
  /\ len (astream a1) + Z.of_nat (length (FS.readErrs v1))
     < len (astream app) + Z.of_nat (length (FS.readErrs v)).
Proof.
  intros Hp Wf Hd B.
  destruct (FS_FoldBody_out _ _ _ _ _ _ _ _ _ B) as (_ & _ & _ & W1 & W2 & _).
  assert (Wf1 : WF a1) by (destruct Wf as [A1 A2]; split; congruence).
  unfold FS.FoldBody in B.
  destruct (FS.Entry_read v _ app) as [[[[v0 a0] e] mb] err] eqn:ER.
  destruct (FS_Entry_read_measure _ _ _ _ _ _ _ _ Hp Wf ER)
    as (Hp0 & _ & Hd0 & _ & Hlt).
  cbv zeta in B.
  destruct (0 <? mb).
  - destruct (Bufio.Write _ _ _) as [[[f2 w2] n] werr] eqn:W.
    destruct (negb (n =? mb) || is_some werr); [discriminate |].
    destruct (Bufio.Flush f2 w2) as [[f3 w3] ferr] eqn:F.
    destruct (is_some ferr); [discriminate |].
    destruct (Write_spec _ _ _ _ _ _ _ W) as (G1 & _).
    destruct (Flush_spec _ _ _ _ _ F) as (G2 & _).
    pose proof (grows_trans _ _ _ G1 G2) as G.
    pose proof (stream_grows _ _ (rd a0) G) as Hl2.
    destruct G as (_ & _ & Gp & _).
    destruct (is_EOF err) eqn:EE; [discriminate |].
    specialize (Hlt Hd eq_refl).
    destruct (Fold h e) as [[h' cutoff] herr].
    destruct herr; [discriminate |]. destruct cutoff; [discriminate |].
    inversion B; subst. unfold astream in *. cbn in Gp, Hl2 |- *.
    splits; auto; try congruence; unfold stream in *; lia.
  - destruct (is_EOF err) eqn:EE; [discriminate |].
    specialize (Hlt Hd eq_refl).
    destruct (Fold h e) as [[h' cutoff] herr].
    destruct herr; [discriminate |]. destruct cutoff; [discriminate |].
    inversion B; subst. splits; auto; try congruence; exact Hlt.
Qed.

(** A traversal returns unless the reads of the file fail for ever. *)
Lemma FS_FoldLoop_returns {H : Type} `{FoldHandler H} (fuel : nat) :
  forall (v : FS.Env) (app : Appender) (h : H) (o : Z),
  0 <= OS.pos (file app) -> WF app -> FS.readDead v = false ->
  len (astream app) + Z.of_nat (length (FS.readErrs v)) < Z.of_nat fuel ->
  exists v' app' h' tr err,
    FS.FoldLoop fuel v app h o = (v', app', h', tr, Some err).
Proof.
  induction fuel as [| fuel IH]; intros v app h o Hp Wf Hd Hl.
  { pose proof (len_nonneg (astream app)). lia. }
  cbn [FS.FoldLoop].
  destruct (FS.FoldBody v app h o) as [[[[v1 a1] h1] evs] ctl] eqn:FB.
  destruct ctl as [err | o']; [eauto 6 |].
  destruct (FS_FoldBody_measure _ _ _ _ _ _ _ _ _ Hp Wf Hd FB)
    as (Hp1 & Wf1 & Hd1 & Hlt).
  destruct (IH v1 a1 h1 o' Hp1 Wf1 Hd1) as (v2 & a2 & h2 & tr2 & e2 & L); [lia |].
  rewrite L. eauto 6.
Qed.

(** ** When a traversal returns *)

Lemma FS_seek_spec (v : FS.Env) (app app1 : Appender) (o : Z) :
  FS.seek v app o = (app1, None) ->
  app1 = set_io app (OS.Seek (file app) (wrap64 (baseOffset app + o))) [] (wr app)
  /\ 0 <= wrap64 (baseOffset app + o) <= FS.seekMax v.
Proof.
  unfold FS.seek.
  destruct (wrap64 (baseOffset app + o) <? 0) eqn:E1; [discriminate |].
  destruct (FS.seekMax v <? wrap64 (baseOffset app + o)) eqn:E2; [discriminate |].
  intro S. inversion S. apply Z.ltb_ge in E1, E2. auto.
Qed.

Lemma FS_FoldWithHandler_returns {H : Type} `{FoldHandler H} (v : FS.Env)
      (app : Appender) (h : H) :
  FS.readDead v = false -> WF app ->
  exists v' app' h' tr err,
    forall n,
      (length (OS.data (file app)) + length (FS.readErrs v) < n)%nat ->
      FS.FoldWithHandler n v app h = (v', app', h', tr, Some err).
Proof.
  intros Hd Wf. unfold FS.FoldWithHandler.
  destruct (closed app).
  { exists v, app, h, [], (Some ErrAppenderClosed). reflexivity. }
  destruct (FS.seek v app 0) as [app1 [x |]] eqn:Sk.
  { exists v, app1, h, [], (Some x). reflexivity. }
  destruct (FS_seek_spec _ _ _ _ Sk) as [-> [Hp _]].
  set (a1 := set_io app _ [] (wr app)).
  set (fuel := S (length (OS.data (file app)) + length (FS.readErrs v))%nat).
  destruct (FS_FoldLoop_returns fuel v a1 h 0) as (v2 & a2 & h2 & tr2 & e2 & L).
  - exact Hp.
  - exact Wf.
  - exact Hd.
  - unfold astream, stream, fuel. cbn.
    pose proof (len_drop_le (wrap64 (baseOffset app + 0)) (OS.data (file app))).
    unfold len in *. lia.
  - exists v2, a2, h2, tr2, e2. intros n Hn.
    replace n with (fuel + (n - fuel))%nat by (unfold fuel; lia).
    now apply FS_FoldLoop_more.
Qed.

(** On a file system that is sound, a traversal is the traversal of the
    first part. *)
Lemma FS_FoldWithHandler_sound {H : Type} `{FoldHandler H} (v : FS.Env)
      (app app' : Appender) (h h' : H) (err : option error) (tr : list Event) :
  FS.quiet v -> 2 ^ 63 - 1 <= FS.seekMax v ->
  FoldWithHandler app h = Some (app', h', err, tr) ->
  forall n, (length (OS.data (file app)) < n)%nat ->
    FS.FoldWithHandler n v app h = (v, app', h', tr, Some err).
Proof.
  intros Q Hm E n Hn. unfold FoldWithHandler in E. unfold FS.FoldWithHandler.
  destruct (closed app); [now inversion E |].
  assert (Hs : FS.seek v app 0 = seek app 0).
  { unfold FS.seek, seek.
    assert (Hw : wrap64 (baseOffset app + 0) < 2 ^ 63).
    { unfold wrap64.
      pose proof (Z.mod_pos_bound (baseOffset app + 0 + 2 ^ 63) (2 ^ 64) eq_refl).
      lia. }
    replace (FS.seekMax v <? wrap64 (baseOffset app + 0)) with false
      by (symmetry; apply Z.ltb_ge; lia).
    now rewrite orb_false_r. }
  rewrite Hs. destruct (seek app 0) as [app1 [x |]] eqn:S; [now inversion E |].
  destruct (seek_spec _ _ _ S) as [-> _].
  set (a1 := set_io app _ [] (wr app)) in *.
  assert (Hf : (fold_fuel a1 <= n)%nat) by (unfold fold_fuel; cbn; lia).
  replace n with (fold_fuel a1 + (n - fold_fuel a1))%nat by lia.
  apply FS_FoldLoop_more. now apply FS_FoldLoop_quiet.
Qed.

(** A traversal returns unless the reads of the file fail for ever: for
    every file, every script of write failures, every script of read
    failures that ends and every handler, so for the handlers of [ForEach],
    [Map], [FilteredMap] and [Fold], the loop reaches a [return] within one
    turn for each byte of the file and each read that fails, and one more,
    and more turns do not change what it returned.  With reads that fail
    for ever and a handler that neither stops nor fails, as the one that
    sizes the log in [OpenWithConfig], it does not return: after any number
    of turns the loop is still turning, it has called the reducer at every
    turn and has written nothing. *)
Theorem traversals_return {H : Type} `{FoldHandler H} (I : H -> Prop)
      (v : FS.Env) (app : Appender) (h : H) :
  WF app ->
  (FS.readDead v = false ->
   exists v' app' h' tr err,
     forall n,
       (length (OS.data (file app)) + length (FS.readErrs v) < n)%nat ->
       FS.FoldWithHandler n v app h = (v', app', h', tr, Some err))
  /\ (closed app = false ->
      0 <= wrap64 (baseOffset app + 0) <= FS.seekMax v ->
      FS.readErrs v = [] -> FS.readDead v = true ->
      (forall h0 e, I h0 ->
         I (fst (fst (Fold h0 e)))
         /\ snd (fst (Fold h0 e)) = false /\ snd (Fold h0 e) = None) ->
      I h ->
      forall n, exists app' h' tr,
        FS.FoldWithHandler n v app h = (v, app', h', tr, None)
        /\ length (folds tr) = n
        /\ OS.data (file app') = OS.data (file app)).
Proof.
  intro Wf. split.
  - intro Q. now apply FS_FoldWithHandler_returns.
  - intros Hc Hs Hr Hd Hq Hi n. unfold FS.FoldWithHandler, FS.seek. rewrite Hc.
    replace ((wrap64 (baseOffset app + 0) <? 0)
             || (FS.seekMax v <? wrap64 (baseOffset app + 0))) with false
      by (symmetry; apply orb_false_iff; split; apply Z.ltb_ge; lia).
    set (a1 := set_io app _ [] (wr app)).
    destruct (FS_FoldLoop_dead I n v a1 h 0 Hq Hi Hr Hd eq_refl)
      as (app' & h' & tr & L & Hl & Hf & _).
    { cbn. now apply WF_hw_pos. }
    exists app', h', tr. splits; auto. now rewrite Hf.
Qed.

Lemma traversals_return_witness :
  (exists v' app' h' tr err,
     forall n,
       (length (OS.data (file threeLog)) + length (FS.readErrs FS.failsTwice) < n)%nat ->
       FS.FoldWithHandler n FS.failsTwice threeLog (mkForEach visit tt)
       = (v', app', h', tr, Some err))
  /\ (forall n, exists app' h' tr,
        FS.FoldWithHandler n FS.broken threeLog (mkForEach visit tt)
        = (FS.broken, app', h', tr, None)
        /\ length (folds tr) = n
        /\ OS.data (file app') = OS.data (file threeLog)).
Proof.
  assert (Wf : WF threeLog) by (split; [left |]; reflexivity).
  pose (I := fun h : forEachHandler unit => fe_f h = visit).
  destruct (traversals_return I FS.failsTwice threeLog (mkForEach visit tt) Wf)
    as [A _].
  destruct (traversals_return I FS.broken threeLog (mkForEach visit tt) Wf) as [_ B].
  split.
  - apply A. reflexivity.
  - apply B.
    + reflexivity.
    + vm_compute. split; discriminate.
    + reflexivity.
    + reflexivity.
    + intros h0 e Hi. unfold I in *. cbn. rewrite Hi. cbn. auto.
    + reflexivity.
Defined.

(** ** Opening a file, whatever the file system does *)

(** The outcomes of [OpenWithConfig], after any number of turns of the
    traversal that sizes the log. *)
Theorem OpenWithConfig_outcomes (fuel : nat) (v : FS.Env) (contents : list byte)
      (script : list (option Z)) (cfg : Config) :
  MaxEntrySize cfg < 2 ^ 63 -> BaseOffset cfg < 2 ^ 63 ->
  let r := FS.OpenWithConfig fuel v contents script cfg in
  (MaxEntrySize cfg < 1 \/ BaseOffset cfg < 0 ->
   r = Some (OpenFailed ErrInvalidArguments))
  /\ (1 <= MaxEntrySize cfg -> 0 <= BaseOffset cfg ->
      forall x, FS.openErr v = Some x -> r = Some (OpenFailed x))
  /\ (2 ^ 32 <= MaxEntrySize cfg -> 0 <= BaseOffset cfg ->
      FS.openErr v = None -> r = Some OpenPanic)
  /\ (1 <= MaxEntrySize cfg < 2 ^ 32 -> 0 <= BaseOffset cfg ->
      FS.openErr v = None ->
      exists hw,
        entrySizeLen (MaxEntrySize cfg) = Some hw
        /\ (FS.seekMax v < BaseOffset cfg ->
            r = Some (Opened (newAppender contents script cfg hw)
                             (Some ErrUnexpectedReadError)))
        /\ (BaseOffset cfg <= FS.seekMax v ->
            r = None
            \/ exists app err,
                 r = Some (Opened app err)
                 /\ WF app
                 /\ maxEntrySize app = MaxEntrySize cfg
                 /\ baseOffset app = BaseOffset cfg
                 /\ ((err = None /\ closed app = false /\ aerr app = None)
                     \/ (err = Some ErrCompletingLastEntry
                         /\ closed app = true)))
        /\ (BaseOffset cfg <= FS.seekMax v -> FS.readDead v = false ->
            (length contents + length (FS.readErrs v) < fuel)%nat ->
            r <> None)
        /\ (BaseOffset cfg <= FS.seekMax v ->
            FS.readErrs v = [] -> FS.readDead v = true -> r = None)).
Proof.
  intros Hm Hb r. subst r. unfold FS.OpenWithConfig. splits.
  - intros [Hlt | Hlt].
    + replace (MaxEntrySize cfg <? 1) with true by (symmetry; apply Z.ltb_lt; lia).
      reflexivity.
    + replace (BaseOffset cfg <? 0) with true by (symmetry; apply Z.ltb_lt; lia).
      now rewrite orb_true_r.
  - intros H1 H0 x Ho.
    replace ((MaxEntrySize cfg <? 1) || (BaseOffset cfg <? 0)) with false
      by (symmetry; apply orb_false_iff; split; apply Z.ltb_ge; lia).
    now rewrite Ho.
  - intros H1 H0 Ho.
    replace ((MaxEntrySize cfg <? 1) || (BaseOffset cfg <? 0)) with false
      by (symmetry; apply orb_false_iff; split; apply Z.ltb_ge; lia).
    rewrite Ho.
    assert (Hp : 0 < 2 ^ 32) by reflexivity.
    assert (Hr : 1 <= MaxEntrySize cfg < 2 ^ 63) by lia.
    rewrite (entrySizeLen_eq _ Hr).
    replace (MaxEntrySize cfg <? 2 ^ 16) with false
      by (symmetry; apply Z.ltb_ge;
          change (2 ^ 16) with 65536; change (2 ^ 32) with 4294967296 in *; lia).
    replace (MaxEntrySize cfg <? 2 ^ 32) with false
      by (symmetry; apply Z.ltb_ge; lia).
    reflexivity.
  - intros H1 H0 Ho.
    replace ((MaxEntrySize cfg <? 1) || (BaseOffset cfg <? 0)) with false
      by (symmetry; apply orb_false_iff; split; apply Z.ltb_ge; lia).
    rewrite Ho.
    assert (Hr : 1 <= MaxEntrySize cfg < 2 ^ 63) by lia.
    assert (Ehw : exists hw, entrySizeLen (MaxEntrySize cfg) = Some hw
                             /\ (hw = 2 \/ hw = 4)).
    { rewrite (entrySizeLen_eq _ Hr).
      destruct (MaxEntrySize cfg <? 2 ^ 16); [exists 2; auto |].
      replace (MaxEntrySize cfg <? 2 ^ 32) with true
        by (symmetry; apply Z.ltb_lt; lia).
      exists 4; auto. }
    destruct Ehw as (hw & Ehw & Hhw). rewrite Ehw. exists hw.
    split; [reflexivity |].
    set (app := newAppender contents script cfg hw).
    assert (Wf : WF app).
    { split; cbn; [rewrite len_zeros by lia; exact Hhw | reflexivity]. }
    set (h := mkSizeFold _ _ 0).
    assert (Hw : wrap64 (baseOffset app + 0) = BaseOffset cfg).
    { cbn. rewrite Z.add_0_r. apply wrap64_small.
      change (2 ^ 63) with 9223372036854775808 in *. lia. }
    pose (I := fun _ : sizeFoldHandler => True).
    assert (Hq : forall (h0 : sizeFoldHandler) e, I h0 ->
               I (fst (fst (Fold h0 e)))
               /\ snd (fst (Fold h0 e)) = false /\ snd (Fold h0 e) = None)
      by (intros h0 e _; splits; [exact Logic.I | reflexivity | reflexivity]).
    splits.
    + intro Hs. unfold FS.FoldWithHandler, FS.seek.
      change (closed app) with false. cbv iota. rewrite Hw.
      replace (FS.seekMax v <? BaseOffset cfg) with true
        by (symmetry; apply Z.ltb_lt; lia).
      rewrite orb_true_r. reflexivity.
    + intro Hs. unfold FS.FoldWithHandler, FS.seek.
      change (closed app) with false. cbv iota. rewrite Hw.
      replace ((BaseOffset cfg <? 0) || (FS.seekMax v <? BaseOffset cfg)) with false
        by (symmetry; apply orb_false_iff; split; apply Z.ltb_ge; lia).
      set (a1 := set_io app _ [] (wr app)).
      destruct (FS.FoldLoop fuel v a1 h 0) as [[[[v2 a2] h2] tr2] r2] eqn:L.
      destruct (FS_FoldLoop_config I _ _ _ _ _ _ _ _ _ _ Hq Logic.I L)
        as (I1 & I2 & I3 & I4 & _ & I6).
      destruct r2 as [err |]; [right | now left].
      exists (set_asize a2 (sf_size h2)), err.
      split; [reflexivity |].
      split; [destruct Wf as [W1 W2]; split; cbn;
              [rewrite I3; exact W1 | rewrite I4; exact W2] |].
      cbn. split; [exact I1 |]. split; [exact I2 |].
      destruct I6 as [(I6 & I7) | ([I6 | I6] & I7 & I8)].
      * right. split; [congruence | exact I7].
      * discriminate.
      * left. splits; [congruence | exact I7 | exact I8].
    + intros Hs Q Hf.
      destruct (FS_FoldWithHandler_returns v app h Q Wf)
        as (v' & a' & h' & tr & err & E).
      rewrite (E fuel Hf). discriminate.
    + intros Hs Hre Hd. unfold FS.FoldWithHandler, FS.seek.
      change (closed app) with false. cbv iota. rewrite Hw.
      replace ((BaseOffset cfg <? 0) || (FS.seekMax v <? BaseOffset cfg)) with false
        by (symmetry; apply orb_false_iff; split; apply Z.ltb_ge; lia).
      set (a1 := set_io app _ [] (wr app)).
      destruct (FS_FoldLoop_dead I fuel v a1 h 0 Hq Logic.I Hre Hd eq_refl)
        as (app' & h' & tr & L & _).
      { cbn. rewrite len_zeros by lia. lia. }
      now rewrite L.
Qed.

Lemma OpenWithConfig_outcomes_witness :
  FS.OpenWithConfig 1 FS.missing [] [] readOnlyCfg = Some (OpenFailed ENOENT)
  /\ FS.OpenWithConfig 1 FS.small threeFrames [] (mkConfig 255 (2 ^ 62) false)
     = Some (Opened (newAppender threeFrames []
                                 (mkConfig 255 (2 ^ 62) false) 2)
                    (Some ErrUnexpectedReadError))
  /\ FS.OpenWithConfig 1 FS.broken threeFrames [] smallCfg = None
  /\ FS.OpenWithConfig 14 FS.sound threeFrames [] smallCfg <> None.
Proof.
  assert (B1 : MaxEntrySize readOnlyCfg < 2 ^ 63) by reflexivity.
  assert (B2 : BaseOffset readOnlyCfg < 2 ^ 63) by reflexivity.
  assert (B3 : BaseOffset (mkConfig 255 (2 ^ 62) false) < 2 ^ 63) by reflexivity.
  destruct (OpenWithConfig_outcomes 1 FS.missing [] [] readOnlyCfg B1 B2)
    as (_ & A & _).
  destruct (OpenWithConfig_outcomes 1 FS.small threeFrames []
              (mkConfig 255 (2 ^ 62) false) B1 B3) as (_ & _ & _ & B).
  destruct (OpenWithConfig_outcomes 1 FS.broken threeFrames [] smallCfg B1 B2)
    as (_ & _ & _ & C).
  destruct (OpenWithConfig_outcomes 14 FS.sound threeFrames [] smallCfg B1 B2)
    as (_ & _ & _ & D).
  splits.
  - apply A; [vm_compute; discriminate | vm_compute; discriminate | reflexivity].
  - destruct B as (hw & Ehw & B & _);
      [vm_compute; split; [discriminate | reflexivity]
      | vm_compute; discriminate | reflexivity |].
    vm_compute in Ehw. injection Ehw as <-. apply B. reflexivity.
  - destruct C as (hw & _ & _ & _ & _ & C);
      [vm_compute; split; [discriminate | reflexivity]
      | vm_compute; discriminate | reflexivity |].
    apply C; [vm_compute; discriminate | reflexivity | reflexivity].
  - destruct D as (hw & _ & _ & _ & D & _);
      [vm_compute; split; [discriminate | reflexivity]
      | vm_compute; discriminate | reflexivity |].
    apply D; [vm_compute; discriminate | reflexivity |].
    vm_compute. apply le_n.
Defined.
